(** * react-machine: the transition engine and the effect runtime

    A shallow embedding of the core of react-machine (the builders and the
    hook lowering of [merge], the pure [transition] / [applyTransition]
    engine, [runEffects] / [cleanEffects]) and of the service built on it
    ([createService], [send], [stop]), followed by the properties the
    specification states about them.

    Contexts and events are the contents of the JavaScript objects; hooks
    are functions that return or throw; the recursion of [applyTransition]
    and the nesting of [send] are bounded by fuel; the effect objects a
    service mutates live in a heap. *)

From stdpp Require Import gmap strings list fin_maps pretty.

Open Scope string_scope.
Open Scope list_scope.

(* ===================================================================== *)
(** * JavaScript values and objects *)
(* ===================================================================== *)

(** Heap locations, used for values that are references (nested objects,
    arrays, functions). *)
Abbreviation loc := nat (only parsing).

(** The JavaScript values that occur in contexts and event payloads.  Numbers
    are the integer-valued ones. *)
Inductive Value :=
  | VUndefined
  | VNull
  | VBool (b : bool)
  | VNum (n : Z)
  | VStr (s : string)
  | VRef (l : loc).

Global Instance Value_eq_dec : EqDecision Value.
Proof. solve_decision. Defined.

(** A plain object seen as its own enumerable properties.  Contexts and event
    objects are such objects; an event object carries its kind under the
    property ["type"]. *)
Abbreviation JsObject := (gmap string Value).
Abbreviation Context := (gmap string Value).
Abbreviation EventObject := (gmap string Value).

(** [ToBoolean]. *)
Definition truthy (v : Value) : bool :=
  match v with
  | VUndefined | VNull => false
  | VBool b => b
  | VNum n => negb (n =? 0)%Z
  | VStr s => negb (String.eqb s "")
  | VRef _ => true
  end.

(** [ToString], which is also how a value is turned into a property key in
    [o[v]]. *)
Definition ToString (v : Value) : string :=
  match v with
  | VUndefined => "undefined"
  | VNull => "null"
  | VBool true => "true"
  | VBool false => "false"
  | VNum n => pretty n
  | VStr s => s
  | VRef _ => "[object Object]"
  end.

(** [typeof v === "string"]. *)
Definition is_string (v : Value) : bool :=
  match v with VStr _ => true | _ => false end.

(** [o.k] on an object: the own property, or [undefined]. *)
Definition prop (o : JsObject) (k : string) : Value :=
  default VUndefined (o !! k).

(** Object spread [{...a, ...b}]: the properties of [b] win. *)
Definition spread2 (a b : JsObject) : JsObject := b ∪ a.

(** The machine graph is made of plain objects used as dictionaries
    ([machine.states], [state.transitions]), kept here in own-key order.  A
    read [o[k]] on such an object finds the own property, or else whatever
    [Object.prototype] provides under that name, or else [undefined]. *)
Inductive PropRead (A : Type) :=
  | Own (a : A)
  | Inherited
  | Absent.
Arguments Own {A} a.
Arguments Inherited {A}.
Arguments Absent {A}.

Definition Object_prototype_keys : list string :=
  [ "constructor"; "__proto__"; "hasOwnProperty"; "isPrototypeOf";
    "propertyIsEnumerable"; "toLocaleString"; "toString"; "valueOf";
    "__defineGetter__"; "__defineSetter__"; "__lookupGetter__";
    "__lookupSetter__" ].

Definition inherited_key (k : string) : bool :=
  bool_decide (k ∈ Object_prototype_keys).

Fixpoint own_prop {A} (o : list (string * A)) (k : string) : option A :=
  match o with
  | [] => None
  | (k', a) :: o' => if String.eqb k' k then Some a else own_prop o' k
  end.

Definition js_get {A} (o : list (string * A)) (k : string) : PropRead A :=
  match own_prop o k with
  | Some a => Own a
  | None => if inherited_key k then Inherited else Absent
  end.

(* ===================================================================== *)
(** * Results of running code *)
(* ===================================================================== *)

(** What a [throw] carries. *)
Inductive Exn :=
  | TypeError (msg : string)
  | Error (msg : string)
  | Thrown (v : Value).

(** A computation returns, throws, or does not return (the fuel of the
    recursion ran out, or a user function loops). *)
Inductive res (A : Type) :=
  | Ret (a : A)
  | Throw (e : Exn)
  | Diverge.
Arguments Ret {A} a.
Arguments Throw {A} e.
Arguments Diverge {A}.

Global Instance res_ret : MRet res := fun A a => Ret a.
Global Instance res_bind : MBind res := fun A B f m =>
  match m with
  | Ret a => f a
  | Throw e => Throw e
  | Diverge => Diverge
  end.

(* ===================================================================== *)
(** * Hooks *)
(* ===================================================================== *)

(** [types.ts]: [GuardFunction], [ReduceFunction], [ActionFunction], [Assign],
    [InvokeFunction], [EffectFunction].  A user function may throw. *)
Definition Guard := Context → EventObject → res bool.

(** A reducer returns the next context, or the sentinel object [ACTION] of
    [core.ts] ([const ACTION = {}]). *)
Inductive ReduceResult :=
  | NewContext (c : Context)
  | ACTION.

Definition Reducer := Context → EventObject → res ReduceResult.

Definition Action := Context → EventObject → res unit.

Inductive Assign :=
  | AssignTrue
  | AssignFn (f : Context → JsObject → res JsObject)
  | AssignConst (v : JsObject).

(** What [send] accepts: an event name or an event object. *)
Inductive EventArg :=
  | EventName (s : string)
  | EventObj (e : EventObject).

(** The code of an effect (and of its cleanup, and of a subscriber), as far
    as the engine can observe it: it calls the [send] function it was given
    any number of times, and then returns, throws, or never returns. *)
Inductive Prog (R : Type) :=
  | Return (r : R)
  | CallSend (ev : EventArg) (k : Prog R)
  | Raise (e : Exn)
  | Hang.
Arguments Return {R} r.
Arguments CallSend {R} ev k.
Arguments Raise {R} e.
Arguments Hang {R}.

(** What an effect function returns: nothing, a promise-like object (an
    object with a [then] property), or a cleanup function. *)
Inductive EffectReturn :=
  | NoCleanup
  | PromiseLike
  | Cleanup (dispose : Prog unit).

Definition EffectFn := Context → EventObject → Prog EffectReturn.

(** An [invoke] function returns a promise (settled later, outside the
    synchronous run), unless it throws before returning it. *)
Definition InvokeFn := Context → EventObject → res unit.

(* ===================================================================== *)
(** * Hook lowering: [merge] *)
(* ===================================================================== *)

Inductive HookType :=
  | h_assign | h_reduce | h_action | h_guard | h_invoke | h_effect.

Definition transitionHooks : list HookType :=
  [h_assign; h_reduce; h_action; h_guard].
Definition enterHooks : list HookType :=
  [h_assign; h_reduce; h_action; h_invoke; h_effect].
Definition exitHooks : list HookType :=
  [h_assign; h_reduce; h_action].

(** A hook option is one value or an array of values. *)
Inductive OneOrMany (A : Type) :=
  | One (a : A)
  | Many (l : list A).
Arguments One {A} a.
Arguments Many {A} l.

(** [toArray(opts[hook] || [])]. *)
Definition toArray {A} (v : option (OneOrMany A)) : list A :=
  match v with
  | None => []
  | Some (One a) => [a]
  | Some (Many l) => l
  end.

(** One property of the option object handed to [transition], [internal],
    [immediate], [enter] or [exit]. *)
Inductive HookOption :=
  | OptGuard (v : OneOrMany Guard)
  | OptReduce (v : OneOrMany Reducer)
  | OptAssign (v : OneOrMany Assign)
  | OptAction (v : OneOrMany Action)
  | OptInvoke (v : OneOrMany InvokeFn)
  | OptEffect (v : OneOrMany EffectFn).

Definition hook_of (o : HookOption) : HookType :=
  match o with
  | OptGuard _ => h_guard
  | OptReduce _ => h_reduce
  | OptAssign _ => h_assign
  | OptAction _ => h_action
  | OptInvoke _ => h_invoke
  | OptEffect _ => h_effect
  end.

(** The option object: its properties in the order they were written (a
    hook kind occurs at most once, as the keys of an object do). *)
Definition Options := list HookOption.

(** [opts.guard], [opts.reduce], ...: the property reads of [merge]. *)
Fixpoint guard (opts : Options) : option (OneOrMany Guard) :=
  match opts with
  | [] => None
  | OptGuard v :: _ => Some v
  | _ :: opts' => guard opts'
  end.

Fixpoint reduce (opts : Options) : option (OneOrMany Reducer) :=
  match opts with
  | [] => None
  | OptReduce v :: _ => Some v
  | _ :: opts' => reduce opts'
  end.

Fixpoint assign (opts : Options) : option (OneOrMany Assign) :=
  match opts with
  | [] => None
  | OptAssign v :: _ => Some v
  | _ :: opts' => assign opts'
  end.

Fixpoint action (opts : Options) : option (OneOrMany Action) :=
  match opts with
  | [] => None
  | OptAction v :: _ => Some v
  | _ :: opts' => action opts'
  end.

Fixpoint invoke (opts : Options) : option (OneOrMany InvokeFn) :=
  match opts with
  | [] => None
  | OptInvoke v :: _ => Some v
  | _ :: opts' => invoke opts'
  end.

Fixpoint effect (opts : Options) : option (OneOrMany EffectFn) :=
  match opts with
  | [] => None
  | OptEffect v :: _ => Some v
  | _ :: opts' => effect opts'
  end.

Definition noOptions : Options := [].

(** [assignToReduce]. *)
Definition assignToReduce (assign : Assign) : Reducer :=
  fun context event =>
    let data := delete "type" event in
    match assign with
    | AssignTrue => Ret (NewContext (spread2 context data))
    | AssignFn f =>
        r ← f context data;
        Ret (NewContext (spread2 context r))
    | AssignConst v => Ret (NewContext (spread2 context v))
    end.

(** [actionToReduce]. *)
Definition actionToReduce (action : Action) : Reducer :=
  fun context event =>
    _ ← action context event;
    Ret ACTION.

(** The object [merge] builds: a key is present once some allowed hook was
    added under it ([HOOK_KEYS]: guards, reducers, effects, invokes). *)
Record Merged := mkMerged {
  guards : option (list Guard);
  reducers : option (list Reducer);
  effects : option (list EffectFn);
  invokes : option (list InvokeFn)
}.

Definition noMerged : Merged := mkMerged None None None None.

(** The inner function [add] of [merge]: [assign] and [action] are mapped
    ([mappedHooks]) to [reduce] entries, and the entries are concatenated to
    what the key already holds. *)
Definition add (opts : Options) (merged : Merged) (hook : HookType) : Merged :=
  let cat {A} (old : option (list A)) (opt : list A) := Some (default [] old ++ opt) in
  match hook with
  | h_assign =>
      mkMerged (guards merged)
               (cat (reducers merged) (assignToReduce <$> toArray (assign opts)))
               (effects merged) (invokes merged)
  | h_reduce =>
      mkMerged (guards merged)
               (cat (reducers merged) (toArray (reduce opts)))
               (effects merged) (invokes merged)
  | h_action =>
      mkMerged (guards merged)
               (cat (reducers merged) (actionToReduce <$> toArray (action opts)))
               (effects merged) (invokes merged)
  | h_guard =>
      mkMerged (cat (guards merged) (toArray (guard opts)))
               (reducers merged) (effects merged) (invokes merged)
  | h_invoke =>
      mkMerged (guards merged) (reducers merged) (effects merged)
               (cat (invokes merged) (toArray (invoke opts)))
  | h_effect =>
      mkMerged (guards merged) (reducers merged)
               (cat (effects merged) (toArray (effect opts)))
               (invokes merged)
  end.

(** [merge(opts = {}, allowedHooks)]. *)
Definition merge (opts : option Options) (allowedHooks : list HookType) : Merged :=
  foldl (add (default noOptions opts)) noMerged allowedHooks.

(** What the three lists of allowed hooks make [merge] put under
    [reducers]: the [assign] entries, then the [reduce] entries, then the
    [action] entries. *)
Definition lowered_reducers (opts : Options) : list Reducer :=
  (assignToReduce <$> toArray (assign opts))
  ++ toArray (reduce opts)
  ++ (actionToReduce <$> toArray (action opts)).

(* ===================================================================== *)
(** * The machine graph ([types.ts]) *)
(* ===================================================================== *)

(** [Transition | Internal | Immediate].  [External] and [Internal] carry
    [type: "transition"], [Immediate] carries [type: "immediate"]; only
    [Internal] has the property [internal]. *)
Inductive Transition :=
  | External (event target : string) (gs : list Guard) (rs : list Reducer)
  | Internal (event : string) (gs : list Guard) (rs : list Reducer)
  | Immediate (target : string) (gs : list Guard) (rs : list Reducer).

(** ["internal" in transition]. *)
Definition isInternal (transition : Transition) : bool :=
  match transition with
  | Internal _ _ _ => true
  | _ => false
  end.

(** [transition.target]. *)
Definition targetOf (transition : Transition) : Value :=
  match transition with
  | External _ target _ _ | Immediate target _ _ => VStr target
  | Internal _ _ _ => VUndefined
  end.

(** [transition.guards] and [transition.reducers]. *)
Definition guardsOf (transition : Transition) : list Guard :=
  match transition with
  | External _ _ gs _ | Internal _ gs _ | Immediate _ gs _ => gs
  end.

Definition reducersOf (transition : Transition) : list Reducer :=
  match transition with
  | External _ _ _ rs | Internal _ _ rs | Immediate _ _ rs => rs
  end.

(** [Enter]: [invokes] is absent from the declared type and read under a
    truthiness test, so it is optional here. *)
Record Enter := mkEnter {
  enter_reducers : list Reducer;
  enter_invokes : option (list InvokeFn);
  enter_effects : list EffectFn
}.

Record Exit := mkExit {
  exit_reducers : list Reducer
}.

(** [MachineState]: [transitions] is a dictionary from event names to the
    transitions declared for them; [immediates] and [final] are optional in
    the type ([createState] sets [immediates] and never sets [final]). *)
Record MachineState := mkMachineState {
  node_name : string;
  transitions : list (string * list Transition);
  immediates : option (list Transition);
  enter : list Enter;
  exit : list Exit;
  node_final : bool
}.

(** [Machine]: the dictionary [states], in the order of [Object.keys]. *)
Record Machine := mkMachine {
  states : list (string * MachineState)
}.

(** [StateObject]: [name] is a string, or [null] before the initial
    transition; [final?: true]. *)
Record StateObject := mkStateObject {
  name : Value;
  context : Context;
  final : bool
}.

(** [Effect], as [applyTransition] builds it. *)
Record Effect := mkEffect {
  run : EffectFn;
  event : EventObject
}.

(* ===================================================================== *)
(** * Builders *)
(* ===================================================================== *)

(** [assertString]: after it returns, the argument is known to be a
    string. *)
Definition assertString (argument : Value) (error : string) : res string :=
  match argument with
  | VStr s => Ret s
  | _ => Throw (Error error)
  end.

Definition createEnter (opts : option Options) : Enter :=
  let merged := merge opts enterHooks in
  mkEnter (default [] (reducers merged)) (invokes merged)
          (default [] (effects merged)).

Definition createExit (opts : option Options) : Exit :=
  let merged := merge opts exitHooks in
  mkExit (default [] (reducers merged)).

Definition createTransition (event target : Value) (opts : option Options)
  : res Transition :=
  event ← assertString event
    "First argument of the transition must be the name of the event";
  target ← assertString target
    "Second argument of the transition must be the name of the target state";
  let merged := merge opts transitionHooks in
  Ret (External event target (default [] (guards merged))
                (default [] (reducers merged))).

Definition createInternal (event : Value) (opts : option Options)
  : res Transition :=
  event ← assertString event
    "First argument of the internal transition must be the name of the event";
  let merged := merge opts transitionHooks in
  Ret (Internal event (default [] (guards merged))
                (default [] (reducers merged))).

Definition createImmediate (target : Value) (opts : option Options)
  : res Transition :=
  target ← assertString target
    "First argument of the immediate transition must be the name of the target state";
  let merged := merge opts transitionHooks in
  Ret (Immediate target (default [] (guards merged))
                 (default [] (reducers merged))).

(* ===================================================================== *)
(** * The transition engine *)
(* ===================================================================== *)

(** [guards.every((g) => g(context, event))]. *)
Fixpoint every (gs : list Guard) (context : Context) (event : EventObject)
  : res bool :=
  match gs with
  | [] => Ret true
  | g :: gs' =>
      b ← g context event;
      if b : bool then every gs' context event else Ret false
  end.

(** [checkGuards]. *)
Definition checkGuards (context : Context) (event : EventObject)
    (transition : Transition) : res bool :=
  if (length (guardsOf transition) =? 0)%nat then Ret true
  else every (guardsOf transition) context event.

Definition set_context (next : StateObject) (c : Context) : StateObject :=
  mkStateObject (name next) c (final next).
Definition set_name (next : StateObject) (n : Value) : StateObject :=
  mkStateObject n (context next) (final next).
Definition set_final (next : StateObject) : StateObject :=
  mkStateObject (name next) (context next) true.

(** [applyReducers]: the object [next] it updates is returned. *)
Fixpoint applyReducers (next : StateObject) (event : EventObject)
    (reducers : list Reducer) : res StateObject :=
  match reducers with
  | [] => Ret next
  | reduce :: reducers' =>
      result ← reduce (context next) event;
      match result with
      | NewContext c => applyReducers (set_context next c) event reducers'
      | ACTION => applyReducers next event reducers'
      end
  end.

(** [for (const exit of currState.exit) applyReducers(next, event, exit.reducers)]. *)
Fixpoint applyExits (next : StateObject) (event : EventObject)
    (exits : list Exit) : res StateObject :=
  match exits with
  | [] => Ret next
  | exit :: exits' =>
      next ← applyReducers next event (exit_reducers exit);
      applyExits next event exits'
  end.

(** [for (const enter of nextState.enter) applyReducers(next, event, enter.reducers)]. *)
Fixpoint applyEnters (next : StateObject) (event : EventObject)
    (enters : list Enter) : res StateObject :=
  match enters with
  | [] => Ret next
  | enter :: enters' =>
      next ← applyReducers next event (enter_reducers enter);
      applyEnters next event enters'
  end.

(** The loops [for (const candidate of ...) if (checkGuards(...)) return
    applyTransition(...)]: the candidate the loop returns on, if any. *)
Fixpoint selectCandidate (context : Context) (event : EventObject)
    (candidates : list Transition) : res (option Transition) :=
  match candidates with
  | [] => Ret None
  | candidate :: candidates' =>
      ok ← checkGuards context event candidate;
      if ok : bool then Ret (Some candidate)
      else selectCandidate context event candidates'
  end.

(** [promiseEffect]: the effect calls [fn] at once; what the promise does
    later is outside the synchronous run.  Its cleanup sends nothing. *)
Definition promiseEffect (fn : InvokeFn) : EffectFn :=
  fun context event =>
    match fn context event with
    | Ret _ => Return (Cleanup (Return tt))
    | Throw e => Raise e
    | Diverge => Hang
    end.

(** The effects of the settled state: for each [enter], its [invokes]
    wrapped by [promiseEffect], then its [effects]. *)
Definition enterEffects (event : EventObject) (enter : Enter) : list Effect :=
  ((fun invoke => mkEffect (promiseEffect invoke) event)
     <$> default [] (enter_invokes enter))
  ++ ((fun effect => mkEffect effect event) <$> enter_effects enter).

Definition collectEffects (event : EventObject) (enters : list Enter)
  : list Effect :=
  concat (enterEffects event <$> enters).

(** [Object.keys(nextState.transitions).length === 0 &&
     nextState.immediates?.length === 0]. *)
Definition isFinal (nextState : MachineState) : bool :=
  (length (transitions nextState) =? 0)%nat
  && match immediates nextState with
     | Some l => (length l =? 0)%nat
     | None => false
     end.

(** [applyTransition].  The recursion through immediate transitions need
    not end, so it is bounded by [fuel]. *)
Fixpoint applyTransition (fuel : nat) (machine : Machine) (curr : StateObject)
    (event : EventObject) (transition : Transition)
  : res (StateObject * option (list Effect)) :=
  match fuel with
  | O => Diverge
  | S fuel' =>
      let next := curr in
      let currentName := name curr in
      let target :=
        if isInternal transition then currentName else targetOf transition in
      let currState := js_get (states machine) (ToString currentName) in
      let nextState := js_get (states machine) (ToString target) in
      next ←
        (if isInternal transition then Ret next
         else match currState with
              | Own currState => applyExits next event (exit currState)
              | Inherited => Throw (TypeError "currState.exit is not iterable")
              | Absent => Ret next
              end);
      let next := set_name next target in
      next ← applyReducers next event (reducersOf transition);
      match nextState with
      | Absent =>
          Throw (TypeError "Cannot read properties of undefined")
      | Inherited =>
          Throw (TypeError
                   (if isInternal transition
                    then "Cannot convert undefined or null to object"
                    else "nextState.enter is not iterable"))
      | Own nextState =>
          next ←
            (if isInternal transition then Ret next
             else applyEnters next event (enter nextState));
          candidate ←
            match immediates nextState with
            | Some candidates => selectCandidate (context next) event candidates
            | None => Ret None
            end;
          match candidate with
          | Some candidate => applyTransition fuel' machine next event candidate
          | None =>
              let next := if isFinal nextState then set_final next else next in
              if isInternal transition then Ret (next, None)
              else Ret (next, Some (collectEffects event (enter nextState)))
          end
      end
  end.

(** Vocabulary for the statements about [applyTransition]. *)

(** The exit hooks an external transition runs: those of the current state
    node when [machine.states[curr.name]] is a node, none when it is
    [undefined]. *)
Definition exitsToRun (currState : PropRead MachineState) : option (list Exit) :=
  match currState with
  | Own currState => Some (exit currState)
  | Absent => Some []
  | Inherited => None
  end.

(** The reducers of one external step, in the order they run. *)
Definition stepReducers (exits : list Exit) (transition : Transition)
    (enters : list Enter) : list Reducer :=
  concat (exit_reducers <$> exits)
  ++ reducersOf transition
  ++ concat (enter_reducers <$> enters).

(** The immediate of a state node the loop of [applyTransition] returns
    on. *)
Definition immediateCandidate (nextState : MachineState) (context : Context)
    (event : EventObject) : res (option Transition) :=
  match immediates nextState with
  | Some candidates => selectCandidate context event candidates
  | None => Ret None
  end.

(** The state a settling step returns. *)
Definition settle (nextState : MachineState) (next : StateObject) : StateObject :=
  if isFinal nextState then set_final next else next.

(** [toEventObject]. *)
Definition toEventObject (event : EventArg) : EventObject :=
  match event with
  | EventName s => {[ "type" := VStr s ]}
  | EventObj e => e
  end.

(** The second half of [transition]: dispatch of the event on the
    transitions of the current state. *)
Definition dispatch (fuel : nat) (machine : Machine) (state : StateObject)
    (eventObj : EventObject) : res (StateObject * option (list Effect)) :=
  let transitions :=
    match js_get (states machine) (ToString (name state)) with
    | Own currState => transitions currState
    | Inherited | Absent => []
    end in
  match js_get transitions (ToString (prop eventObj "type")) with
  | Own candidates =>
      candidate ← selectCandidate (context state) eventObj candidates;
      match candidate with
      | Some candidate => applyTransition fuel machine state eventObj candidate
      | None => Ret (state, None)
      end
  | Inherited => Throw (TypeError "candidates is not iterable")
  | Absent => Ret (state, None)
  end.

(** [transition]. *)
Definition transition (fuel : nat) (machine : Machine) (state : StateObject)
    (event : EventArg) : res (StateObject * option (list Effect)) :=
  let eventObj := toEventObject event in
  if negb (truthy (name state))
     && bool_decide (prop eventObj "type" = VNull) then
    match states machine with
    | (initialStateName, _) :: _ =>
        initialTransition ← createImmediate (VStr initialStateName) (Some []);
        applyTransition fuel machine state eventObj initialTransition
    | [] => dispatch fuel machine state eventObj
    end
  else dispatch fuel machine state eventObj.

(* ===================================================================== *)
(** * The effect runtime and the service *)
(* ===================================================================== *)

(** An effect object once it lives in a service: [runEffects] stores the
    cleanup under [dispose] and the wrapper sets [disposed]. *)
Record EffectObject := mkEffectObject {
  effect_of : Effect;
  dispose : option (Prog unit);
  disposed : bool
}.

(** The object [service] of [createService], with the variables [cbs] and
    [running] its methods close over. *)
Record Service := mkService {
  machine : Machine;
  state : StateObject;
  prev : option StateObject;
  pendingEffects : list loc;
  runningEffects : list loc;
  cbs : list (StateObject → Prog unit);
  running : bool
}.

(** The mutable world of a running service: the service itself, the effect
    objects (an effect object is its index in [heap]; the arrays
    [pendingEffects] and [runningEffects] hold such references) and the
    warnings [tiny-warning] has printed. *)
Record World := mkWorld {
  service : Service;
  heap : list EffectObject;
  warnings : list string
}.

(** Stateful code: it changes the world and returns, throws or diverges. *)
Definition M (A : Type) : Type := World → World * res A.

Global Instance M_ret : MRet M := fun A a w => (w, Ret a).
Global Instance M_bind : MBind M := fun A B f m w =>
  match m w with
  | (w', Ret a) => f a w'
  | (w', Throw e) => (w', Throw e)
  | (w', Diverge) => (w', Diverge)
  end.

Definition throw {A} (e : Exn) : M A := fun w => (w, Throw e).
Definition diverge {A} : M A := fun w => (w, Diverge).
Definition get_world : M World := fun w => (w, Ret w).
Definition modify (f : World → World) : M unit := fun w => (f w, Ret tt).

Definition set_service (f : Service → Service) (w : World) : World :=
  mkWorld (f (service w)) (heap w) (warnings w).
Definition set_heap (f : list EffectObject → list EffectObject) (w : World)
  : World :=
  mkWorld (service w) (f (heap w)) (warnings w).

(** [warning(false, msg)] prints and returns. *)
Definition warning (msg : string) : M unit :=
  modify (fun w => mkWorld (service w) (heap w) (warnings w ++ [msg])).

Definition post_disposal_warning : string :=
  "Can't send events in an effect after it has been cleaned up. " +:+
  "This is a no-op, but indicates a memory leak in your application. " +:+
  "To fix, cancel all subscriptions and asynchronous tasks in the effect's cleanup function.".

Definition async_effect_warning : string :=
  "Effect function must return a cleanup function or nothing. " +:+
  "Use invoke instead of effect for async functions, or call the async function inside the synchronous effect function.".

(** [(effect as any).disposed]. *)
Definition is_disposed (effect : loc) (w : World) : bool :=
  match heap w !! effect with
  | Some o => disposed o
  | None => false
  end.

(** [safeSend], the guarded [send] that [runEffects] hands to the effect
    [effect]. *)
Definition safeSend (send : EventArg → M unit) (effect : loc)
  : EventArg → M unit :=
  fun args w =>
    if is_disposed effect w then warning post_disposal_warning w
    else send args w.

(** Running user code against the [send] function it was given. *)
Fixpoint runProg {R} (send : EventArg → M unit) (p : Prog R) : M R :=
  match p with
  | Return r => mret r
  | CallSend ev k => _ ← send ev; runProg send k
  | Raise e => throw e
  | Hang => diverge
  end.

(** [effect.dispose = () => { effect.disposed = true; return dispose(); }]:
    storing the wrapper is storing the cleanup it wraps; [call_dispose] is
    the wrapper's body. *)
Definition store_dispose (effect : loc) (d : Prog unit) : M unit :=
  modify (set_heap (fun h =>
    match h !! effect with
    | Some o => <[effect := mkEffectObject (effect_of o) (Some d) (disposed o)]> h
    | None => h
    end)).

Definition mark_disposed (effect : loc) : M unit :=
  modify (set_heap (fun h =>
    match h !! effect with
    | Some o => <[effect := mkEffectObject (effect_of o) (dispose o) true]> h
    | None => h
    end)).

Definition call_dispose (send : EventArg → M unit) (effect : loc)
    (d : Prog unit) : M unit :=
  _ ← mark_disposed effect;
  runProg (safeSend send effect) d.

(** [runEffects(effects, state, send)]. *)
Fixpoint runEffects (send : EventArg → M unit) (effects : list loc)
    (state : StateObject) : M (list loc) :=
  match effects with
  | [] => mret []
  | effect :: effects' =>
      w ← get_world;
      match heap w !! effect with
      | None => throw (TypeError "effect is undefined")
      | Some o =>
          d ← runProg (safeSend send effect)
                (run (effect_of o) (context state) (event (effect_of o)));
          match d with
          | PromiseLike =>
              _ ← warning async_effect_warning;
              runEffects send effects' state
          | Cleanup d =>
              _ ← store_dispose effect d;
              runningEffects ← runEffects send effects' state;
              mret (effect :: runningEffects)
          | NoCleanup => runEffects send effects' state
          end
      end
  end.

(** [cleanEffects(runningEffects)]: [effect.dispose?.()] for each.  The
    wrapper stored by [runEffects] closes over the [send] of that call; a
    service always passes its own [send]. *)
Fixpoint cleanEffects (send : EventArg → M unit) (runningEffects : list loc)
  : M (list loc) :=
  match runningEffects with
  | [] => mret []
  | effect :: runningEffects' =>
      w ← get_world;
      _ ← match heap w !! effect with
          | Some o =>
              match dispose o with
              | Some d => call_dispose send effect d
              | None => mret tt
              end
          | None => mret tt
          end;
      cleanEffects send runningEffects'
  end.

Definition set_runningEffects (l : list loc) : M unit :=
  modify (set_service (fun s =>
    mkService (machine s) (state s) (prev s) (pendingEffects s) l (cbs s)
              (running s))).

Definition set_pendingEffects (l : list loc) : M unit :=
  modify (set_service (fun s =>
    mkService (machine s) (state s) (prev s) l (runningEffects s) (cbs s)
              (running s))).

Definition set_prev (p : option StateObject) : M unit :=
  modify (set_service (fun s =>
    mkService (machine s) (state s) p (pendingEffects s) (runningEffects s)
              (cbs s) (running s))).

Definition set_state (st : StateObject) : M unit :=
  modify (set_service (fun s =>
    mkService (machine s) st (prev s) (pendingEffects s) (runningEffects s)
              (cbs s) (running s))).

(** The effects [applyTransition] returns are fresh objects. *)
Definition alloc_effects (effects : list Effect) : M (list loc) :=
  fun w =>
    let n := length (heap w) in
    (set_heap (fun h => h ++ ((fun e => mkEffectObject e None false) <$> effects)) w,
     Ret (seq n (length effects))).

(** The inner function [runEffects] of [createService]. *)
Definition service_runEffects (send : EventArg → M unit) : M unit :=
  w ← get_world;
  cleaned ← cleanEffects send (runningEffects (service w));
  _ ← set_runningEffects cleaned;
  w ← get_world;
  started ← runEffects send (pendingEffects (service w)) (state (service w));
  set_runningEffects started.

(** [for (const cb of cbs) cb(state)]. *)
Fixpoint notify (send : EventArg → M unit) (cbs : list (StateObject → Prog unit))
    (state : StateObject) : M unit :=
  match cbs with
  | [] => mret tt
  | cb :: cbs' => _ ← runProg send (cb state); notify send cbs' state
  end.

(** [service.send].  An effect or a subscriber may call [send] again while
    it runs, so the nesting is bounded by [fuel]. *)
Fixpoint send (fuel : nat) (event : EventArg) : M unit :=
  match fuel with
  | O => diverge
  | S fuel' =>
      w ← get_world;
      if negb (running (service w)) then mret tt
      else
        _ ← set_prev (Some (state (service w)));
        match transition fuel' (machine (service w)) (state (service w)) event with
        | Throw e => throw e
        | Diverge => diverge
        | Ret (state, effects) =>
            _ ← set_state state;
            _ ← match effects with
                | Some effects =>
                    pending ← alloc_effects effects;
                    _ ← set_pendingEffects pending;
                    service_runEffects (send fuel')
                | None => mret tt
                end;
            w ← get_world;
            notify (send fuel') (cbs (service w)) state
        end
  end.

(** [service.stop]. *)
Definition stop (fuel : nat) : M unit :=
  _ ← modify (set_service (fun s =>
        mkService (machine s) (state s) (prev s) [] (runningEffects s) [] false));
  w ← get_world;
  cleaned ← cleanEffects (send fuel) (runningEffects (service w));
  set_runningEffects cleaned.

(** [createService], from the compiled machine on: the initial transition,
    then the first [runEffects()]. *)
Definition createService (fuel : nat) (machine : Machine) (context : Context)
  : World * res unit :=
  match transition fuel machine (mkStateObject VNull context false)
                   (EventObj {[ "type" := VNull ]}) with
  | Ret (state, effects) =>
      (pending ← alloc_effects (default [] effects);
       _ ← set_pendingEffects pending;
       service_runEffects (send fuel))
        (mkWorld (mkService machine state None [] [] [] true) [] [])
  | Throw e =>
      (mkWorld (mkService machine (mkStateObject VNull context false) None [] [] [] true) [] [],
       Throw e)
  | Diverge =>
      (mkWorld (mkService machine (mkStateObject VNull context false) None [] [] [] true) [] [],
       Diverge)
  end.

(** Vocabulary for the statements about the effect runtime. *)


(** The world after [effect.disposed = true]. *)
Definition with_disposed (effect : loc) (w : World) : World :=
  set_heap (fun h =>
    match h !! effect with
    | Some o => <[effect := mkEffectObject (effect_of o) (dispose o) true]> h
    | None => h
    end) w.

(** The world after [n] more post-disposal warnings. *)
Definition with_warnings (n : nat) (w : World) : World :=
  mkWorld (service w) (heap w) (warnings w ++ replicate n post_disposal_warning).

(** How many times a piece of user code calls [send], and how it ends when
    those calls return. *)
Fixpoint sends {R} (p : Prog R) : nat :=
  match p with
  | CallSend _ k => S (sends k)
  | _ => 0
  end.

Fixpoint outcome {R} (p : Prog R) : res R :=
  match p with
  | Return r => Ret r
  | CallSend _ k => outcome k
  | Raise e => Throw e
  | Hang => Diverge
  end.

(** Stateful code that never resets the [disposed] flag of [effect]. *)
Definition keeps_disposed (effect : loc) {A} (m : M A) : Prop :=
  ∀ w, is_disposed effect w = true → is_disposed effect (m w).1 = true.

(* ===================================================================== *)
(** * [assignToReduce] on object references *)
(* ===================================================================== *)

(** Above, a context is the content of the context object.  To say which
    objects the reducer made by [assignToReduce] reads, builds and writes,
    this module runs the same function on references into a store of
    objects: an object is its index in the store, a new object is appended,
    and a write would replace an entry. *)
Module Store.

Abbreviation Store := (list JsObject).

Definition alloc (h : Store) (o : JsObject) : Store * loc :=
  (h ++ [o], length h).

(** What [{...v}] copies from a string: its characters under their
    indices. *)
Fixpoint string_props (i : nat) (s : string) : JsObject :=
  match s with
  | EmptyString => ∅
  | String ch s' => <[pretty i := VStr (String ch EmptyString)]> (string_props (S i) s')
  end.

(** What [{...v}] copies from a value: the own properties of an object,
    nothing from [undefined], [null], a boolean or a number. *)
Definition own_props (h : Store) (v : Value) : JsObject :=
  match v with
  | VRef l => default ∅ (h !! l)
  | VStr s => string_props 0 s
  | _ => ∅
  end.

(** A user function on references: it may allocate and write. *)
Definition UserFn := loc → loc → Store → Store * res Value.

(** The argument of [assignToReduce]: [true], a function ([isFunction]),
    or any other value. *)
Inductive Assign :=
  | AssignTrue
  | AssignFn (f : UserFn)
  | AssignConst (v : Value).

(** [assignToReduce(assign)(context, event)].  In
    [{ ...context, ...assign(context, data) }] the properties of [context]
    are copied before [assign] is called. *)
Definition assignToReduce (assign : Assign) (context event : loc)
  : Store → Store * res Value :=
  fun h =>
    let '(h1, data) := alloc h (delete "type" (own_props h (VRef event))) in
    match assign with
    | AssignTrue =>
        let '(h2, r) :=
          alloc h1 (spread2 (own_props h1 (VRef context))
                            (own_props h1 (VRef data))) in
        (h2, Ret (VRef r))
    | AssignFn f =>
        let copied := own_props h1 (VRef context) in
        match f context data h1 with
        | (h2, Ret v) =>
            let '(h3, r) := alloc h2 (spread2 copied (own_props h2 v)) in
            (h3, Ret (VRef r))
        | (h2, Throw e) => (h2, Throw e)
        | (h2, Diverge) => (h2, Diverge)
        end
    | AssignConst v =>
        let '(h2, r) :=
          alloc h1 (spread2 (own_props h1 (VRef context))
                            (own_props h1 v)) in
        (h2, Ret (VRef r))
    end.

End Store.

(* ===================================================================== *)
(** * Machines used as examples *)
(* ===================================================================== *)

(** The state node [createState(name, ...)] returns. *)
Definition node (name : string) (transitions : list (string * list Transition))
    (immediates : list Transition) (enter : list Enter) (exit : list Exit)
  : MachineState :=
  mkMachineState name transitions (Some immediates) enter exit false.

Definition at_state (name : string) (context : Context) : StateObject :=
  mkStateObject (VStr name) context false.

Definition initialState (context : Context) : StateObject :=
  mkStateObject VNull context false.

Definition initialEvent : EventArg := EventObj {[ "type" := VNull ]}.

Definition go : EventObject := {[ "type" := VStr "go" ]}.

(** [state("a", transition("go", "b"), exit({ assign: { x: 1 } }))],
    [state("b", enter({ reduce: ctx => ({ ...ctx, name: "b-" + ctx.x }) }))]. *)
Definition name_from_x : Reducer :=
  fun ctx _ =>
    Ret (NewContext
           (spread2 ctx {[ "name" := VStr ("b-" +:+ ToString (prop ctx "x")) ]})).

Definition go_to_b : Transition := External "go" "b" [] [].

Definition order_a : MachineState :=
  node "a" [("go", [go_to_b])] [] []
    [createExit (Some [OptAssign (One (AssignConst {[ "x" := VNum 1 ]}))])].

Definition order_b : MachineState :=
  node "b" [] []
    [createEnter (Some [OptReduce (One name_from_x)])] [].

Definition order_machine : Machine :=
  mkMachine [("a", order_a); ("b", order_b)].

Definition order_result : StateObject :=
  mkStateObject (VStr "b") {[ "x" := VNum 1; "name" := VStr "b-1" ]} true.

(** A chain of immediates: [state("s", transition("go", "a"), exit(...))],
    [state("a", enter(...), immediate("b", ...), exit(...))],
    [state("b", enter(...), immediate("c", { guard }))],
    [state("c", enter({ assign, effect }))]; every hook leaves a mark in
    the context. *)
Definition mark (k : string) : Assign := AssignConst {[ k := VBool true ]}.

Definition has (k : string) : Guard :=
  fun ctx _ => Ret (truthy (prop ctx k)).

Definition late : Prog unit := CallSend (EventName "late") (Return tt).

(** An effect that sends [k] at once and sends ["late"] from its
    cleanup. *)
Definition ping (k : string) : EffectFn :=
  fun _ _ => CallSend (EventName k) (Return (Cleanup late)).

Definition go_to_a : Transition := External "go" "a" [] [].
Definition a_to_b : Transition := Immediate "b" [] [assignToReduce (mark "ab")].
Definition b_to_c : Transition := Immediate "c" [has "enterB"] [].

Definition chain_s : MachineState :=
  node "s" [("go", [go_to_a])] [] []
    [createExit (Some [OptAssign (One (mark "exitS"))])].
Definition chain_a : MachineState :=
  node "a" [] [a_to_b]
    [createEnter (Some [OptAssign (One (mark "enterA")); OptEffect (One (ping "a"))])]
    [createExit (Some [OptAssign (One (mark "exitA"))])].
Definition chain_b : MachineState :=
  node "b" [] [b_to_c]
    [createEnter (Some [OptAssign (One (mark "enterB")); OptEffect (One (ping "b"))])]
    [].
Definition chain_c : MachineState :=
  node "c" [] []
    [createEnter (Some [OptAssign (One (mark "enterC")); OptEffect (One (ping "c"))])]
    [].

Definition chain_machine : Machine :=
  mkMachine [("s", chain_s); ("a", chain_a); ("b", chain_b); ("c", chain_c)].

Definition marks (ks : list string) : Context :=
  list_to_map ((fun k => (k, VBool true)) <$> ks).

Definition chain_in_c : StateObject :=
  at_state "c" (marks ["exitS"; "enterA"; "exitA"; "ab"; "enterB"; "enterC"]).
Definition chain_result : StateObject :=
  mkStateObject (VStr "c") (context chain_in_c) true.

(** [state("a", internal("inc", { assign: { go: true } }),
              internal("stay", { assign: { stayed: true } }),
              immediate("b", { guard: ctx => ctx.go }))], [state("b")]. *)
Definition inc : Transition := Internal "inc" [] [assignToReduce (mark "go")].
Definition stay : Transition := Internal "stay" [] [assignToReduce (mark "stayed")].
Definition a_to_b_if_go : Transition := Immediate "b" [has "go"] [].

Definition internal_a : MachineState :=
  node "a" [("inc", [inc]); ("stay", [stay])] [a_to_b_if_go] [] [].
Definition plain_b : MachineState := node "b" [] [] [] [].

Definition internal_then_immediate_machine : Machine :=
  mkMachine [("a", internal_a); ("b", plain_b)].

(** [state("a", transition("go", "b", { guard: (_, event) => !!event.ok,
                                       action: () => { throw "boom" } }))],
    [state("b")]. *)
Definition event_ok : Guard := fun _ event => Ret (truthy (prop event "ok")).
Definition boom : Action := fun _ _ => Throw (Thrown (VStr "boom")).

Definition go_if_ok : Transition :=
  External "go" "b" [event_ok] [actionToReduce boom].

Definition guarded_a : MachineState := node "a" [("go", [go_if_ok])] [] [] [].

Definition guarded_machine : Machine :=
  mkMachine [("a", guarded_a); ("b", plain_b)].

Definition go_ok : EventObject := {[ "type" := VStr "go"; "ok" := VBool true ]}.

(** [{ reduce: noop, assign: true }], with [noop] a reducer that returns
    the sentinel. *)
Definition noop : Reducer := fun _ _ => Ret ACTION.

Definition reduce_then_assign : Options :=
  [OptReduce (One noop); OptAssign (One AssignTrue)].

(** A service in state [name] of a machine, nothing running. *)
Definition service_at (machine : Machine) (name : string) : World :=
  mkWorld (mkService machine (at_state name ∅) None [] [] [] true) [] [].

(** A world where the effect of state [c] has been run and retained. *)
Definition ping_running : World :=
  mkWorld (mkService chain_machine (at_state "c" ∅) None [0] [0] [] true)
          [ mkEffectObject (mkEffect (ping "c") go) (Some late) false ]
          [].

(** The machines of the tests of the repository. *)

(** [state("foo", enter({ assign: { b: 2 } }))]. *)
Definition foo_machine : Machine :=
  mkMachine
    [ ("foo", node "foo" [] []
                [createEnter (Some [OptAssign (One (AssignConst {[ "b" := VNum 2 ]}))])]
                []) ].

(** [transition("go", "b", { reduce: (ctx, event) => ({ a: ctx.a, c: event.data }) })]. *)
Definition a_and_c : Reducer :=
  fun ctx event =>
    Ret (NewContext {[ "a" := prop ctx "a"; "c" := prop event "data" ]}).

Definition reducer_machine : Machine :=
  mkMachine
    [ ("a", node "a" [("go", [External "go" "b" [] [a_and_c]])] [] [] []);
      ("b", plain_b) ].

(** [transition("go", "b", { assign: [true, { z: "foo" }, prefixer] })]. *)
Definition prefixer (_ : Context) (evt : JsObject) : res JsObject :=
  Ret ((fun v => VStr ("prefix" +:+ ToString v)) <$> evt).

Definition assign_options : Options :=
  [OptAssign (Many [AssignTrue; AssignConst {[ "z" := VStr "foo" ]}; AssignFn prefixer])].

Definition assign_machine : Machine :=
  mkMachine
    [ ("a", node "a"
              [("go", [External "go" "b" [] (lowered_reducers assign_options)])]
              [] [] []);
      ("b", plain_b) ].

(** The "complex machine" of the tests. *)
Definition assign_payload : Reducer :=
  fun ctx ev => Ret (NewContext (spread2 ctx (delete "type" ev))).
Definition set_y : Reducer :=
  fun ctx _ => Ret (NewContext (<[ "y" := VNum 2 ]> ctx)).
Definition never : Guard := fun _ _ => Ret false.
Definition ping_fourth : EffectFn :=
  fun _ _ =>
    CallSend (EventObj {[ "type" := VStr "assign"; "fourthEntered" := VStr "ping" ]})
      (Return (Cleanup (CallSend (EventName "ping") (Return tt)))).

Definition complex_machine : Machine :=
  mkMachine
    [ ("initial",
       node "initial"
         [("goToSecond", [External "goToSecond" "second" [] [assign_payload]])]
         [] [] []);
      ("second", node "second" [] [Immediate "third" [] []] [] []);
      ("third",
       node "third"
         [("goToFourth", [External "goToFourth" "fourth" [] [assign_payload]])]
         [Immediate "final" [never] []] [] []);
      ("fourth",
       node "fourth"
         [("assign", [Internal "assign" [] [assign_payload]]);
          ("goToFinal", [External "goToFinal" "final" [] [assign_payload]])]
         []
         [createEnter (Some [OptEffect (One ping_fourth)])]
         [createExit (Some [OptAssign (One (AssignConst {[ "fourthExited" := VStr "pong" ]}))])]);
      ("final", node "final" [] [] [createEnter (Some [OptReduce (One set_y)])] []) ].

Definition payload (type : string) (x : Z) : EventArg :=
  EventObj {[ "type" := VStr type; "x" := VNum x ]}.

Definition complex_0 : World := (createService 5 complex_machine ∅).1.
Definition complex_1 : World := (send 5 (payload "goToSecond" 1) complex_0).1.
Definition complex_2 : World := (send 5 (payload "goToFourth" 2) complex_1).1.
Definition complex_3 : World := (send 5 (payload "goToFinal" 3) complex_2).1.

(** A store with a context [{ a: 1 }] at 0, an event
    [{ type: "go", x: 2 }] at 1 and a constant [{ z: "foo" }] at 2. *)
Definition example_store : Store.Store :=
  [ {[ "a" := VNum 1 ]};
    {[ "type" := VStr "go"; "x" := VNum 2 ]};
    {[ "z" := VStr "foo" ]} ].

(** A user function that writes into the context it is given and returns
    the payload. *)
Definition write_then_return : Store.UserFn :=
  fun context data h => (<[context := {[ "written" := VBool true ]}]> h, Ret (VRef data)).

(** The chain machine as a service: [send("go")] from [s], then
    [stop()]. *)
Definition chain_started : World :=
  (send 5 (EventName "go") (service_at chain_machine "s")).1.
Definition chain_stopped : World := (stop 5 chain_started).1.

(* ===================================================================== *)
(** * Compiling a description: [createState], [validate], [createMachine] *)
(* ===================================================================== *)

(** ** Writing a property of a dictionary *)

(** The keys of an object come in the order of [Object.keys]: first the
    array indices (canonical numeric strings below [2^32 - 1]) in ascending
    order, then the other names in the order they were first written. *)
Definition digit_of (c : Ascii.ascii) : option N :=
  let n := Ascii.N_of_ascii c in
  if (48 <=? n)%N && (n <=? 57)%N then Some (n - 48)%N else None.

Fixpoint parse_digits (s : string) (acc : N) : option N :=
  match s with
  | EmptyString => Some acc
  | String c s' =>
      match digit_of c with
      | Some d => parse_digits s' (10 * acc + d)%N
      | None => None
      end
  end.

Definition array_index (k : string) : option N :=
  match k with
  | EmptyString => None
  | String c rest =>
      match parse_digits k 0 with
      | Some n =>
          if (negb (Ascii.N_of_ascii c =? 48)%N || String.eqb rest "")
             && (n <? 4294967295)%N
          then Some n else None
      | None => None
      end
  end.

(** [o[k] = a] when [k] is an own key: the value is replaced where it
    is. *)
Fixpoint js_replace {A} (o : list (string * A)) (k : string) (a : A)
  : list (string * A) :=
  match o with
  | [] => []
  | (k', a') :: o' =>
      if String.eqb k' k then (k, a) :: o' else (k', a') :: js_replace o' k a
  end.

(** [o[k] = a] when [k] is a new array index [n]: the key goes before the
    first key that is not a smaller index. *)
Fixpoint js_insert_index {A} (o : list (string * A)) (n : N) (k : string)
    (a : A) : list (string * A) :=
  match o with
  | [] => [(k, a)]
  | (k', a') :: o' =>
      match array_index k' with
      | Some n' =>
          if (n' <? n)%N then (k', a') :: js_insert_index o' n k a
          else (k, a) :: o
      | None => (k, a) :: o
      end
  end.

(** [o[k] = a] on a dictionary, for [k] other than ["__proto__"] (which
    names no own property: its callers below treat it first). *)
Definition js_set {A} (o : list (string * A)) (k : string) (a : A)
  : list (string * A) :=
  match own_prop o k with
  | Some _ => js_replace o k a
  | None =>
      match array_index k with
      | Some n => js_insert_index o n k a
      | None => o ++ [(k, a)]
      end
  end.

(** ** [createState] *)

(** What [state(name, ...opts)] is handed: the product of [transition],
    [internal] or [immediate], of [enter], of [exit], or some other object
    (one whose [type] is none of theirs). *)
Inductive StatePart :=
  | PartTransition (t : Transition)
  | PartEnter (e : Enter)
  | PartExit (e : Exit)
  | PartOther (o : JsObject).

(** The four local variables of [createState]. *)
Record StateParts := mkStateParts {
  parts_enter : list Enter;
  parts_exit : list Exit;
  parts_transitions : list (string * list Transition);
  parts_immediates : list Transition
}.

Definition unknown_part_error (name : string) : Exn :=
  Error ("State '" +:+ name +:+
         "' should be passed one of enter(), exit(), transition(), immediate() or internal()").

(** [if (!transitions[event]) transitions[event] = [];
     transitions[event].push(opt)]. *)
Definition push_transition (transitions : list (string * list Transition))
    (event : string) (opt : Transition)
  : res (list (string * list Transition)) :=
  match js_get transitions event with
  | Own l => Ret (js_set transitions event (l ++ [opt]))
  | Absent => Ret (js_set transitions event [opt])
  | Inherited => Throw (TypeError "transitions[event].push is not a function")
  end.

(** [opt.event], present in the products of [transition] and
    [internal]. *)
Definition eventOf (opt : Transition) : option string :=
  match opt with
  | External event _ _ _ | Internal event _ _ => Some event
  | Immediate _ _ _ => None
  end.

(** One turn of the loop of [createState]. *)
Definition addPart (name : string) (acc : StateParts) (opt : StatePart)
  : res StateParts :=
  match opt with
  | PartTransition t =>
      match eventOf t with
      | Some event =>
          transitions ← push_transition (parts_transitions acc) event t;
          Ret (mkStateParts (parts_enter acc) (parts_exit acc) transitions
                            (parts_immediates acc))
      | None =>
          Ret (mkStateParts (parts_enter acc) (parts_exit acc)
                            (parts_transitions acc) (parts_immediates acc ++ [t]))
      end
  | PartEnter e =>
      Ret (mkStateParts (parts_enter acc ++ [e]) (parts_exit acc)
                        (parts_transitions acc) (parts_immediates acc))
  | PartExit e =>
      Ret (mkStateParts (parts_enter acc) (parts_exit acc ++ [e])
                        (parts_transitions acc) (parts_immediates acc))
  | PartOther _ => Throw (unknown_part_error name)
  end.

Fixpoint addParts (name : string) (acc : StateParts) (opts : list StatePart)
  : res StateParts :=
  match opts with
  | [] => Ret acc
  | opt :: opts' =>
      acc ← addPart name acc opt;
      addParts name acc opts'
  end.

(** [createState(name, ...opts)]. *)
Definition createState (name : string) (opts : list StatePart)
  : res MachineState :=
  acc ← addParts name (mkStateParts [] [] [] []) opts;
  Ret (mkMachineState name (parts_transitions acc) (Some (parts_immediates acc))
                      (parts_enter acc) (parts_exit acc) false).

(** ** [validate] *)

Definition invalid_target_error (target : Value) : Exn :=
  Error ("Invalid transition target '" +:+ ToString target +:+ "'").

(** [!machine.states[target]]. *)
Definition target_missing (machine : Machine) (target : Value) : bool :=
  match js_get (states machine) (ToString target) with
  | Absent => true
  | _ => false
  end.

(** [for (const transition of state.immediates) ...]. *)
Fixpoint validate_immediates (machine : Machine) (immediates : list Transition)
  : res unit :=
  match immediates with
  | [] => Ret tt
  | transition :: immediates' =>
      if target_missing machine (targetOf transition)
      then Throw (invalid_target_error (targetOf transition))
      else validate_immediates machine immediates'
  end.

(** [for (const transition of transitions) ...]. *)
Fixpoint validate_transitions (machine : Machine) (transitions : list Transition)
  : res unit :=
  match transitions with
  | [] => Ret tt
  | transition :: transitions' =>
      if negb (isInternal transition)
         && target_missing machine (targetOf transition)
      then Throw (invalid_target_error (targetOf transition))
      else validate_transitions machine transitions'
  end.

(** [for (const [, transitions] of Object.entries(state.transitions)) ...]. *)
Fixpoint validate_events (machine : Machine)
    (entries : list (string * list Transition)) : res unit :=
  match entries with
  | [] => Ret tt
  | (_, transitions) :: entries' =>
      _ ← validate_transitions machine transitions;
      validate_events machine entries'
  end.

(** [for (const [, state] of Object.entries(machine.states)) ...]. *)
Fixpoint validate_states (machine : Machine)
    (entries : list (string * MachineState)) : res unit :=
  match entries with
  | [] => Ret tt
  | (_, state) :: entries' =>
      _ ← match immediates state with
          | Some immediates => validate_immediates machine immediates
          | None => Ret tt
          end;
      _ ← validate_events machine (transitions state);
      validate_states machine entries'
  end.

(** [validate(machine)]. *)
Definition validate (machine : Machine) : res unit :=
  validate_states machine (states machine).

(** ** [createMachine] *)

(** [machine.states[name] = state] with [name] being ["__proto__"] adds no
    own property to the dictionary [machine.states]: it makes the state node
    its prototype.  From then on a read [machine.states[k]] that finds no
    own property finds the own properties of that node ([name], [enter],
    [exit], [transitions], [immediates]) before what plain objects
    inherit. *)

(** [!!prototype[k]] for a state node [prototype]. *)
Definition node_prop_truthy (prototype : MachineState) (k : string) : bool :=
  if String.eqb k "name" then truthy (VStr (node_name prototype))
  else if String.eqb k "immediates" then
    match immediates prototype with Some _ => true | None => false end
  else if String.eqb k "final" then node_final prototype
  else bool_decide (k ∈ ["enter"; "exit"; "transitions"]).

(** [!machine.states[target]] when the prototype of [machine.states] is the
    state node [prototype]. *)
Definition target_missing_under (prototype : MachineState) (machine : Machine)
    (target : Value) : bool :=
  match js_get (states machine) (ToString target) with
  | Absent => negb (node_prop_truthy prototype (ToString target))
  | _ => false
  end.

(** [validate(machine)] on such a machine: the same loops, over the own
    entries ([Object.entries]). *)
Fixpoint validate_immediates_under (prototype : MachineState) (machine : Machine)
    (immediates : list Transition) : res unit :=
  match immediates with
  | [] => Ret tt
  | transition :: immediates' =>
      if target_missing_under prototype machine (targetOf transition)
      then Throw (invalid_target_error (targetOf transition))
      else validate_immediates_under prototype machine immediates'
  end.

Fixpoint validate_transitions_under (prototype : MachineState) (machine : Machine)
    (transitions : list Transition) : res unit :=
  match transitions with
  | [] => Ret tt
  | transition :: transitions' =>
      if negb (isInternal transition)
         && target_missing_under prototype machine (targetOf transition)
      then Throw (invalid_target_error (targetOf transition))
      else validate_transitions_under prototype machine transitions'
  end.

Fixpoint validate_events_under (prototype : MachineState) (machine : Machine)
    (entries : list (string * list Transition)) : res unit :=
  match entries with
  | [] => Ret tt
  | (_, transitions) :: entries' =>
      _ ← validate_transitions_under prototype machine transitions;
      validate_events_under prototype machine entries'
  end.

Fixpoint validate_states_under (prototype : MachineState) (machine : Machine)
    (entries : list (string * MachineState)) : res unit :=
  match entries with
  | [] => Ret tt
  | (_, state) :: entries' =>
      _ ← match immediates state with
          | Some immediates => validate_immediates_under prototype machine immediates
          | None => Ret tt
          end;
      _ ← validate_events_under prototype machine (transitions state);
      validate_states_under prototype machine entries'
  end.

Definition validate_under (prototype : MachineState) (machine : Machine)
  : res unit :=
  validate_states_under prototype machine (states machine).

(** What [createMachine] comes to: an error; or a machine whose dictionary
    [machine.states] has the prototype of plain objects, which is what
    [Machine] describes and what the engine above reads; or a machine whose
    dictionary has the own entries [machine] and the state node [prototype]
    as its prototype. *)
Inductive Compiled :=
  | Finished (r : res Machine)
  | PrototypeReplaced (machine : Machine) (prototype : MachineState).

(** The calls [state(name, ...opts)] a description makes, in order, their
    arguments being evaluated already. *)
Definition Description := list (string * list StatePart).

(** The calls of [state], one after the other:
    [machine.states[name] = createState(name, ...opts)].  [prototype] is the
    state node that has become the prototype of [machine.states], if
    any. *)
Fixpoint declareStates (machine : Machine) (prototype : option MachineState)
    (calls : Description) : res (Machine * option MachineState) :=
  match calls with
  | [] => Ret (machine, prototype)
  | (name, opts) :: calls' =>
      state ← createState name opts;
      if String.eqb name "__proto__"
      then declareStates machine (Some state) calls'
      else declareStates (mkMachine (js_set (states machine) name state))
                         prototype calls'
  end.

(** [createMachine(create)]: the description runs, if there is one, then
    [validate]. *)
Definition createMachine (create : option Description) : Compiled :=
  match declareStates (mkMachine []) None (default [] create) with
  | Ret (machine, None) => Finished (_ ← validate machine; Ret machine)
  | Ret (machine, Some prototype) =>
      match validate_under prototype machine with
      | Ret _ => PrototypeReplaced machine prototype
      | Throw e => Finished (Throw e)
      | Diverge => Finished Diverge
      end
  | Throw e => Finished (Throw e)
  | Diverge => Finished Diverge
  end.

(* ===================================================================== *)
(** * The reducer of the hook ([useMachine]) *)
(* ===================================================================== *)

(** The state [React.useReducer] holds: [{ machine, effects, state }]. *)
Record ReducerState := mkReducerState {
  hook_machine : Machine;
  hook_effects : option (list Effect);
  hook_state : StateObject
}.

(** [{ type, event, machine }]. *)
Record ReducerAction := mkReducerAction {
  action_type : string;
  action_event : EventArg;
  action_machine : Machine
}.

(** [initial({ context, machine })]: the state object it starts from is
    [{ context }], whose [name] is [undefined]. *)
Definition initial (fuel : nat) (context : Context) (machine : Machine)
  : res ReducerState :=
  let initialState := mkStateObject VUndefined context false in
  let initialEvent := EventObj {[ "type" := VNull ]} in
  '(state, effects) ← transition fuel machine initialState initialEvent;
  Ret (mkReducerState machine (Some (default [] effects)) state).

(** [reducer(curr, action)]; in [effects || curr.effects] an array, even
    an empty one, is truthy. *)
Definition reducer (fuel : nat) (curr : ReducerState) (action : ReducerAction)
  : res ReducerState :=
  if String.eqb (action_type action) "send" then
    '(state, effects) ← transition fuel (action_machine action)
                                   (hook_state curr) (action_event action);
    Ret (mkReducerState (hook_machine curr)
                        (match effects with
                         | Some effects => Some effects
                         | None => hook_effects curr
                         end)
                        state)
  else Ret curr.

(* ===================================================================== *)
(** * Vocabulary for the statements about compiling, running and the hook *)
(* ===================================================================== *)

(** ** Compiling *)

(** The parts of each kind among the arguments of [state], in the order
    they were passed. *)
Definition part_enters (opts : list StatePart) : list Enter :=
  omap (fun p => match p with PartEnter e => Some e | _ => None end) opts.

Definition part_exits (opts : list StatePart) : list Exit :=
  omap (fun p => match p with PartExit e => Some e | _ => None end) opts.

Definition part_immediates (opts : list StatePart) : list Transition :=
  omap (fun p => match p with
                 | PartTransition t =>
                     match eventOf t with None => Some t | Some _ => None end
                 | _ => None
                 end) opts.

Definition part_transitions_on (event : string) (opts : list StatePart)
  : list Transition :=
  omap (fun p => match p with
                 | PartTransition t =>
                     if decide (eventOf t = Some event) then Some t else None
                 | _ => None
                 end) opts.

(** A part [createState] goes through: a product of the builders, whose
    event (if it has one) is not the name of a property that plain objects
    inherit. *)
Definition part_ok (p : StatePart) : bool :=
  match p with
  | PartOther _ => false
  | PartTransition t =>
      match eventOf t with
      | Some event => negb (inherited_key event)
      | None => true
      end
  | PartEnter _ | PartExit _ => true
  end.

(** The error [createState] throws on a part it does not go through. *)
Definition part_error (name : string) (p : StatePart) : Exn :=
  match p with
  | PartOther _ => unknown_part_error name
  | _ => TypeError "transitions[event].push is not a function"
  end.

(** What a key of the dictionary [transitions] holds once more transitions
    were pushed under it. *)
Definition pushed (held : option (list Transition)) (more : list Transition)
  : option (list Transition) :=
  match held with
  | Some l => Some (l ++ more)
  | None => match more with [] => None | _ => Some more end
  end.

(** The targets [validate] looks up for one state node, in the order it
    does: those of the immediates, then, event by event, those of the
    transitions that are not internal. *)
Definition checked_targets (state : MachineState) : list Value :=
  (targetOf <$> default [] (immediates state))
  ++ (targetOf <$>
        filter (fun t => isInternal t = false) (concat (snd <$> transitions state))).

Definition all_checked_targets (machine : Machine) : list Value :=
  concat (checked_targets <$> (snd <$> states machine)).

(** The targets of a list are looked up one after the other; the first one
    that is missing stops the run. *)
Fixpoint check_targets (machine : Machine) (targets : list Value) : res unit :=
  match targets with
  | [] => Ret tt
  | target :: targets' =>
      if target_missing machine target
      then Throw (invalid_target_error target)
      else check_targets machine targets'
  end.



(** The machine [createMachine] returned, when it returned one: the own
    entries of [machine.states], and the state node that is its prototype
    when a state was declared under the name ["__proto__"]. *)
Definition compiled (c : Compiled) : option (Machine * option MachineState) :=
  match c with
  | Finished (Ret machine) => Some (machine, None)
  | PrototypeReplaced machine prototype => Some (machine, Some prototype)
  | Finished _ => None
  end.

(** ** The engine *)

(** Hooks that return whatever they are called with (they neither throw
    nor run forever). *)
Definition quiet_guard (g : Guard) : Prop :=
  ∀ context event, ∃ b, g context event = Ret b.

Definition quiet_reducer (r : Reducer) : Prop :=
  ∀ context event, ∃ result, r context event = Ret result.

Definition quiet_transition (T : Transition) : Prop :=
  Forall quiet_guard (guardsOf T) ∧ Forall quiet_reducer (reducersOf T).

(** All the transitions a state node holds: its immediates and, event by
    event, the others. *)
Definition node_transitions (state : MachineState) : list Transition :=
  default [] (immediates state) ++ concat (snd <$> transitions state).

Definition quiet_node (state : MachineState) : Prop :=
  Forall quiet_transition (node_transitions state)
  ∧ Forall (fun e => Forall quiet_reducer (enter_reducers e)) (enter state)
  ∧ Forall (fun x => Forall quiet_reducer (exit_reducers x)) (exit state).

Definition quiet (machine : Machine) : Prop :=
  Forall (fun entry => quiet_node entry.2) (states machine).

(** No target that [validate] looks up is a name that plain objects
    inherit. *)
Definition plain_targets (machine : Machine) : Prop :=
  Forall (fun target => inherited_key (ToString target) = false)
         (all_checked_targets machine).

(** The immediates of every state node are products of [immediate], as
    [createState] files them: none is an internal transition. *)
Definition external_immediates (machine : Machine) : Prop :=
  Forall (fun entry =>
            Forall (fun T => isInternal T = false)
                   (default [] (immediates entry.2)))
         (states machine).

Global Instance HookType_eq_dec : EqDecision HookType.
Proof. solve_decision. Defined.

(** ** The effect runtime *)

(** What running cleanups does to the effect objects: none is added or
    removed, each keeps its effect and its stored cleanup, and a [disposed]
    flag that is set stays set. *)
Definition same_effects (w w' : World) : Prop :=
  ∀ effect o,
    heap w !! effect = Some o →
    ∃ o', heap w' !! effect = Some o'
          ∧ effect_of o' = effect_of o
          ∧ dispose o' = dispose o
          ∧ (disposed o = true → disposed o' = true).

(** The effect object [effect] holds a cleanup. *)
Definition has_dispose (effect : loc) (w : World) : Prop :=
  ∃ o, heap w !! effect = Some o ∧ is_Some (dispose o).

(** What the effect object [effect] does when [runEffects] calls it. *)
Definition effect_call (st : StateObject) (w : World) (effect : loc)
  : option (Prog EffectReturn) :=
  o ← heap w !! effect;
  Some (run (effect_of o) (context st) (event (effect_of o))).

(** The effect returns without having called [send]. *)
Definition returns_quietly (st : StateObject) (w : World) (effect : loc)
  : Prop :=
  ∃ p r, effect_call st w effect = Some p ∧ sends p = 0%nat ∧ outcome p = Ret r.

Definition returns_cleanup (st : StateObject) (w : World) (effect : loc)
  : bool :=
  match outcome <$> effect_call st w effect with
  | Some (Ret (Cleanup _)) => true
  | _ => false
  end.

Definition returns_promise (st : StateObject) (w : World) (effect : loc)
  : bool :=
  match outcome <$> effect_call st w effect with
  | Some (Ret PromiseLike) => true
  | _ => false
  end.

(** ** The hook *)

(** The effects the hook holds are those of the enter hooks of the state it
    is in, for some event. *)
Definition in_step (curr : ReducerState) : Prop :=
  ∃ node ev,
    js_get (states (hook_machine curr)) (ToString (name (hook_state curr)))
    = Own node
    ∧ hook_effects curr = Some (collectEffects ev (enter node)).

(* ===================================================================== *)
(** * Further machines and services used as examples *)
(* ===================================================================== *)

(** Machines for the examples of compiling. *)
Definition to_missing : Transition := External "go" "missing" [] [].
Definition to_toString : Transition := External "go" "toString" [] [].

Definition missing_target_machine : Machine :=
  mkMachine [("a", node "a" [("go", [to_missing])] [] [] []); ("b", plain_b)].

Definition inherited_target_machine : Machine :=
  mkMachine [("a", node "a" [("go", [to_toString])] [] [] [])].

Definition fourth_parts : list StatePart :=
  [ PartEnter (createEnter (Some [OptEffect (One ping_fourth)]));
    PartTransition (Internal "assign" [] [assign_payload]);
    PartTransition (External "goToFinal" "final" [] [assign_payload]);
    PartExit (createExit (Some [OptAssign (One (AssignConst {[ "fourthExited" := VStr "pong" ]}))])) ].

Definition fourth_node : MachineState :=
  node "fourth"
    [("assign", [Internal "assign" [] [assign_payload]]);
     ("goToFinal", [External "goToFinal" "final" [] [assign_payload]])]
    []
    [createEnter (Some [OptEffect (One ping_fourth)])]
    [createExit (Some [OptAssign (One (AssignConst {[ "fourthExited" := VStr "pong" ]}))])].

(** [state("a", transition("constructor", "b"))] and [state("a", {})]. *)
Definition inherited_event_parts : list StatePart :=
  [ PartEnter (createEnter (Some []));
    PartTransition (External "constructor" "b" [] []);
    PartOther ∅ ].

Definition other_parts : list StatePart :=
  [ PartExit (createExit (Some [])); PartOther ∅;
    PartTransition (External "constructor" "b" [] []) ].

(** A description of the "complex machine" of the tests, state by state,
    and one that declares a state twice. *)
Definition complex_description : Description :=
  [ ("initial",
     [PartTransition (External "goToSecond" "second" [] [assign_payload])]);
    ("second", [PartTransition (Immediate "third" [] [])]);
    ("third",
     [PartTransition (Immediate "final" [never] []);
      PartTransition (External "goToFourth" "fourth" [] [assign_payload])]);
    ("fourth", fourth_parts);
    ("final", [PartEnter (createEnter (Some [OptReduce (One set_y)]))]) ].

Definition twice_description : Description :=
  [ ("a", [PartTransition (External "go" "b" [] [])]);
    ("b", []);
    ("a", [PartTransition (External "back" "b" [] [])]) ].

Definition twice_machine : Machine :=
  mkMachine [ ("a", node "a" [("back", [External "back" "b" [] []])] [] [] []);
              ("b", plain_b) ].



(** [state("a", internal("inc", { assign: { go: true } }),
              immediate("a", { guard: ctx => ctx.go, assign: { go: false } }),
              enter({ effect: keep }))]: an immediate to the state itself. *)
Definition inc_on : Transition :=
  Internal "inc" [] [assignToReduce (AssignConst {[ "go" := VBool true ]})].

Definition a_to_a_if_go : Transition :=
  Immediate "a" [has "go"]
            [assignToReduce (AssignConst {[ "go" := VBool false ]})].

Definition again_a : MachineState :=
  node "a" [("inc", [inc_on])] [a_to_a_if_go]
       [createEnter (Some [OptEffect (One (fun _ _ => Return (Cleanup (Return tt))))])]
       [].

Definition again_machine : Machine := mkMachine [("a", again_a)].

(** [state("a", transition("go", "b"))], [state("__proto__")],
    [state("b")]. *)
Definition proto_description : Description :=
  [ ("a", [PartTransition (External "go" "b" [] [])]);
    ("__proto__", []);
    ("b", []) ].

Definition proto_machine : Machine :=
  mkMachine [ ("a", node "a" [("go", [External "go" "b" [] []])] [] [] []);
              ("b", plain_b) ].

Definition proto_node : MachineState := node "__proto__" [] [] [] [].



(** [state("idle", transition("go", "spin"))],
    [state("spin", immediate("spin"))]. *)
Definition spin : Transition := Immediate "spin" [] [].

Definition spin_node : MachineState := node "spin" [] [spin] [] [].

Definition spin_machine : Machine :=
  mkMachine
    [ ("idle", node "idle" [("go", [External "go" "spin" [] []])] [] [] []);
      ("spin", spin_node) ].

(** Two actions that return and a guard list that fails in the middle. *)
Definition log_action : Action := fun _ _ => Ret tt.

Definition always : Guard := fun _ _ => Ret true.

Definition guarded_by (gs : list Guard) : Transition := External "go" "b" gs [].

(** Three effects: one returns nothing, one returns a promise, one returns
    a cleanup. *)
Definition three_effects : World :=
  mkWorld (mkService chain_machine (at_state "c" ∅) None [0; 1; 2]%nat [] [] true)
          [ mkEffectObject (mkEffect (fun _ _ => Return NoCleanup) go) None false;
            mkEffectObject (mkEffect (fun _ _ => Return PromiseLike) go) None false;
            mkEffectObject (mkEffect (fun _ _ => Return (Cleanup late)) go) None false ]
          [].

(** An effect of state ["a"] that sends ["next"] while it runs, which
    takes the service to state ["b"], whose effect returns a cleanup. *)
Definition hop : EffectFn :=
  fun _ _ => CallSend (EventName "next") (Return NoCleanup).

Definition keep : EffectFn := fun _ _ => Return (Cleanup (Return tt)).

Definition hop_machine : Machine :=
  mkMachine
    [ ("a", node "a" [("next", [External "next" "b" [] []])] []
              [createEnter (Some [OptEffect (One hop)])] []);
      ("b", node "b" [("back", [External "back" "a" [] []])] []
              [createEnter (Some [OptEffect (One keep)])] []) ].

(** The service in state ["a"], the effect of ["a"] pending. *)
Definition hop_pending : World :=
  mkWorld (mkService hop_machine (at_state "a" ∅) None [0%nat] [] [] true)
          [ mkEffectObject (mkEffect hop go) None false ]
          [].

Definition hop_done : World :=
  mkWorld (mkService hop_machine (at_state "b" ∅) (Some (at_state "a" ∅))
                     [1%nat] [] [] true)
          [ mkEffectObject (mkEffect hop go) None false;
            mkEffectObject (mkEffect keep {[ "type" := VStr "next" ]})
                           (Some (Return tt)) false ]
          [].

(** The service in state ["b"], the effect of ["b"] running. *)
Definition hop_running : World :=
  mkWorld (mkService hop_machine (at_state "b" ∅) None [0%nat] [0%nat] [] true)
          [ mkEffectObject (mkEffect keep go) (Some (Return tt)) false ]
          [].

Definition hop_back_done : World :=
  mkWorld (mkService hop_machine (at_state "b" ∅) (Some (at_state "a" ∅))
                     [2%nat] [] [] true)
          [ mkEffectObject (mkEffect keep go) (Some (Return tt)) true;
            mkEffectObject (mkEffect hop {[ "type" := VStr "back" ]}) None false;
            mkEffectObject (mkEffect keep {[ "type" := VStr "next" ]})
                           (Some (Return tt)) false ]
          [].

(** The hook on the machine with states ["a"] and ["b"]: after [initial],
    and after the action [{ type: "send", event: "next" }]. *)
Definition hook_in_a : ReducerState :=
  mkReducerState hop_machine (Some [mkEffect hop {[ "type" := VNull ]}])
                 (at_state "a" ∅).

Definition hook_in_b : ReducerState :=
  mkReducerState hop_machine (Some [mkEffect keep {[ "type" := VStr "next" ]}])
                 (at_state "b" ∅).

(* ===================================================================== *)
(** * Properties of the builders and of hook lowering *)
(* ===================================================================== *)

Section Lowering.

Implicit Types (opts : Options) (merged : Merged) (hook : HookType).

Lemma merge_transitionHooks opts :
  merge (Some opts) transitionHooks
  = mkMerged (Some (toArray (guard opts))) (Some (lowered_reducers opts))
             None None.
Proof.
  unfold merge, transitionHooks, lowered_reducers. simpl.
  by rewrite <- app_assoc.
Qed.

Lemma merge_enterHooks opts :
  merge (Some opts) enterHooks
  = mkMerged None (Some (lowered_reducers opts))
             (Some (toArray (effect opts))) (Some (toArray (invoke opts))).
Proof.
  unfold merge, enterHooks, lowered_reducers. simpl.
  by rewrite <- app_assoc.
Qed.

Lemma merge_exitHooks opts :
  merge (Some opts) exitHooks
  = mkMerged None (Some (lowered_reducers opts)) None None.
Proof.
  unfold merge, exitHooks, lowered_reducers. simpl.
  by rewrite <- app_assoc.
Qed.

(** The property reads do not depend on the order in which the
    properties were written. *)
Ltac read_perm :=
  let H := fresh in
  intros Hnd H; induction H as [| x l l' Hp IH | x y l | l l' l'' Hp1 IH1 Hp2 IH2];
  [ done
  | apply NoDup_cons in Hnd as [_ Hnd]; destruct x; simpl; auto
  | apply NoDup_cons in Hnd as [Hx _];
    destruct x, y; simpl in *; try done;
    exfalso; apply Hx; left
  | rewrite IH1 by done; apply IH2; by rewrite <- Hp1 ].

Lemma guard_perm opts opts' :
  NoDup (hook_of <$> opts) → opts ≡ₚ opts' → guard opts = guard opts'.
Proof. read_perm. Qed.
Lemma reduce_perm opts opts' :
  NoDup (hook_of <$> opts) → opts ≡ₚ opts' → reduce opts = reduce opts'.
Proof. read_perm. Qed.
Lemma assign_perm opts opts' :
  NoDup (hook_of <$> opts) → opts ≡ₚ opts' → assign opts = assign opts'.
Proof. read_perm. Qed.
Lemma action_perm opts opts' :
  NoDup (hook_of <$> opts) → opts ≡ₚ opts' → action opts = action opts'.
Proof. read_perm. Qed.
Lemma invoke_perm opts opts' :
  NoDup (hook_of <$> opts) → opts ≡ₚ opts' → invoke opts = invoke opts'.
Proof. read_perm. Qed.
Lemma effect_perm opts opts' :
  NoDup (hook_of <$> opts) → opts ≡ₚ opts' → effect opts = effect opts'.
Proof. read_perm. Qed.

Lemma merge_perm opts opts' hooks :
  NoDup (hook_of <$> opts) → opts ≡ₚ opts' →
  merge (Some opts) hooks = merge (Some opts') hooks.
Proof.
  intros Hnd Hp. unfold merge. simpl.
  generalize noMerged. induction hooks as [| hook hooks IH]; intros merged.
  - done.
  - simpl. rewrite <- IH. f_equal.
    destruct hook; simpl;
      rewrite ?(guard_perm _ _ Hnd Hp), ?(reduce_perm _ _ Hnd Hp),
              ?(assign_perm _ _ Hnd Hp), ?(action_perm _ _ Hnd Hp),
              ?(invoke_perm _ _ Hnd Hp), ?(effect_perm _ _ Hnd Hp); done.
Qed.

End Lowering.

(** C4 (as the code has it): for every option object, each of [transition] /
    [internal] / [immediate], [enter] and [exit] normalizes the reducing
    hooks into one [reducers] list made of the lowered [assign] entries,
    then the [reduce] entries, then the lowered [action] entries, each
    group in declaration order; this fixed kind order does not depend on
    the order in which the hooks were written in the option object. *)
Theorem merge_lowers_in_fixed_kind_order (opts : Options) :
  reducers (merge (Some opts) transitionHooks) = Some (lowered_reducers opts)
  ∧ reducers (merge (Some opts) enterHooks) = Some (lowered_reducers opts)
  ∧ reducers (merge (Some opts) exitHooks) = Some (lowered_reducers opts)
  ∧ ∀ opts' hooks,
      NoDup (hook_of <$> opts) → opts ≡ₚ opts' →
      merge (Some opts') hooks = merge (Some opts) hooks.
Proof.
  rewrite merge_transitionHooks, merge_enterHooks, merge_exitHooks.
  repeat split; intros. symmetry. by apply merge_perm.
Qed.

Lemma merge_lowers_in_fixed_kind_order_witness :
  NoDup (hook_of <$> reduce_then_assign)
  ∧ reduce_then_assign ≡ₚ reverse reduce_then_assign
  ∧ merge (Some (reverse reduce_then_assign)) transitionHooks
    = merge (Some reduce_then_assign) transitionHooks.
Proof.
  assert (Hnd : NoDup (hook_of <$> reduce_then_assign)).
  { simpl. repeat constructor; intros H; inversion H as [| ? ? ? H']; inversion H'. }
  assert (Hp : reduce_then_assign ≡ₚ reverse reduce_then_assign).
  { apply Permutation_swap. }
  split; [exact Hnd |]. split; [exact Hp |].
  exact (proj2 (proj2 (proj2 (merge_lowers_in_fixed_kind_order reduce_then_assign)))
           (reverse reduce_then_assign) transitionHooks Hnd Hp).
Defined.

(** C4 as stated fails: with [{ reduce: noop, assign: true }] the [reducers]
    list does not start with the [reduce] entry; the lowered [assign] entry
    comes first. *)
Lemma assign_is_lowered_before_reduce :
  reducers (merge (Some reduce_then_assign) transitionHooks)
  = Some [assignToReduce AssignTrue; noop]
  ∧ ¬ ∃ rest, reducers (merge (Some reduce_then_assign) transitionHooks)
              = Some (toArray (reduce reduce_then_assign) ++ rest).
Proof.
  split; [reflexivity |].
  intros [rest H]. simpl in H.
  assert (Hhead : assignToReduce AssignTrue = noop) by congruence.
  apply (f_equal (fun r : Reducer => r ∅ ∅)) in Hhead. discriminate Hhead.
Qed.

(** C9 (as the code has it): [transition(event, target, opts)] and
    [internal(event, opts)] fail, before anything else is done, with the
    error saying that the first argument must be the name of the event,
    whenever [event] is not a string; when it is a string, whichever it is,
    [internal] returns a transition and so does [transition] when [target]
    is a string too. *)
Theorem event_name_must_be_a_string (event target : Value)
    (opts : option Options) :
  (is_string event = false →
   createTransition event target opts
   = Throw (Error "First argument of the transition must be the name of the event")
   ∧ createInternal event opts
     = Throw (Error "First argument of the internal transition must be the name of the event"))
  ∧ (is_string event = true →
     (∃ t, createInternal event opts = Ret t)
     ∧ (is_string target = true → ∃ t, createTransition event target opts = Ret t)).
Proof.
  split.
  - by destruct event.
  - destruct event; try done. intros _. split; [by eexists |].
    destruct target; try done. intros _. by eexists.
Qed.

Lemma event_name_must_be_a_string_witness :
  is_string (VNum 1) = false
  ∧ createTransition (VNum 1) VUndefined None
    = Throw (Error "First argument of the transition must be the name of the event")
  ∧ createInternal (VNum 1) None
    = Throw (Error "First argument of the internal transition must be the name of the event").
Proof.
  split; [reflexivity |].
  exact (proj1 (event_name_must_be_a_string (VNum 1) VUndefined None) eq_refl).
Defined.

(** C9 as stated fails: the empty string is accepted as an event name. *)
Lemma empty_event_name_is_accepted :
  createTransition (VStr "") (VStr "b") None = Ret (External "" "b" [] [])
  ∧ createInternal (VStr "") None = Ret (Internal "" [] []).
Proof. split; reflexivity. Qed.

(* ===================================================================== *)
(** * Properties of the transition engine *)
(* ===================================================================== *)

Section Engine.

Implicit Types (machine : Machine) (curr next : StateObject)
  (ev : EventObject) (T : Transition) (rs : list Reducer).

Lemma res_bind_ret {A} (m : res A) : (m ≫= Ret) = m.
Proof. by destruct m. Qed.

(** ** Reducers *)

Lemma applyReducers_app next ev rs1 rs2 :
  applyReducers next ev (rs1 ++ rs2)
  = (n ← applyReducers next ev rs1; applyReducers n ev rs2).
Proof.
  revert next. induction rs1 as [| r rs1 IH]; intros next; [done |].
  simpl. destruct (r (context next) ev) as [[c |] | |]; simpl; auto.
Qed.

Lemma applyReducers_set_name next v ev rs :
  applyReducers (set_name next v) ev rs
  = (n ← applyReducers next ev rs; Ret (set_name n v)).
Proof.
  revert next. induction rs as [| r rs IH]; intros next; [done |].
  simpl. destruct (r (context next) ev) as [[c |] | |]; simpl; auto.
  apply (IH (set_context next c)).
Qed.

Lemma applyReducers_name_final next ev rs n :
  applyReducers next ev rs = Ret n →
  name n = name next ∧ final n = final next.
Proof.
  revert next. induction rs as [| r rs IH]; intros next; simpl.
  - by intros [= <-].
  - destruct (r (context next) ev) as [[c |] | |]; simpl; try done.
    + intros H. by apply IH in H.
    + apply IH.
Qed.

(** A reducer that returns the sentinel leaves the context as it is; any
    other result replaces it. *)
Lemma applyReducers_sentinel next ev r rs :
  r (context next) ev = Ret ACTION →
  applyReducers next ev (r :: rs) = applyReducers next ev rs.
Proof. intros H. simpl. by rewrite H. Qed.

Lemma applyReducers_new_context next ev r rs c :
  r (context next) ev = Ret (NewContext c) →
  applyReducers next ev (r :: rs) = applyReducers (set_context next c) ev rs.
Proof. intros H. simpl. by rewrite H. Qed.

Lemma applyReducers_throw next ev rs1 r rs2 n e :
  applyReducers next ev rs1 = Ret n →
  r (context n) ev = Throw e →
  applyReducers next ev (rs1 ++ r :: rs2) = Throw e.
Proof.
  intros H1 H2. rewrite applyReducers_app, H1. simpl. by rewrite H2.
Qed.

Lemma applyExits_concat next ev exits :
  applyExits next ev exits
  = applyReducers next ev (concat (exit_reducers <$> exits)).
Proof.
  revert next. induction exits as [| x exits IH]; intros next; [done |].
  simpl. rewrite applyReducers_app.
  destruct (applyReducers next ev (exit_reducers x)); simpl; auto.
Qed.

Lemma applyEnters_concat next ev enters :
  applyEnters next ev enters
  = applyReducers next ev (concat (enter_reducers <$> enters)).
Proof.
  revert next. induction enters as [| x enters IH]; intros next; [done |].
  simpl. rewrite applyReducers_app.
  destruct (applyReducers next ev (enter_reducers x)); simpl; auto.
Qed.

(** Exit reducers, then the reducers of the transition, then enter
    reducers: one left-to-right pass over [stepReducers]. *)
Lemma stepReducers_fuse {A} curr v ev exits T enters (K : StateObject → res A) :
  (x ← applyExits curr ev exits;
   y ← applyReducers (set_name x v) ev (reducersOf T);
   z ← applyEnters y ev enters;
   K z)
  = (z ← applyReducers (set_name curr v) ev (stepReducers exits T enters); K z).
Proof.
  unfold stepReducers.
  rewrite applyExits_concat, !applyReducers_app, applyReducers_set_name.
  destruct (applyReducers curr ev _) as [x | |]; simpl; try done.
  rewrite applyReducers_app.
  destruct (applyReducers (set_name x v) ev _) as [y | |]; simpl; try done.
  by rewrite applyEnters_concat.
Qed.

(** ** Guards *)

Lemma checkGuards_every ctx ev T :
  checkGuards ctx ev T = every (guardsOf T) ctx ev.
Proof. unfold checkGuards. by destruct (guardsOf T). Qed.

Lemma every_throw gs1 g gs2 ctx ev e :
  Forall (fun g' : Guard => g' ctx ev = Ret true) gs1 →
  g ctx ev = Throw e →
  every (gs1 ++ g :: gs2) ctx ev = Throw e.
Proof.
  induction 1 as [| g' gs1 Hg' _ IH]; intros Hg; simpl.
  - by rewrite Hg.
  - rewrite Hg'. simpl. auto.
Qed.


(** The candidate a loop returns on is the first one, in declaration
    order, whose guards all pass. *)
Lemma selectCandidate_first ctx ev candidates c :
  selectCandidate ctx ev candidates = Ret (Some c) →
  ∃ before after,
    candidates = before ++ c :: after
    ∧ Forall (fun c' => checkGuards ctx ev c' = Ret false) before
    ∧ checkGuards ctx ev c = Ret true.
Proof.
  induction candidates as [| c' cs IH]; simpl; [done |].
  destruct (checkGuards ctx ev c') as [[|] | |] eqn:Hc'; simpl; try done.
  - intros [= <-]. by exists [], cs.
  - intros H. destruct (IH H) as (before & after & -> & Hb & Hc).
    exists (c' :: before), after. split_and!; [done | by constructor | done].
Qed.

Lemma immediateCandidate_first nextState ctx ev c :
  immediateCandidate nextState ctx ev = Ret (Some c) →
  ∃ before after,
    immediates nextState = Some (before ++ c :: after)
    ∧ Forall (fun c' => checkGuards ctx ev c' = Ret false) before
    ∧ checkGuards ctx ev c = Ret true.
Proof.
  unfold immediateCandidate.
  destruct (immediates nextState) as [candidates |]; [| done].
  intros H. apply selectCandidate_first in H as (before & after & -> & Hb & Hc).
  by exists before, after.
Qed.

(** ** One step of [applyTransition] *)

Lemma set_name_id curr : set_name curr (name curr) = curr.
Proof. by destruct curr. Qed.

Lemma targetOf_external T :
  isInternal T = false → ∃ b, targetOf T = VStr b.
Proof. destruct T; simpl; try done; eauto. Qed.

Lemma applyTransition_external fuel machine curr ev T b nextState exits :
  isInternal T = false →
  targetOf T = VStr b →
  exitsToRun (js_get (states machine) (ToString (name curr))) = Some exits →
  js_get (states machine) b = Own nextState →
  applyTransition (S fuel) machine curr ev T
  = (next ← applyReducers (set_name curr (VStr b)) ev
               (stepReducers exits T (enter nextState));
     candidate ← immediateCandidate nextState (context next) ev;
     match candidate with
     | Some candidate => applyTransition fuel machine next ev candidate
     | None => Ret (settle nextState next,
                    Some (collectEffects ev (enter nextState)))
     end).
Proof.
  intros HT Hb Hexits Hnext.
  rewrite <- stepReducers_fuse.
  cbn [applyTransition]. rewrite HT, Hb. cbn [ToString]. rewrite Hnext.
  destruct (js_get (states machine) (ToString (name curr))) as [currState | |];
    simplify_eq/=; done.
Qed.

Lemma applyTransition_internal fuel machine curr ev T nextState :
  isInternal T = true →
  js_get (states machine) (ToString (name curr)) = Own nextState →
  applyTransition (S fuel) machine curr ev T
  = (next ← applyReducers curr ev (reducersOf T);
     candidate ← immediateCandidate nextState (context next) ev;
     match candidate with
     | Some candidate => applyTransition fuel machine next ev candidate
     | None => Ret (settle nextState next, None)
     end).
Proof.
  intros HT Hnext. cbn [applyTransition]. rewrite HT. cbv beta iota zeta.
  rewrite Hnext. cbn [mbind res_bind]. by rewrite set_name_id.
Qed.

(** The fuel only bounds the recursion: a result obtained with some fuel
    is obtained with any larger fuel. *)
Lemma applyTransition_fuel_mono (fuel fuel' : nat) machine curr ev T r :
  (fuel ≤ fuel')%nat →
  applyTransition fuel machine curr ev T = r →
  r ≠ Diverge →
  applyTransition fuel' machine curr ev T = r.
Proof.
  revert fuel' curr T r.
  induction fuel as [| fuel IH]; intros fuel' curr T r Hle H Hr;
    [simpl in H; congruence |].
  destruct fuel' as [| fuel']; [lia |].
  cbn [applyTransition] in *.
  destruct (if isInternal T then Ret curr else _) as [n1 | |];
    cbn [mbind res_bind] in *; try done.
  destruct (applyReducers _ ev (reducersOf T)) as [n2 | |];
    cbn [mbind res_bind] in *; try done.
  destruct (js_get (states machine) _) as [nextState | |]; try done.
  destruct (if isInternal T then Ret n2 else _) as [n3 | |];
    cbn [mbind res_bind] in *; try done.
  destruct (match immediates nextState with Some _ => _ | None => _ end)
    as [[candidate |] | |]; cbn [mbind res_bind] in *; try done.
  apply IH; [lia | done | done].
Qed.

Lemma dispatch_fuel_mono (fuel fuel' : nat) machine st ev r :
  (fuel ≤ fuel')%nat →
  dispatch fuel machine st ev = r →
  r ≠ Diverge →
  dispatch fuel' machine st ev = r.
Proof.
  intros Hle H Hr. unfold dispatch in *.
  destruct (js_get _ (ToString (prop ev "type"))) as [candidates | |];
    try done.
  destruct (selectCandidate (context st) ev candidates) as [[candidate |] | |];
    cbn [mbind res_bind] in *; try done.
  by eapply applyTransition_fuel_mono.
Qed.

Lemma transition_fuel_mono (fuel fuel' : nat) machine st E r :
  (fuel ≤ fuel')%nat →
  transition fuel machine st E = r →
  r ≠ Diverge →
  transition fuel' machine st E = r.
Proof.
  intros Hle H Hr. unfold transition in *.
  destruct (negb (truthy (name st)) && _);
    [| by eapply dispatch_fuel_mono].
  destruct (states machine) as [| [initialStateName ?] ?];
    [by eapply dispatch_fuel_mono |].
  cbn [createImmediate assertString mbind res_bind] in *.
  by eapply applyTransition_fuel_mono.
Qed.

End Engine.

(** The example transitions are what the builders return. *)
Example builders_of_the_examples :
  createTransition (VStr "go") (VStr "b") None = Ret go_to_b
  ∧ createImmediate (VStr "b") (Some [OptAssign (One (mark "ab"))]) = Ret a_to_b
  ∧ createImmediate (VStr "c") (Some [OptGuard (One (has "enterB"))]) = Ret b_to_c
  ∧ createInternal (VStr "inc") (Some [OptAssign (One (mark "go"))]) = Ret inc
  ∧ createTransition (VStr "go") (VStr "b")
      (Some [OptGuard (One event_ok); OptAction (One boom)]) = Ret go_if_ok.
Proof. split_and!; reflexivity. Qed.

(** C5: an external transition [T] from state [a] to state [b] runs, on
    the context and from left to right, the Exit reducers of [a], then
    (the working name now being [b]) the reducers of [T], then the Enter
    reducers of [b]; a reducer that returns the sentinel leaves the context
    as it is.  In particular, with [state("a", exit({assign: {x: 1}}))] and
    [state("b", enter({reduce: ctx => ({...ctx, name: "b-" + ctx.x})}))],
    firing a transition from [a] to [b] gives [context.x === 1] and
    [context.name === "b-1"]. *)
Theorem external_transition_reducer_order :
  (∀ fuel machine curr ev T a b currState nextState next,
     isInternal T = false →
     name curr = VStr a →
     targetOf T = VStr b →
     js_get (states machine) a = Own currState →
     js_get (states machine) b = Own nextState →
     applyReducers (set_name curr (VStr b)) ev
       (concat (exit_reducers <$> exit currState)
        ++ reducersOf T
        ++ concat (enter_reducers <$> enter nextState)) = Ret next →
     immediateCandidate nextState (context next) ev = Ret None →
     ∃ result,
       applyTransition (S fuel) machine curr ev T
       = Ret (result, Some (collectEffects ev (enter nextState)))
       ∧ name result = VStr b
       ∧ context result = context next)
  ∧ (∀ next ev (r : Reducer) rs,
       r (context next) ev = Ret ACTION →
       applyReducers next ev (r :: rs) = applyReducers next ev rs)
  ∧ (∀ next ev (r : Reducer) rs c,
       r (context next) ev = Ret (NewContext c) →
       applyReducers next ev (r :: rs)
       = applyReducers (set_context next c) ev rs)
  ∧ transition 1 order_machine (at_state "a" ∅) (EventName "go")
    = Ret (order_result, Some [])
  ∧ prop (context order_result) "x" = VNum 1
  ∧ prop (context order_result) "name" = VStr "b-1".
Proof.
  split_and!.
  - intros fuel machine curr ev T a b currState nextState next
      HT Ha Hb Hcurr Hnext Hrun Himm.
    exists (settle nextState next).
    rewrite (applyTransition_external fuel machine curr ev T b nextState
               (exit currState)); try done.
    + unfold stepReducers. rewrite Hrun. simpl. rewrite Himm. simpl.
      split; [done |].
      apply applyReducers_name_final in Hrun as [Hname _].
      unfold settle. destruct (isFinal nextState); simpl; by rewrite ?Hname.
    + rewrite Ha. simpl. by rewrite Hcurr.
  - apply applyReducers_sentinel.
  - apply applyReducers_new_context.
  - vm_compute. reflexivity.
  - vm_compute. reflexivity.
  - vm_compute. reflexivity.
Qed.

Lemma external_transition_reducer_order_witness :
  js_get (states order_machine) "a" = Own order_a
  ∧ js_get (states order_machine) "b" = Own order_b
  ∧ applyReducers (set_name (at_state "a" ∅) (VStr "b")) go
      (concat (exit_reducers <$> exit order_a)
       ++ reducersOf go_to_b
       ++ concat (enter_reducers <$> enter order_b))
    = Ret (mkStateObject (VStr "b") (context order_result) false)
  ∧ immediateCandidate order_b (context order_result) go = Ret None
  ∧ ∃ result,
      applyTransition 1 order_machine (at_state "a" ∅) go go_to_b
      = Ret (result, Some (collectEffects go (enter order_b)))
      ∧ name result = VStr "b"
      ∧ context result = context order_result.
Proof.
  assert (Hrun : applyReducers (set_name (at_state "a" ∅) (VStr "b")) go
                   (concat (exit_reducers <$> exit order_a)
                    ++ reducersOf go_to_b
                    ++ concat (enter_reducers <$> enter order_b))
                 = Ret (mkStateObject (VStr "b") (context order_result) false))
    by (vm_compute; reflexivity).
  split; [reflexivity |]. split; [reflexivity |].
  split; [exact Hrun |]. split; [reflexivity |].
  exact (proj1 external_transition_reducer_order 0 order_machine
           (at_state "a" ∅) go go_to_b "a" "b" order_a order_b
           (mkStateObject (VStr "b") (context order_result) false)
           eq_refl eq_refl eq_refl eq_refl eq_refl Hrun eq_refl).
Defined.



Section Dispatch.

Implicit Types (machine : Machine) (st next : StateObject) (E : EventArg).

(** Outside the initial transition, [transition] is the dispatch of the
    event. *)
Lemma transition_dispatch fuel machine st E :
  truthy (name st) = true
  ∨ prop (toEventObject E) "type" ≠ VNull
  ∨ states machine = [] →
  transition fuel machine st E = dispatch fuel machine st (toEventObject E).
Proof.
  intros H. unfold transition.
  destruct (truthy (name st)); [done |].
  case_bool_decide as Htype; [| done].
  destruct H as [H | [H | H]]; [done.. |]. by rewrite H.
Qed.

Lemma js_get_own_nonempty {A} (o : list (string * A)) k a :
  js_get o k = Own a → o ≠ [].
Proof.
  destruct o; [| done]. unfold js_get. simpl. by destruct (inherited_key k).
Qed.

Lemma isFinal_spec nextState :
  isFinal nextState = true
  ↔ transitions nextState = [] ∧ immediates nextState = Some [].
Proof.
  unfold isFinal.
  destruct (transitions nextState), (immediates nextState) as [[|] |];
    simpl; split; (done || (intros [? ?]; done)).
Qed.

Lemma settle_not_final nextState next :
  transitions nextState ≠ [] → settle nextState next = next.
Proof.
  intros H. unfold settle, isFinal. by destruct (transitions nextState).
Qed.

(** An event whose type names a property that plain objects inherit,
    and for which the current state has no transition of its own, makes
    the loop over the candidates throw. *)
Lemma dispatch_inherited_event fuel machine st ev :
  inherited_key (ToString (prop ev "type")) = true →
  (∀ currState,
     js_get (states machine) (ToString (name st)) = Own currState →
     own_prop (transitions currState) (ToString (prop ev "type")) = None) →
  dispatch fuel machine st ev = Throw (TypeError "candidates is not iterable").
Proof.
  intros Hk Hown. unfold dispatch.
  destruct (js_get (states machine) (ToString (name st))) as [currState | |].
  - unfold js_get at 1. by rewrite (Hown currState eq_refl), Hk.
  - unfold js_get. simpl. by rewrite Hk.
  - unfold js_get. simpl. by rewrite Hk.
Qed.

End Dispatch.

Section Settling.

Implicit Types (machine : Machine) (curr next : StateObject) (ev : EventObject)
  (T : Transition).

(** ** Reads of a dictionary *)

Lemma js_get_Own {A} (o : list (string * A)) k a :
  js_get o k = Own a ↔ own_prop o k = Some a.
Proof.
  unfold js_get. destruct (own_prop o k); [| by destruct (inherited_key k)].
  split; congruence.
Qed.

Lemma js_get_Absent {A} (o : list (string * A)) k :
  js_get o k = Absent ↔ own_prop o k = None ∧ inherited_key k = false.
Proof.
  unfold js_get. destruct (own_prop o k), (inherited_key k);
    split; try done; by intros [? ?].
Qed.

Lemma js_get_Inherited {A} (o : list (string * A)) k :
  js_get o k = Inherited ↔ own_prop o k = None ∧ inherited_key k = true.
Proof.
  unfold js_get. destruct (own_prop o k), (inherited_key k);
    split; try done; by intros [? ?].
Qed.

Lemma own_prop_elem_of {A} (o : list (string * A)) k a :
  own_prop o k = Some a → (k, a) ∈ o.
Proof.
  induction o as [| [k' a'] o IH]; simpl; [done |].
  destruct (String.eqb k' k) eqn:Hk.
  - apply String.eqb_eq in Hk as ->. intros [= ->]. left.
  - intros H. right. auto.
Qed.

(** ** Where [applyTransition] settles *)

(** One step of [applyTransition] that returns: it reached a state node,
    and either went on with one of its immediates or settled there. *)
Lemma applyTransition_step fuel machine curr ev T next effects :
  applyTransition (S fuel) machine curr ev T = Ret (next, effects) →
  ∃ node n,
    js_get (states machine)
           (ToString (if isInternal T then name curr else targetOf T))
    = Own node
    ∧ name n = (if isInternal T then name curr else targetOf T)
    ∧ ((∃ candidate,
          immediateCandidate node (context n) ev = Ret (Some candidate)
          ∧ applyTransition fuel machine n ev candidate = Ret (next, effects))
       ∨ (immediateCandidate node (context n) ev = Ret None
          ∧ next = settle node n
          ∧ effects = if isInternal T then None
                      else Some (collectEffects ev (enter node)))).
Proof.
  intros H. cbn [applyTransition] in H.
  set (target := if isInternal T then name curr else targetOf T) in *.
  destruct (if isInternal T then Ret curr else _) as [n1 | |] eqn:H1;
    cbn [mbind res_bind] in H; try done.
  destruct (applyReducers (set_name n1 target) ev (reducersOf T)) as [n2 | |] eqn:H2;
    cbn [mbind res_bind] in H; try done.
  apply applyReducers_name_final in H2 as [Hname2 _]. simpl in Hname2.
  destruct (js_get (states machine) (ToString target)) as [node | |] eqn:Hnode;
    try done.
  destruct (if isInternal T then Ret n2 else _) as [n3 | |] eqn:H3;
    cbn [mbind res_bind] in H; try done.
  assert (Hname3 : name n3 = target).
  { destruct (isInternal T).
    - by injection H3 as <-.
    - rewrite applyEnters_concat in H3.
      apply applyReducers_name_final in H3 as [-> _]. done. }
  fold (immediateCandidate node (context n3) ev) in H.
  exists node, n3. split; [done |]. split; [done |].
  destruct (immediateCandidate node (context n3) ev) as [[candidate |] | |];
    cbn [mbind res_bind] in H; try done.
  - left. by exists candidate.
  - right. split; [done |]. unfold settle.
    by destruct (isInternal T); injection H as <- <-.
Qed.

Lemma settle_name node n : name (settle node n) = name n.
Proof. unfold settle. by destruct (isFinal node). Qed.

Lemma applyTransition_effects fuel machine curr ev T next effects :
  applyTransition fuel machine curr ev T = Ret (next, Some effects) →
  ∃ node, js_get (states machine) (ToString (name next)) = Own node
          ∧ effects = collectEffects ev (enter node).
Proof.
  revert curr T. induction fuel as [| fuel IH]; intros curr T H; [done |].
  apply applyTransition_step in H
    as (node & n & Hnode & Hn & [(c & _ & H) | (_ & -> & Heff)]).
  - by eapply IH.
  - exists node. rewrite settle_name, Hn. split; [done |].
    destruct (isInternal T); congruence.
Qed.

(** In a machine whose immediates are products of [immediate], the
    immediate a state goes on with is not an internal transition. *)
Lemma immediate_not_internal machine k node ctx ev c :
  external_immediates machine →
  js_get (states machine) k = Own node →
  immediateCandidate node ctx ev = Ret (Some c) →
  isInternal c = false.
Proof.
  intros Hext Hnode Hc.
  apply immediateCandidate_first in Hc as (before & after & Himm & _).
  apply js_get_Own, own_prop_elem_of in Hnode.
  unfold external_immediates in Hext. rewrite Forall_forall in Hext.
  specialize (Hext _ Hnode). simpl in Hext. rewrite Himm in Hext. simpl in Hext.
  rewrite Forall_forall in Hext. apply Hext.
  apply elem_of_app. right. left.
Qed.

(** [null] for the effects comes from one internal transition after which
    no immediate of the state passes its guards. *)
Lemma applyTransition_null_effects fuel machine curr ev T next :
  external_immediates machine →
  applyTransition fuel machine curr ev T = Ret (next, None) →
  isInternal T = true
  ∧ ∃ node n,
      js_get (states machine) (ToString (name curr)) = Own node
      ∧ applyReducers curr ev (reducersOf T) = Ret n
      ∧ immediateCandidate node (context n) ev = Ret None
      ∧ next = settle node n.
Proof.
  intros Hext. revert curr T.
  induction fuel as [| fuel IH]; intros curr T H; [done |].
  destruct (isInternal T) eqn:Hint.
  - split; [done |].
    pose proof H as Hstep.
    apply applyTransition_step in Hstep as (node & _ & Hnode & _).
    rewrite Hint in Hnode. exists node.
    rewrite (applyTransition_internal fuel machine curr ev T node Hint Hnode) in H.
    destruct (applyReducers curr ev (reducersOf T)) as [n | |];
      cbn [mbind res_bind] in H; try done.
    exists n. split; [done |]. split; [done |].
    destruct (immediateCandidate node (context n) ev) as [[c |] | |] eqn:Hc;
      cbn [mbind res_bind] in H; try done.
    + exfalso. apply IH in H as [Hc' _].
      rewrite (immediate_not_internal _ _ _ _ _ _ Hext Hnode Hc) in Hc'. done.
    + split; [done |]. by injection H as <-.
  - exfalso.
    apply applyTransition_step in H
      as (node & n & Hnode & _ & [(c & Hc & Hrec) | (_ & _ & Heff)]).
    + apply IH in Hrec as [Hc' _].
      rewrite (immediate_not_internal _ _ _ _ _ _ Hext Hnode Hc) in Hc'. done.
    + by rewrite Hint in Heff.
Qed.


End Settling.

(** C2 (as the code has it): when the dispatch of an event on a state
    selects an Internal transition, the exit and enter reducers of the state
    are skipped, the reducers of the transition run, and the immediates of
    the state are then re-evaluated in declaration order.  If none of them
    passes its guards, the result keeps the name of the state and its
    effects are [null]; otherwise the first guard-passing immediate is
    applied to the reduced state, and the result is the result of that.  In
    a machine whose immediates are products of [immediate], such a result
    has a list of effects (not [null]): the effects of the state node its
    name refers to. *)
Theorem internal_transition_behaviour fuel machine st E T currState candidates next :
  truthy (name st) = true ∨ prop (toEventObject E) "type" ≠ VNull →
  js_get (states machine) (ToString (name st)) = Own currState →
  js_get (transitions currState) (ToString (prop (toEventObject E) "type"))
  = Own candidates →
  selectCandidate (context st) (toEventObject E) candidates = Ret (Some T) →
  isInternal T = true →
  applyReducers st (toEventObject E) (reducersOf T) = Ret next →
  (immediateCandidate currState (context next) (toEventObject E) = Ret None →
   transition (S fuel) machine st E = Ret (next, None)
   ∧ name next = name st)
  ∧ (∀ candidate,
       immediateCandidate currState (context next) (toEventObject E)
       = Ret (Some candidate) →
       transition (S fuel) machine st E
       = applyTransition fuel machine next (toEventObject E) candidate
       ∧ (∃ before after,
            immediates currState = Some (before ++ candidate :: after)
            ∧ Forall (fun c => checkGuards (context next) (toEventObject E) c
                               = Ret false) before
            ∧ checkGuards (context next) (toEventObject E) candidate = Ret true)
       ∧ (external_immediates machine →
          ∀ result effects,
            transition (S fuel) machine st E = Ret (result, effects) →
            ∃ node,
              js_get (states machine) (ToString (name result)) = Own node
              ∧ effects = Some (collectEffects (toEventObject E) (enter node)))).
Proof.
  intros Hinit Hcurr Hcands Hsel HT Hrun.
  rewrite transition_dispatch by tauto.
  unfold dispatch. rewrite Hcurr, Hcands, Hsel. cbn [mbind res_bind].
  rewrite (applyTransition_internal _ _ _ _ _ currState) by done.
  rewrite Hrun. cbn [mbind res_bind].
  split.
  - intros ->. cbn [mbind res_bind].
    rewrite settle_not_final by (by eapply js_get_own_nonempty).
    split; [done |]. by apply applyReducers_name_final in Hrun as [-> _].
  - intros candidate Hc. rewrite Hc. cbn [mbind res_bind].
    split; [done |]. split; [by apply immediateCandidate_first |].
    intros Hext result effects Hres.
    destruct effects as [effects |].
    + apply applyTransition_effects in Hres as (node & Hnode & ->).
      by exists node.
    + exfalso.
      apply (applyTransition_null_effects _ _ _ _ _ _ Hext) in Hres as [Hint _].
      by rewrite (immediate_not_internal _ _ _ _ _ _ Hext Hcurr Hc) in Hint.
Qed.

Lemma internal_transition_behaviour_witness :
  (transition 1 internal_then_immediate_machine (at_state "a" ∅) (EventName "stay")
   = Ret (at_state "a" (marks ["stayed"]), None)
   ∧ name (at_state "a" (marks ["stayed"])) = name (at_state "a" ∅))
  ∧ transition 2 internal_then_immediate_machine (at_state "a" ∅) (EventName "inc")
    = applyTransition 1 internal_then_immediate_machine
        (at_state "a" (marks ["go"])) {[ "type" := VStr "inc" ]} a_to_b_if_go
  ∧ external_immediates internal_then_immediate_machine
  ∧ transition 2 internal_then_immediate_machine (at_state "a" ∅) (EventName "inc")
    = Ret (mkStateObject (VStr "b") (marks ["go"]) true, Some [])
  ∧ ∃ node,
      js_get (states internal_then_immediate_machine)
             (ToString (name (mkStateObject (VStr "b") (marks ["go"]) true)))
      = Own node
      ∧ Some [] = Some (collectEffects (toEventObject (EventName "inc")) (enter node)).
Proof.
  assert (Hext : external_immediates internal_then_immediate_machine).
  { unfold external_immediates. simpl. repeat constructor. }
  split.
  - exact (proj1 (internal_transition_behaviour 0 internal_then_immediate_machine
             (at_state "a" ∅) (EventName "stay") stay internal_a [stay]
             (at_state "a" (marks ["stayed"]))
             (or_introl eq_refl) eq_refl eq_refl eq_refl eq_refl eq_refl) eq_refl).
  - split.
    + exact (proj1 (proj2 (internal_transition_behaviour 1
               internal_then_immediate_machine
               (at_state "a" ∅) (EventName "inc") inc internal_a [inc]
               (at_state "a" (marks ["go"]))
               (or_introl eq_refl) eq_refl eq_refl eq_refl eq_refl eq_refl)
               a_to_b_if_go eq_refl)).
    + split; [exact Hext |]. split; [reflexivity |].
      exact (proj2 (proj2 (proj2 (internal_transition_behaviour 1
               internal_then_immediate_machine
               (at_state "a" ∅) (EventName "inc") inc internal_a [inc]
               (at_state "a" (marks ["go"]))
               (or_introl eq_refl) eq_refl eq_refl eq_refl eq_refl eq_refl)
               a_to_b_if_go eq_refl)) Hext
               (mkStateObject (VStr "b") (marks ["go"]) true) (Some []) eq_refl).
Defined.

(** C2 as stated fails: the dispatch selects an Internal transition, and
    yet the result has a list of effects (not [null]) and another name,
    because an immediate of the state passes its guards afterwards. *)
Lemma internal_transition_can_leave_the_state :
  js_get (states internal_then_immediate_machine) "a" = Own internal_a
  ∧ js_get (transitions internal_a) "inc" = Own [inc]
  ∧ selectCandidate ∅ {[ "type" := VStr "inc" ]} [inc] = Ret (Some inc)
  ∧ isInternal inc = true
  ∧ transition 2 internal_then_immediate_machine (at_state "a" ∅) (EventName "inc")
    = Ret (mkStateObject (VStr "b") (marks ["go"]) true, Some []).
Proof. split_and!; reflexivity. Qed.

(** The immediate taken after an internal transition may target the state
    itself: the result then has the name of the state again, with the
    effects of the state. *)
Lemma internal_then_immediate_to_itself :
  transition 2 again_machine (at_state "a" ∅) (EventName "inc")
  = Ret (at_state "a" {[ "go" := VBool false ]},
         Some (collectEffects {[ "type" := VStr "inc" ]} (enter again_a))).
Proof. reflexivity. Qed.




(** An event named after a property that plain objects inherit is not a
    no-op either: [transitions[eventObj.type] || []] is then the function
    [Object], and the loop over it throws. *)
Lemma inherited_event_name_throws fuel :
  js_get (transitions guarded_a) "constructor" = Inherited
  ∧ transition fuel guarded_machine (at_state "a" ∅) (EventName "constructor")
    = Throw (TypeError "candidates is not iterable").
Proof.
  split; [reflexivity |].
  rewrite transition_dispatch by (by left).
  apply dispatch_inherited_event; [reflexivity |].
  by intros currState [= <-].
Qed.

(** C8: the state a transition settles in is the node its name refers to,
    none of whose immediates passes; its [final] flag is set when that node
    has an empty [transitions] dictionary and an empty [immediates] list,
    and is otherwise what it was in the state the transition started from.
    The flag is computed from these two alone. *)
Theorem final_is_computed_at_settle fuel machine curr ev T next effects :
  applyTransition fuel machine curr ev T = Ret (next, effects) →
  ∃ nextState,
    js_get (states machine) (ToString (name next)) = Own nextState
    ∧ immediateCandidate nextState (context next) ev = Ret None
    ∧ final next = isFinal nextState || final curr
    ∧ (isFinal nextState = true
       ↔ transitions nextState = [] ∧ immediates nextState = Some []).
Proof.
  revert curr T next effects.
  induction fuel as [| fuel IH]; intros curr T next effects H; [done |].
  cbn [applyTransition] in H.
  set (target := if isInternal T then name curr else targetOf T) in *.
  destruct (if isInternal T then Ret curr else _) as [n1 | |] eqn:H1;
    cbn [mbind res_bind] in H; try done.
  assert (Hn1 : final n1 = final curr).
  { destruct (isInternal T); [by injection H1 as <- |].
    destruct (js_get (states machine) (ToString (name curr))) as [currState | |];
      [| done | by injection H1 as <-].
    rewrite applyExits_concat in H1.
    by apply applyReducers_name_final in H1 as [_ ->]. }
  destruct (applyReducers (set_name n1 target) ev (reducersOf T)) as [n2 | |] eqn:H2;
    cbn [mbind res_bind] in H; try done.
  apply applyReducers_name_final in H2 as [Hname2 Hfinal2]. simpl in Hname2, Hfinal2.
  destruct (js_get (states machine) (ToString target)) as [nextState | |] eqn:Hnext;
    try done.
  destruct (if isInternal T then Ret n2 else _) as [n3 | |] eqn:H3;
    cbn [mbind res_bind] in H; try done.
  assert (Hn3 : name n3 = target ∧ final n3 = final curr).
  { destruct (isInternal T).
    - injection H3 as <-. split; congruence.
    - rewrite applyEnters_concat in H3.
      apply applyReducers_name_final in H3 as [-> ->]. split; congruence. }
  destruct Hn3 as [Hname3 Hfinal3].
  fold (immediateCandidate nextState (context n3) ev) in H.
  destruct (immediateCandidate nextState (context n3) ev) as [[candidate |] | |] eqn:Himm;
    cbn [mbind res_bind] in H; try done.
  - apply IH in H as (node' & Hnode' & Himm' & Hfinal' & Hspec').
    exists node'. split_and!; try done. congruence.
  - exists nextState.
    assert (Hres : next = settle nextState n3).
    { unfold settle. by destruct (isInternal T); injection H as <- _. }
    subst next.
    assert (Hs : name (settle nextState n3) = target
                 ∧ context (settle nextState n3) = context n3
                 ∧ final (settle nextState n3) = isFinal nextState || final curr).
    { unfold settle. destruct (isFinal nextState); simpl; by rewrite ?Hfinal3. }
    destruct Hs as (-> & -> & ->).
    split_and!; [done | done | done | apply isFinal_spec].
Qed.

Lemma final_is_computed_at_settle_witness :
  applyTransition 1 order_machine (at_state "a" ∅) go go_to_b
  = Ret (order_result, Some [])
  ∧ ∃ nextState,
      js_get (states order_machine) (ToString (name order_result)) = Own nextState
      ∧ immediateCandidate nextState (context order_result) go = Ret None
      ∧ final order_result = isFinal nextState || final (at_state "a" ∅)
      ∧ (isFinal nextState = true
         ↔ transitions nextState = [] ∧ immediates nextState = Some []).
Proof.
  assert (H : applyTransition 1 order_machine (at_state "a" ∅) go go_to_b
              = Ret (order_result, Some [])) by (vm_compute; reflexivity).
  split; [exact H |].
  exact (final_is_computed_at_settle 1 order_machine (at_state "a" ∅) go
           go_to_b order_result (Some []) H).
Defined.

(** A state with a transition is not marked final when it is entered. *)
Example entering_a_state_with_transitions :
  transition 1 guarded_machine (initialState ∅) initialEvent
  = Ret (at_state "a" ∅, Some []).
Proof. reflexivity. Qed.

(* ===================================================================== *)
(** * Properties of the service *)
(* ===================================================================== *)

(** A lowered action throws what the action throws. *)
Lemma actionToReduce_throw (a : Action) ctx ev e :
  a ctx ev = Throw e → actionToReduce a ctx ev = Throw e.
Proof. intros H. unfold actionToReduce. by rewrite H. Qed.





Section EffectRuntime.

Variable effect : loc.

Implicit Types (w : World) (h : EventArg → M unit).

(** ** The [disposed] flag is never reset *)

Lemma keeps_ret {A} (a : A) : keeps_disposed effect (mret a).
Proof. by intros w. Qed.

Lemma keeps_throw {A} e : keeps_disposed effect (@throw A e).
Proof. by intros w. Qed.

Lemma keeps_diverge {A} : keeps_disposed effect (@diverge A).
Proof. by intros w. Qed.

Lemma keeps_bind {A B} (m : M A) (f : A → M B) :
  keeps_disposed effect m →
  (∀ a, keeps_disposed effect (f a)) →
  keeps_disposed effect (m ≫= f).
Proof.
  intros Hm Hf w Hw. specialize (Hm w Hw).
  unfold mbind, M_bind. destruct (m w) as [w' [a | e |]]; simpl in *; auto.
  by apply Hf.
Qed.

Lemma keeps_get_world (f : World → M unit) :
  (∀ w0, keeps_disposed effect (f w0)) →
  keeps_disposed effect (get_world ≫= f).
Proof. intros Hf w Hw. unfold mbind, M_bind, get_world. by apply Hf. Qed.

Lemma keeps_get_world_list (f : World → M (list loc)) :
  (∀ w0, keeps_disposed effect (f w0)) →
  keeps_disposed effect (get_world ≫= f).
Proof. intros Hf w Hw. unfold mbind, M_bind, get_world. by apply Hf. Qed.

Lemma keeps_set_service f : keeps_disposed effect (modify (set_service f)).
Proof. by intros w. Qed.

Lemma keeps_warning msg : keeps_disposed effect (warning msg).
Proof. by intros w. Qed.

Lemma keeps_store_dispose effect' d :
  keeps_disposed effect (store_dispose effect' d).
Proof.
  intros w. unfold is_disposed, store_dispose, modify. simpl.
  destruct (heap w !! effect') as [o' |] eqn:Ho'; [| done].
  destruct (decide (effect' = effect)) as [-> | Hne].
  - rewrite Ho', list_lookup_insert_eq by (by eapply lookup_lt_Some). done.
  - by rewrite list_lookup_insert_ne.
Qed.

Lemma keeps_mark_disposed effect' :
  keeps_disposed effect (mark_disposed effect').
Proof.
  intros w. unfold is_disposed, mark_disposed, modify. simpl.
  destruct (heap w !! effect') as [o' |] eqn:Ho'; [| done].
  destruct (decide (effect' = effect)) as [-> | Hne].
  - rewrite list_lookup_insert_eq by (by eapply lookup_lt_Some). done.
  - by rewrite list_lookup_insert_ne.
Qed.

Lemma keeps_alloc_effects effects :
  keeps_disposed effect (alloc_effects effects).
Proof.
  intros w. unfold is_disposed, alloc_effects. simpl.
  destruct (heap w !! effect) as [o |] eqn:Ho; [| done].
  intros Hd. by rewrite (lookup_app_l_Some _ _ _ _ Ho).
Qed.

Lemma keeps_safeSend h effect' args :
  (∀ ev, keeps_disposed effect (h ev)) →
  keeps_disposed effect (safeSend h effect' args).
Proof.
  intros Hh w Hw. unfold safeSend.
  destruct (is_disposed effect' w); [done | by apply Hh].
Qed.

Lemma keeps_runProg {R} h (p : Prog R) :
  (∀ ev, keeps_disposed effect (h ev)) →
  keeps_disposed effect (runProg h p).
Proof.
  intros Hh. induction p as [r | ev k IH | e |]; simpl.
  - apply keeps_ret.
  - apply keeps_bind; [apply Hh | by intros _].
  - apply keeps_throw.
  - apply keeps_diverge.
Qed.

Lemma keeps_call_dispose h effect' d :
  (∀ ev, keeps_disposed effect (h ev)) →
  keeps_disposed effect (call_dispose h effect' d).
Proof.
  intros Hh. apply keeps_bind; [apply keeps_mark_disposed |].
  intros _. apply keeps_runProg. intros ev. by apply keeps_safeSend.
Qed.

Lemma keeps_runEffects h effects st :
  (∀ ev, keeps_disposed effect (h ev)) →
  keeps_disposed effect (runEffects h effects st).
Proof.
  intros Hh. induction effects as [| effect' effects IH]; simpl.
  - apply keeps_ret.
  - apply keeps_get_world_list. intros w0.
    destruct (heap w0 !! effect') as [o |]; [| apply keeps_throw].
    apply keeps_bind; [apply keeps_runProg; intros ev; by apply keeps_safeSend |].
    intros [| | d].
    + done.
    + apply keeps_bind; [apply keeps_warning | done].
    + apply keeps_bind; [apply keeps_store_dispose |]. intros _.
      apply keeps_bind; [done |]. intros running. apply keeps_ret.
Qed.

Lemma keeps_cleanEffects h effects :
  (∀ ev, keeps_disposed effect (h ev)) →
  keeps_disposed effect (cleanEffects h effects).
Proof.
  intros Hh. induction effects as [| effect' effects IH]; simpl.
  - apply keeps_ret.
  - apply keeps_get_world_list. intros w0.
    apply keeps_bind; [| done].
    destruct (heap w0 !! effect') as [o |]; [| apply keeps_ret].
    destruct (dispose o) as [d |]; [| apply keeps_ret].
    by apply keeps_call_dispose.
Qed.

Lemma keeps_notify h cbs st :
  (∀ ev, keeps_disposed effect (h ev)) →
  keeps_disposed effect (notify h cbs st).
Proof.
  intros Hh. induction cbs as [| cb cbs IH]; simpl.
  - apply keeps_ret.
  - apply keeps_bind; [by apply keeps_runProg | done].
Qed.

Lemma keeps_service_runEffects h :
  (∀ ev, keeps_disposed effect (h ev)) →
  keeps_disposed effect (service_runEffects h).
Proof.
  intros Hh. unfold service_runEffects.
  apply keeps_get_world. intros w0.
  apply keeps_bind; [by apply keeps_cleanEffects |]. intros cleaned.
  apply keeps_bind; [apply keeps_set_service |]. intros _.
  apply keeps_get_world. intros w1.
  apply keeps_bind; [by apply keeps_runEffects |]. intros started.
  apply keeps_set_service.
Qed.

Lemma keeps_send fuel E : keeps_disposed effect (send fuel E).
Proof.
  revert E. induction fuel as [| fuel IH]; intros E; simpl.
  - apply keeps_diverge.
  - apply keeps_get_world. intros w0.
    destruct (negb (running (service w0))); [apply keeps_ret |].
    apply keeps_bind; [apply keeps_set_service |]. intros _.
    destruct (transition fuel _ _ E) as [[st effects] | e |];
      [| apply keeps_throw | apply keeps_diverge].
    apply keeps_bind; [apply keeps_set_service |]. intros _.
    apply keeps_bind.
    + destruct effects as [effects |]; [| apply keeps_ret].
      apply keeps_bind; [apply keeps_alloc_effects |]. intros pending.
      apply keeps_bind; [apply keeps_set_service |]. intros _.
      by apply keeps_service_runEffects.
    + intros _. apply keeps_get_world. intros w1. by apply keeps_notify.
Qed.

Lemma keeps_stop fuel : keeps_disposed effect (stop fuel).
Proof.
  unfold stop. apply keeps_bind; [apply keeps_set_service |]. intros _.
  apply keeps_get_world. intros w0.
  apply keeps_bind; [apply keeps_cleanEffects, keeps_send |]. intros cleaned.
  apply keeps_set_service.
Qed.

(** ** The guarded [send] of a disposed effect *)

Lemma with_warnings_0 w : with_warnings 0 w = w.
Proof. destruct w. unfold with_warnings. simpl. by rewrite app_nil_r. Qed.

Lemma with_warnings_S n w :
  with_warnings n (with_warnings 1 w) = with_warnings (S n) w.
Proof. unfold with_warnings. simpl. by rewrite <- app_assoc. Qed.

Lemma safeSend_disposed h args w :
  is_disposed effect w = true →
  safeSend h effect args w = (with_warnings 1 w, Ret tt).
Proof. intros Hw. unfold safeSend. by rewrite Hw. Qed.

Lemma runProg_disposed {R} h (p : Prog R) w :
  is_disposed effect w = true →
  runProg (safeSend h effect) p w = (with_warnings (sends p) w, outcome p).
Proof.
  revert w. induction p as [r | ev k IH | e |]; intros w Hw; simpl;
    try by rewrite with_warnings_0.
  unfold mbind, M_bind. rewrite safeSend_disposed by done.
  rewrite IH by done. by rewrite with_warnings_S.
Qed.

Lemma is_disposed_with_disposed w :
  is_Some (heap w !! effect) →
  is_disposed effect (with_disposed effect w) = true.
Proof.
  intros [o Ho]. unfold is_disposed, with_disposed. simpl. rewrite Ho.
  by rewrite list_lookup_insert_eq by (by eapply lookup_lt_Some).
Qed.

Lemma call_dispose_swallows h d w :
  is_Some (heap w !! effect) →
  call_dispose h effect d w
  = (with_warnings (sends d) (with_disposed effect w), outcome d).
Proof.
  intros Ho. unfold call_dispose, mbind, M_bind, mark_disposed, modify.
  fold (with_disposed effect w).
  by rewrite runProg_disposed by (by apply is_disposed_with_disposed).
Qed.

End EffectRuntime.

(** C7: [runEffects] retains an effect whose function returned a cleanup
    and stores the wrapper of that cleanup under [dispose]; [cleanEffects]
    calls it.  The wrapper marks the effect disposed and only then runs the
    cleanup; from then on every call of the guarded [send] of that effect,
    those made by the cleanup itself included, returns without calling the
    [send] of the session and without throwing, and only adds a warning;
    nothing the service does afterwards ([send], [stop]) resets the
    mark. *)
Theorem post_disposal_send_is_swallowed :
  (∀ send effect st w o w1 o1 d,
     heap w !! effect = Some o →
     runProg (safeSend send effect)
       (run (effect_of o) (context st) (event (effect_of o))) w
     = (w1, Ret (Cleanup d)) →
     heap w1 !! effect = Some o1 →
     ∃ w2,
       runEffects send [effect] st w = (w2, Ret [effect])
       ∧ heap w2 !! effect
         = Some (mkEffectObject (effect_of o1) (Some d) (disposed o1)))
  ∧ (∀ send effect rest w o d,
     heap w !! effect = Some o →
     dispose o = Some d →
     cleanEffects send (effect :: rest) w
     = (call_dispose send effect d ≫= λ _, cleanEffects send rest) w)
  ∧ (∀ send effect d w,
       is_Some (heap w !! effect) →
       is_disposed effect (with_disposed effect w) = true
       ∧ call_dispose send effect d w
         = (with_warnings (sends d) (with_disposed effect w), outcome d))
  ∧ (∀ send effect args w,
       is_disposed effect w = true →
       safeSend send effect args w = (with_warnings 1 w, Ret tt))
  ∧ (∀ fuel E effect w,
       is_disposed effect w = true →
       is_disposed effect (send fuel E w).1 = true)
  ∧ (∀ fuel effect w,
       is_disposed effect w = true →
       is_disposed effect (stop fuel w).1 = true).
Proof.
  split_and!.
  - intros send effect st w o w1 o1 d Ho Hrun Ho1.
    exists (set_heap (fun h => <[effect := mkEffectObject (effect_of o1) (Some d) (disposed o1)]> h) w1).
    split.
    + simpl. unfold mbind at 1, M_bind at 1, get_world at 1. rewrite Ho.
      unfold mbind at 1, M_bind at 1. rewrite Hrun.
      unfold mbind, M_bind, store_dispose, modify, set_heap, mret, M_ret.
      simpl. by rewrite Ho1.
    + simpl. apply list_lookup_insert_eq. by eapply lookup_lt_Some.
  - intros send effect rest w o d Ho Hd. simpl.
    unfold mbind at 1, M_bind at 1, get_world at 1. by rewrite Ho, Hd.
  - intros send effect d w Ho. split.
    + by apply is_disposed_with_disposed.
    + by apply call_dispose_swallows.
  - intros send effect args w. apply safeSend_disposed.
  - intros fuel E effect w. apply keeps_send.
  - intros fuel effect w. apply keeps_stop.
Qed.

Lemma post_disposal_send_is_swallowed_witness :
  is_Some (heap ping_running !! 0)
  ∧ is_disposed 0 (with_disposed 0 ping_running) = true
  ∧ call_dispose (send 5) 0 late ping_running
    = (with_warnings 1 (with_disposed 0 ping_running), Ret tt)
  ∧ safeSend (send 5) 0 (EventName "later")
      (with_warnings 1 (with_disposed 0 ping_running))
    = (with_warnings 1 (with_warnings 1 (with_disposed 0 ping_running)), Ret tt).
Proof.
  assert (Ho : is_Some (heap ping_running !! 0)) by (by eexists).
  destruct (proj1 (proj2 (proj2 post_disposal_send_is_swallowed)) (send 5) 0
              late ping_running Ho) as [Hd Hc].
  split; [exact Ho |]. split; [exact Hd |]. split; [exact Hc |].
  exact (proj1 (proj2 (proj2 (proj2 post_disposal_send_is_swallowed))) (send 5) 0
           (EventName "later") (with_warnings 1 (with_disposed 0 ping_running))
           eq_refl).
Defined.

(** A run of the service: entering [c] through the chain starts the effect
    of [c] only; stopping the service runs its cleanup, whose [send] is
    swallowed with one warning; the state is untouched. *)
Example stop_swallows_the_late_send :
  (send 5 (EventName "go") (service_at chain_machine "s")).2 = Ret tt
  ∧ state (service chain_started) = chain_result
  ∧ runningEffects (service chain_started) = [0]
  ∧ warnings chain_started = []
  ∧ (stop 5 chain_started).2 = Ret tt
  ∧ state (service chain_stopped) = chain_result
  ∧ runningEffects (service chain_stopped) = []
  ∧ is_disposed 0 chain_stopped = true
  ∧ warnings chain_stopped = [post_disposal_warning].
Proof. split_and!; reflexivity. Qed.

(* ===================================================================== *)
(** * Properties of [assignToReduce] *)
(* ===================================================================== *)

Section AssignToReduce.

Variables (h : Store.Store) (context event : loc) (cobj eobj : JsObject).
Hypothesis Hcontext : h !! context = Some cobj.
Hypothesis Hevent : h !! event = Some eobj.

(** The payload object [data] the reducer builds first. *)
Lemma store_data :
  Store.alloc h (delete "type" (Store.own_props h (VRef event)))
  = (h ++ [delete "type" eobj], length h).
Proof. unfold Store.alloc. simpl. by rewrite Hevent. Qed.

Lemma store_context_after_data :
  Store.own_props (h ++ [delete "type" eobj]) (VRef context) = cobj.
Proof.
  unfold Store.own_props. by rewrite (lookup_app_l_Some _ _ _ _ Hcontext).
Qed.

Lemma store_data_read :
  Store.own_props (h ++ [delete "type" eobj]) (VRef (length h))
  = delete "type" eobj.
Proof. unfold Store.own_props. by rewrite list_lookup_middle. Qed.

Lemma store_kept (h' : Store.Store) l o :
  h !! l = Some o → (h ++ h') !! l = Some o.
Proof. apply lookup_app_l_Some. Qed.

Lemma store_fresh (h' : Store.Store) o :
  h' !! length h' = None ∧ (h' ++ [o]) !! length h' = Some o.
Proof.
  split; [by apply lookup_ge_None | by apply list_lookup_middle].
Qed.

End AssignToReduce.

(** C10: the reducer made from an [assign] hook returns a new object and
    writes into no object that exists: every object of the store is after
    the call what it was before ([assign] being a function, what it was
    when the function returned).  With [true] the new object is the context
    merged with the fields of the event other than [type]; with a function
    [f], the context (as it was before the call of [f]) merged with the
    result of [f(context, payload)], the payload being a new object with
    the fields of the event other than [type]; with any other value, the
    context merged with that value.  On the contents of the objects this is
    what [assignToReduce] computes on values. *)
Theorem lowered_assign_semantics (h : Store.Store) (context event : loc)
    (cobj eobj : JsObject) :
  h !! context = Some cobj →
  h !! event = Some eobj →
  (∃ h' r,
     Store.assignToReduce Store.AssignTrue context event h = (h', Ret (VRef r))
     ∧ h !! r = None
     ∧ h' !! r = Some (delete "type" eobj ∪ cobj)
     ∧ (∀ l o, h !! l = Some o → h' !! l = Some o)
     ∧ assignToReduce AssignTrue cobj eobj
       = Ret (NewContext (delete "type" eobj ∪ cobj)))
  ∧ (∀ v, ∃ h' r,
       Store.assignToReduce (Store.AssignConst v) context event h
       = (h', Ret (VRef r))
       ∧ h !! r = None
       ∧ h' !! r = Some (Store.own_props (h ++ [delete "type" eobj]) v ∪ cobj)
       ∧ (∀ l o, h !! l = Some o → h' !! l = Some o)
       ∧ assignToReduce
           (AssignConst (Store.own_props (h ++ [delete "type" eobj]) v)) cobj eobj
         = Ret (NewContext (Store.own_props (h ++ [delete "type" eobj]) v ∪ cobj)))
  ∧ (∀ f h2 v,
       f context (length h) (h ++ [delete "type" eobj]) = (h2, Ret v) →
       ∃ r,
         Store.assignToReduce (Store.AssignFn f) context event h
         = (h2 ++ [Store.own_props h2 v ∪ cobj], Ret (VRef r))
         ∧ h2 !! r = None
         ∧ (h2 ++ [Store.own_props h2 v ∪ cobj]) !! r
           = Some (Store.own_props h2 v ∪ cobj)
         ∧ (∀ l o, h2 !! l = Some o
                   → (h2 ++ [Store.own_props h2 v ∪ cobj]) !! l = Some o)
         ∧ assignToReduce (AssignFn (fun _ _ => Ret (Store.own_props h2 v)))
             cobj eobj
           = Ret (NewContext (Store.own_props h2 v ∪ cobj)))
  ∧ (∀ f h2 e,
       f context (length h) (h ++ [delete "type" eobj]) = (h2, Throw e) →
       Store.assignToReduce (Store.AssignFn f) context event h = (h2, Throw e)).
Proof.
  intros Hcontext Hevent.
  pose proof (store_data h event eobj Hevent) as Hdata.
  pose proof (store_context_after_data h context cobj eobj Hcontext) as Hc.
  pose proof (store_data_read h eobj) as Hd.
  split_and!.
  - exists ((h ++ [delete "type" eobj]) ++ [delete "type" eobj ∪ cobj]),
           (length (h ++ [delete "type" eobj])).
    split_and!.
    + unfold Store.assignToReduce. rewrite Hdata.
      unfold Store.alloc, spread2. by rewrite Hc, Hd.
    + apply lookup_ge_None. rewrite length_app. simpl. lia.
    + by apply list_lookup_middle.
    + intros l o Hl. by apply store_kept, store_kept.
    + done.
  - intros v.
    exists ((h ++ [delete "type" eobj])
            ++ [Store.own_props (h ++ [delete "type" eobj]) v ∪ cobj]),
           (length (h ++ [delete "type" eobj])).
    split_and!.
    + unfold Store.assignToReduce. rewrite Hdata.
      unfold Store.alloc, spread2. by rewrite Hc.
    + apply lookup_ge_None. rewrite length_app. simpl. lia.
    + by apply list_lookup_middle.
    + intros l o Hl. by apply store_kept, store_kept.
    + done.
  - intros f h2 v Hf. exists (length h2).
    split_and!.
    + unfold Store.assignToReduce. rewrite Hdata, Hf.
      unfold Store.alloc, spread2. by rewrite Hc.
    + by apply lookup_ge_None.
    + by apply list_lookup_middle.
    + intros l o Hl. by apply store_kept.
    + done.
  - intros f h2 e Hf.
    unfold Store.assignToReduce. by rewrite Hdata, Hf.
Qed.

Lemma lowered_assign_semantics_witness :
  example_store !! 0 = Some ({[ "a" := VNum 1 ]} : JsObject)
  ∧ example_store !! 1 = Some ({[ "type" := VStr "go"; "x" := VNum 2 ]} : JsObject)
  ∧ ∃ h' r,
      Store.assignToReduce Store.AssignTrue 0 1 example_store = (h', Ret (VRef r))
      ∧ example_store !! r = None
      ∧ h' !! r = Some (delete "type" {[ "type" := VStr "go"; "x" := VNum 2 ]}
                        ∪ ({[ "a" := VNum 1 ]} : JsObject))
      ∧ (∀ l o, example_store !! l = Some o → h' !! l = Some o)
      ∧ assignToReduce AssignTrue {[ "a" := VNum 1 ]}
          {[ "type" := VStr "go"; "x" := VNum 2 ]}
        = Ret (NewContext (delete "type" {[ "type" := VStr "go"; "x" := VNum 2 ]}
                           ∪ {[ "a" := VNum 1 ]})).
Proof.
  split; [reflexivity |]. split; [reflexivity |].
  exact (proj1 (lowered_assign_semantics example_store 0 1
                  {[ "a" := VNum 1 ]} {[ "type" := VStr "go"; "x" := VNum 2 ]}
                  eq_refl eq_refl)).
Defined.

(** The three kinds of [assign] on the example store: the new object is
    [{ a: 1, x: 2 }], [{ a: 1, z: "foo" }], and again [{ a: 1, x: 2 }] with
    a function that writes into the context before returning the payload:
    the properties of the context were copied before the call. *)
Example assign_on_the_example_store :
  (Store.assignToReduce Store.AssignTrue 0 1 example_store).1 !! 4
  = Some ({[ "a" := VNum 1; "x" := VNum 2 ]} : JsObject)
  ∧ (Store.assignToReduce (Store.AssignConst (VRef 2)) 0 1 example_store).1 !! 4
    = Some ({[ "a" := VNum 1; "z" := VStr "foo" ]} : JsObject)
  ∧ (Store.assignToReduce (Store.AssignFn write_then_return) 0 1 example_store).1 !! 4
    = Some ({[ "a" := VNum 1; "x" := VNum 2 ]} : JsObject)
  ∧ (Store.assignToReduce (Store.AssignFn write_then_return) 0 1 example_store).1 !! 0
    = Some ({[ "written" := VBool true ]} : JsObject)
  ∧ (Store.assignToReduce Store.AssignTrue 0 1 example_store).1 !! 1
    = Some ({[ "type" := VStr "go"; "x" := VNum 2 ]} : JsObject).
Proof. split_and!; vm_compute; reflexivity. Qed.

(* ===================================================================== *)
(** * The tests of the repository *)
(* ===================================================================== *)

(** "after initial transition": the machine is in [foo], the context is
    [{ a: 1, b: 2 }], the state is final. *)
Example test_initial_transition :
  transition 1 foo_machine (initialState {[ "a" := VNum 1 ]}) initialEvent
  = Ret (mkStateObject (VStr "foo") {[ "a" := VNum 1; "b" := VNum 2 ]} true,
         Some []).
Proof. vm_compute. reflexivity. Qed.

(** "with a transition guard". *)
Example test_transition_guard :
  transition 1 guarded_machine (at_state "a" ∅) (EventName "go")
  = Ret (at_state "a" ∅, None)
  ∧ createTransition (VStr "go") (VStr "b") (Some [OptGuard (One event_ok)])
    = Ret (External "go" "b" [event_ok] [])
  ∧ transition 1
      (mkMachine [("a", node "a" [("go", [External "go" "b" [event_ok] []])] [] [] []);
                  ("b", plain_b)])
      (at_state "a" ∅) (EventObj go_ok)
    = Ret (mkStateObject (VStr "b") ∅ true, Some []).
Proof. split_and!; reflexivity. Qed.

(** "with a transition reducer". *)
Example test_transition_reducer :
  transition 1 reducer_machine
    (at_state "a" {[ "a" := VNum 1; "b" := VNum 2 ]})
    (EventObj {[ "type" := VStr "go"; "data" := VNum 3 ]})
  = Ret (mkStateObject (VStr "b") {[ "a" := VNum 1; "c" := VNum 3 ]} true, Some []).
Proof. vm_compute. reflexivity. Qed.

(** "with a transition assignment". *)
Example test_transition_assignment :
  createTransition (VStr "go") (VStr "b") (Some assign_options)
  = Ret (External "go" "b" [] (lowered_reducers assign_options))
  ∧ transition 1 assign_machine (at_state "a" ∅)
      (EventObj {[ "type" := VStr "go"; "x" := VNum 1; "y" := VNum 2 ]})
    = Ret (mkStateObject (VStr "b")
             {[ "x" := VStr "prefix1"; "y" := VStr "prefix2"; "z" := VStr "foo" ]}
             true,
           Some []).
Proof. split; [reflexivity | vm_compute; reflexivity]. Qed.

(** "complex machine": the chain through [second] settles in [third]; the
    effect of [fourth] sends an event while it starts, which the internal
    transition assigns; leaving [fourth] runs the cleanup, whose [send] is
    swallowed with one warning. *)
Example test_complex_machine :
  state (service complex_0) = at_state "initial" ∅
  ∧ state (service complex_1) = at_state "third" {[ "x" := VNum 1 ]}
  ∧ state (service complex_2)
    = at_state "fourth" {[ "x" := VNum 2; "fourthEntered" := VStr "ping" ]}
  ∧ runningEffects (service complex_2) = [0]
  ∧ warnings complex_2 = []
  ∧ state (service complex_3)
    = mkStateObject (VStr "final")
        {[ "x" := VNum 3; "y" := VNum 2; "fourthEntered" := VStr "ping";
           "fourthExited" := VStr "pong" ]}
        true
  ∧ runningEffects (service complex_3) = []
  ∧ warnings complex_3 = [post_disposal_warning].
Proof. split_and!; vm_compute; reflexivity. Qed.

(* ===================================================================== *)
(** * Properties of compiling a description *)
(* ===================================================================== *)

Section Dictionaries.

Context {A : Type}.
Implicit Types (o : list (string * A)) (k : string) (a : A).

Lemma own_prop_app o o' k :
  own_prop (o ++ o') k
  = match own_prop o k with Some a => Some a | None => own_prop o' k end.
Proof.
  induction o as [| [k1 a1] o IH]; simpl; [done |].
  by destruct (String.eqb k1 k).
Qed.

Lemma own_prop_js_replace o k a k' :
  is_Some (own_prop o k) →
  own_prop (js_replace o k a) k'
  = if decide (k = k') then Some a else own_prop o k'.
Proof.
  induction o as [| [k1 a1] o IH]; simpl; [by intros [? ?] |].
  destruct (String.eqb_spec k1 k) as [-> | Hne]; simpl.
  - intros _. destruct (String.eqb_spec k k'); by case_decide.
  - intros Hk. rewrite (IH Hk).
    destruct (String.eqb_spec k1 k'); case_decide; congruence.
Qed.

Lemma own_prop_js_insert_index o n k a k' :
  own_prop o k = None →
  own_prop (js_insert_index o n k a) k'
  = if decide (k = k') then Some a else own_prop o k'.
Proof.
  induction o as [| [k1 a1] o IH]; simpl.
  - intros _. destruct (String.eqb_spec k k'); by case_decide.
  - destruct (String.eqb_spec k1 k) as [-> | Hne]; [done |]. intros Hk.
    assert (Hhere : own_prop ((k, a) :: (k1, a1) :: o) k'
                    = if decide (k = k') then Some a
                      else if String.eqb k1 k' then Some a1 else own_prop o k').
    { simpl. destruct (String.eqb_spec k k'); by case_decide. }
    destruct (array_index k1) as [n1 |]; [| exact Hhere].
    destruct (n1 <? n)%N; [| exact Hhere].
    simpl. rewrite (IH Hk).
    destruct (String.eqb_spec k1 k'); case_decide; congruence.
Qed.

(** Reading after writing: the key written holds the value written, the
    other keys hold what they held. *)
Lemma own_prop_js_set o k a k' :
  own_prop (js_set o k a) k'
  = if decide (k = k') then Some a else own_prop o k'.
Proof.
  unfold js_set. destruct (own_prop o k) as [a0 |] eqn:Hk.
  - apply own_prop_js_replace. by rewrite Hk.
  - destruct (array_index k) as [n |].
    + by apply own_prop_js_insert_index.
    + rewrite own_prop_app. simpl.
      destruct (own_prop o k') as [a' |] eqn:Hk'.
      * case_decide; congruence.
      * destruct (String.eqb_spec k k'); by case_decide.
Qed.

End Dictionaries.

Section CreateState.

Implicit Types (name event : string) (acc : StateParts) (opts : list StatePart).

Lemma push_transition_spec transitions event t transitions' event' :
  push_transition transitions event t = Ret transitions' →
  own_prop transitions' event'
  = pushed (own_prop transitions event')
           (if decide (Some event = Some event') then [t] else []).
Proof.
  unfold push_transition.
  destruct (js_get transitions event) as [l | |] eqn:Hget; [| done |].
  - apply js_get_Own in Hget. intros [= <-]. rewrite own_prop_js_set.
    repeat case_decide; simplify_eq; try done.
    + by rewrite Hget.
    + unfold pushed. destruct (own_prop transitions event'); [| done].
      by rewrite app_nil_r.
  - apply js_get_Absent in Hget as [Hget _]. intros [= <-].
    rewrite own_prop_js_set.
    repeat case_decide; simplify_eq; try done.
    + by rewrite Hget.
    + unfold pushed. destruct (own_prop transitions event'); [| done].
      by rewrite app_nil_r.
Qed.

Lemma pushed_pushed held l1 l2 :
  pushed (pushed held l1) l2 = pushed held (l1 ++ l2).
Proof.
  destruct held as [l |]; simpl; [by rewrite app_assoc |].
  destruct l1; simpl; [done | done].
Qed.

(** What the loop of [createState] has collected when it ends. *)
Lemma addParts_spec name acc opts acc' :
  addParts name acc opts = Ret acc' →
  parts_enter acc' = parts_enter acc ++ part_enters opts
  ∧ parts_exit acc' = parts_exit acc ++ part_exits opts
  ∧ parts_immediates acc' = parts_immediates acc ++ part_immediates opts
  ∧ ∀ event,
      own_prop (parts_transitions acc') event
      = pushed (own_prop (parts_transitions acc) event)
               (part_transitions_on event opts).
Proof.
  revert acc. induction opts as [| p opts IH]; intros acc; simpl.
  - intros [= <-]. rewrite !app_nil_r. split_and!; try done.
    intros event. unfold pushed. destruct (own_prop _ event); [| done].
    by rewrite app_nil_r.
  - destruct (addPart name acc p) as [acc1 | |] eqn:Hp; simpl; try done.
    intros H. apply IH in H as (He & Hx & Hi & Ht).
    rewrite He, Hx, Hi. clear He Hx Hi.
    destruct p as [t | e | e | o]; simpl in Hp.
    + destruct (eventOf t) as [event |] eqn:Hev.
      * destruct (push_transition _ event t) as [transitions' | |] eqn:Hpush;
          simpl in Hp; try done.
        injection Hp as <-. simpl. split_and!; try done.
        intros event'. rewrite Ht. simpl.
        rewrite (push_transition_spec _ _ _ _ event' Hpush), pushed_pushed.
        f_equal. unfold part_transitions_on. simpl.
        repeat case_decide; simplify_eq; done.
      * injection Hp as <-. simpl. rewrite <- app_assoc. by split_and!.
    + injection Hp as <-. simpl. rewrite <- app_assoc. by split_and!.
    + injection Hp as <-. simpl. rewrite <- app_assoc. by split_and!.
    + done.
Qed.

Lemma addPart_ok name acc p :
  part_ok p = true → ∃ acc', addPart name acc p = Ret acc'.
Proof.
  destruct p as [t | e | e | o]; simpl; try by eauto.
  destruct (eventOf t) as [event |]; [| by eauto].
  intros Hk. unfold push_transition, js_get.
  destruct (own_prop _ event); simpl; [by eauto |].
  destruct (inherited_key event); [done | by eauto].
Qed.

Lemma addParts_ok name acc opts :
  forallb part_ok opts = true → ∃ acc', addParts name acc opts = Ret acc'.
Proof.
  revert acc. induction opts as [| p opts IH]; intros acc; simpl; [by eauto |].
  intros [Hp Hopts]%andb_prop.
  destruct (addPart_ok name acc p Hp) as [acc1 ->]. simpl. by apply IH.
Qed.

Lemma part_transitions_on_inherited event opts :
  forallb part_ok opts = true →
  inherited_key event = true →
  part_transitions_on event opts = [].
Proof.
  intros Hok Hk. induction opts as [| p opts IH]; [done |].
  simpl in Hok. apply andb_prop in Hok as [Hp Hopts].
  unfold part_transitions_on. simpl.
  destruct p as [t | | |]; try by apply IH.
  case_decide as Hev; [| by apply IH].
  simpl in Hp. rewrite Hev, Hk in Hp. done.
Qed.

Lemma addParts_bad name acc good bad rest :
  parts_transitions acc = [] →
  forallb part_ok good = true →
  part_ok bad = false →
  addParts name acc (good ++ bad :: rest) = Throw (part_error name bad).
Proof.
  intros Hempty Hgood Hbad.
  destruct (addParts_ok name acc good Hgood) as [acc1 Hacc1].
  assert (Hstep : ∀ l, addParts name acc (good ++ l)
                       = (acc' ← addParts name acc good; addParts name acc' l)).
  { clear. revert acc. induction good as [| p good IH]; intros acc l; [done |].
    simpl. destruct (addPart name acc p); simpl; auto. }
  rewrite Hstep, Hacc1. simpl.
  destruct bad as [t | e | e | o]; simpl in *; try done.
  destruct (eventOf t) as [event |] eqn:Hev; [| done].
  apply negb_false_iff in Hbad.
  apply addParts_spec in Hacc1 as (_ & _ & _ & Ht).
  unfold push_transition, js_get.
  rewrite (Ht event), Hempty, part_transitions_on_inherited by done.
  simpl. by rewrite Hbad.
Qed.

End CreateState.

(** X1: a state node holds the parts it was declared with, kind by kind
    and in the order they were passed: its enter hooks, its exit hooks, its
    immediates, and under each event the transitions and internal
    transitions declared for that event (an event without any has no key).
    It is final-to-be exactly when no transition of any kind was passed. *)
Theorem createState_partitions (name : string) (opts : list StatePart)
    (state : MachineState) :
  createState name opts = Ret state →
  node_name state = name
  ∧ enter state = part_enters opts
  ∧ exit state = part_exits opts
  ∧ immediates state = Some (part_immediates opts)
  ∧ (∀ event,
       own_prop (transitions state) event
       = match part_transitions_on event opts with
         | [] => None
         | l => Some l
         end)
  ∧ (isFinal state = true
     ↔ ∀ t, PartTransition t ∉ opts).
Proof.
  unfold createState.
  destruct (addParts name _ opts) as [acc | |] eqn:Hacc; simpl; try done.
  intros [= <-]. simpl.
  apply addParts_spec in Hacc as (He & Hx & Hi & Ht). simpl in *.
  split_and!; [done | done | done | by rewrite Hi | |].
  - intros event. rewrite Ht. simpl. by destruct (part_transitions_on event opts).
  - rewrite isFinal_spec. simpl. rewrite Hi.
    split.
    + intros [Htr Him] t Hin.
      destruct (eventOf t) as [event |] eqn:Hev.
      * specialize (Ht event). rewrite Htr in Ht. simpl in Ht.
        assert (Hmem : t ∈ part_transitions_on event opts).
        { unfold part_transitions_on. apply list_elem_of_omap.
          exists (PartTransition t). split; [done |]. by rewrite decide_True. }
        destruct (part_transitions_on event opts); [by apply elem_of_nil in Hmem | done].
      * assert (Hmem : t ∈ part_immediates opts).
        { unfold part_immediates. apply list_elem_of_omap.
          exists (PartTransition t). split; [done |]. by rewrite Hev. }
        simplify_eq. destruct (part_immediates opts); [by apply elem_of_nil in Hmem | done].
    + intros Hnone. split.
      * destruct (parts_transitions acc) as [| [event l] rest] eqn:Htr; [done |].
        exfalso. specialize (Ht event). simpl in Ht.
        rewrite String.eqb_refl in Ht.
        destruct (part_transitions_on event opts) as [| t l'] eqn:Hon; [done |].
        assert (Hmem : t ∈ part_transitions_on event opts) by (rewrite Hon; left).
        unfold part_transitions_on in Hmem.
        apply list_elem_of_omap in Hmem as (p & Hp & Hpt).
        destruct p as [t' | | |]; try done. case_decide; [| done].
        simplify_eq. by eapply Hnone.
      * f_equal. destruct (part_immediates opts) as [| t l'] eqn:Him; [done |].
        exfalso.
        assert (Hmem : t ∈ part_immediates opts) by (rewrite Him; left).
        unfold part_immediates in Hmem.
        apply list_elem_of_omap in Hmem as (p & Hp & Hpt).
        destruct p as [t' | | |]; try done.
        destruct (eventOf t'); [done |]. simplify_eq. by eapply Hnone.
Qed.

Lemma createState_partitions_witness :
  createState "fourth" fourth_parts = Ret fourth_node
  ∧ enter fourth_node = part_enters fourth_parts
  ∧ exit fourth_node = part_exits fourth_parts
  ∧ own_prop (transitions fourth_node) "assign"
    = Some [Internal "assign" [] [assign_payload]].
Proof.
  assert (H : createState "fourth" fourth_parts = Ret fourth_node) by reflexivity.
  split; [exact H |].
  destruct (createState_partitions "fourth" fourth_parts fourth_node H)
    as (_ & He & Hx & _ & Ht & _).
  split; [exact He |]. split; [exact Hx |]. exact (Ht "assign").
Defined.

(** X2: [createState] returns a state node when every part is a product of
    the builders whose event, if it has one, is not a name that plain
    objects inherit; otherwise the first part that is not decides the
    error: the unknown-part [Error] naming the state for a part of no
    builder, a [TypeError] for a transition on an inherited name such as
    ["constructor"].  Parts after the failing one play no role. *)
Theorem createState_outcome (name : string) (opts : list StatePart) :
  (forallb part_ok opts = true → ∃ state, createState name opts = Ret state)
  ∧ (∀ good bad rest,
       opts = good ++ bad :: rest →
       forallb part_ok good = true →
       part_ok bad = false →
       createState name opts = Throw (part_error name bad)).
Proof.
  split.
  - intros Hok. unfold createState.
    destruct (addParts_ok name (mkStateParts [] [] [] []) opts Hok) as [acc ->].
    simpl. eauto.
  - intros good bad rest -> Hgood Hbad. unfold createState.
    by rewrite (addParts_bad name (mkStateParts [] [] [] []) good bad rest eq_refl Hgood Hbad).
Qed.

Lemma createState_outcome_witness :
  (forallb part_ok fourth_parts = true
   ∧ ∃ state, createState "fourth" fourth_parts = Ret state)
  ∧ (inherited_event_parts
     = [PartEnter (createEnter (Some []))]
       ++ PartTransition (External "constructor" "b" [] []) :: [PartOther ∅]
     ∧ forallb part_ok [PartEnter (createEnter (Some []))] = true
     ∧ part_ok (PartTransition (External "constructor" "b" [] [])) = false
     ∧ createState "a" inherited_event_parts
       = Throw (TypeError "transitions[event].push is not a function"))
  ∧ createState "a" other_parts
    = Throw (Error "State 'a' should be passed one of enter(), exit(), transition(), immediate() or internal()").
Proof.
  split; [split; [reflexivity |] |].
  - exact (proj1 (createState_outcome "fourth" fourth_parts) eq_refl).
  - split.
    + split; [reflexivity |]. split; [reflexivity |]. split; [reflexivity |].
      exact (proj2 (createState_outcome "a" inherited_event_parts)
               [PartEnter (createEnter (Some []))]
               (PartTransition (External "constructor" "b" [] []))
               [PartOther ∅] eq_refl eq_refl eq_refl).
    + exact (proj2 (createState_outcome "a" other_parts)
               [PartExit (createExit (Some []))] (PartOther ∅)
               [PartTransition (External "constructor" "b" [] [])]
               eq_refl eq_refl eq_refl).
Defined.

Section Validate.

Implicit Types (machine : Machine) (targets : list Value).

Lemma check_targets_app machine targets1 targets2 :
  check_targets machine (targets1 ++ targets2)
  = (_ ← check_targets machine targets1; check_targets machine targets2).
Proof.
  induction targets1 as [| t targets1 IH]; simpl; [done |].
  by destruct (target_missing machine t).
Qed.

Lemma validate_immediates_check machine l :
  validate_immediates machine l = check_targets machine (targetOf <$> l).
Proof.
  induction l as [| t l IH]; simpl; [done |].
  by destruct (target_missing machine (targetOf t)).
Qed.

Lemma validate_transitions_check machine l :
  validate_transitions machine l
  = check_targets machine
      (targetOf <$> filter (fun t => isInternal t = false) l).
Proof.
  induction l as [| t l IH]; simpl; [done |].
  rewrite filter_cons. case_decide as Hi.
  - rewrite Hi. simpl. by destruct (target_missing machine (targetOf t)).
  - apply not_false_is_true in Hi. by rewrite Hi.
Qed.

Lemma validate_events_check machine entries :
  validate_events machine entries
  = check_targets machine
      (targetOf <$> filter (fun t => isInternal t = false)
                           (concat (snd <$> entries))).
Proof.
  induction entries as [| [event l] entries IH]; simpl; [done |].
  rewrite filter_app, fmap_app, check_targets_app, validate_transitions_check.
  by rewrite IH.
Qed.

Lemma validate_states_check machine entries :
  validate_states machine entries
  = check_targets machine (concat (checked_targets <$> (snd <$> entries))).
Proof.
  induction entries as [| [key state] entries IH]; [done |].
  cbn [validate_states]. rewrite !fmap_cons. cbn [concat snd].
  rewrite check_targets_app, <- IH. unfold checked_targets.
  rewrite check_targets_app, validate_events_check.
  destruct (immediates state) as [l |]; simpl.
  - rewrite validate_immediates_check.
    by destruct (check_targets machine (targetOf <$> l)) as [[] | |].
  - by destruct (check_targets machine _) as [[] | |].
Qed.

Lemma validate_check machine :
  validate machine = check_targets machine (all_checked_targets machine).
Proof. apply validate_states_check. Qed.

Lemma check_targets_ok machine targets :
  check_targets machine targets = Ret tt
  ↔ ∀ target, target ∈ targets → target_missing machine target = false.
Proof.
  induction targets as [| t targets IH]; simpl.
  - split; [| done]. intros _ target Hin. by apply elem_of_nil in Hin.
  - destruct (target_missing machine t) eqn:Ht.
    + split; [done |]. intros H. specialize (H t (list_elem_of_here _ _)).
      congruence.
    + rewrite IH. split.
      * intros H target [-> | Hin]%elem_of_cons; auto.
      * intros H target Hin. apply H. by right.
Qed.

Lemma check_targets_first machine ok bad rest :
  (∀ target, target ∈ ok → target_missing machine target = false) →
  target_missing machine bad = true →
  check_targets machine (ok ++ bad :: rest) = Throw (invalid_target_error bad).
Proof.
  intros Hok Hbad. rewrite check_targets_app.
  rewrite (proj2 (check_targets_ok machine ok) Hok). simpl. by rewrite Hbad.
Qed.

(** What [validate] has checked of one state node of a machine it
    accepts. *)
Lemma validated_node machine key state :
  validate machine = Ret tt →
  (key, state) ∈ states machine →
  ∀ target, target ∈ checked_targets state →
            target_missing machine target = false.
Proof.
  rewrite validate_check, check_targets_ok. intros H Hin target Ht.
  apply H. unfold all_checked_targets. apply list_elem_of_In, in_concat.
  exists (checked_targets state). split; [| by apply list_elem_of_In].
  apply list_elem_of_In, list_elem_of_fmap. exists state. split; [done |].
  apply list_elem_of_fmap. by exists (key, state).
Qed.

End Validate.

(** X3: [validate] looks up, state node by state node in key order, the
    targets of the immediates and then, event by event, the targets of the
    transitions that are not internal.  It returns exactly when none of
    them is missing from [machine.states]; otherwise it throws the
    invalid-target [Error] of the first one that is missing. *)
Theorem validate_reports_the_first_missing_target (machine : Machine) :
  (validate machine = Ret tt
   ↔ ∀ target, target ∈ all_checked_targets machine →
               target_missing machine target = false)
  ∧ (∀ ok bad rest,
       all_checked_targets machine = ok ++ bad :: rest →
       (∀ target, target ∈ ok → target_missing machine target = false) →
       target_missing machine bad = true →
       validate machine = Throw (invalid_target_error bad)).
Proof.
  rewrite validate_check. split; [apply check_targets_ok |].
  intros ok bad rest -> Hok Hbad. by apply check_targets_first.
Qed.

Lemma validate_reports_the_first_missing_target_witness :
  (validate complex_machine = Ret tt
   ∧ ∀ target, target ∈ all_checked_targets complex_machine →
               target_missing complex_machine target = false)
  ∧ all_checked_targets missing_target_machine = [] ++ VStr "missing" :: []
  ∧ (∀ target, target ∈ [] → target_missing missing_target_machine target = false)
  ∧ target_missing missing_target_machine (VStr "missing") = true
  ∧ validate missing_target_machine
    = Throw (Error "Invalid transition target 'missing'").
Proof.
  assert (Hnil : ∀ target : Value,
            target ∈ [] → target_missing missing_target_machine target = false).
  { intros target Hin. by apply elem_of_nil in Hin. }
  split.
  - split; [reflexivity |].
    exact (proj1 (proj1 (validate_reports_the_first_missing_target complex_machine))
             eq_refl).
  - split; [reflexivity |]. split; [exact Hnil |]. split; [reflexivity |].
    exact (proj2 (validate_reports_the_first_missing_target missing_target_machine)
             [] (VStr "missing") [] eq_refl Hnil eq_refl).
Defined.

(** X4: a target named like a property that plain objects inherit
    (["constructor"], ["toString"], ...) and declared by no state is not
    missing for [validate]; the external transition to it throws a
    [TypeError] once the exit hooks and its own reducers have run. *)
Theorem inherited_target_passes_validate (fuel : nat) (machine : Machine)
    (curr : StateObject) (ev : EventObject) (T : Transition) (b : string) :
  isInternal T = false →
  targetOf T = VStr b →
  inherited_key b = true →
  own_prop (states machine) b = None →
  target_missing machine (targetOf T) = false
  ∧ ∀ exits next,
      exitsToRun (js_get (states machine) (ToString (name curr))) = Some exits →
      applyReducers (set_name curr (VStr b)) ev
        (concat (exit_reducers <$> exits) ++ reducersOf T) = Ret next →
      applyTransition (S fuel) machine curr ev T
      = Throw (TypeError "nextState.enter is not iterable").
Proof.
  intros HT Htarget Hb Hown.
  assert (Hget : js_get (states machine) b = Inherited).
  { unfold js_get. by rewrite Hown, Hb. }
  split.
  - unfold target_missing. rewrite Htarget. simpl. by rewrite Hget.
  - intros exits next Hexits Hnext.
    cbn [applyTransition]. rewrite HT, Htarget. cbv beta iota zeta.
    cbn [ToString]. rewrite Hget.
    rewrite applyReducers_app, applyReducers_set_name in Hnext.
    assert (Hx : (if false then Ret curr
                  else match js_get (states machine) (ToString (name curr)) with
                       | Own currState => applyExits curr ev (exit currState)
                       | Inherited => Throw (TypeError "currState.exit is not iterable")
                       | Absent => Ret curr
                       end)
                 = applyReducers curr ev (concat (exit_reducers <$> exits))).
    { destruct (js_get (states machine) (ToString (name curr))) as [currState | |];
        simpl in Hexits; simplify_eq; [apply applyExits_concat | done]. }
    cbv beta iota in Hx. rewrite Hx. clear Hx.
    destruct (applyReducers curr ev (concat (exit_reducers <$> exits)))
      as [x | |]; cbn [mbind res_bind] in *; try done.
    by rewrite Hnext.
Qed.

Lemma inherited_target_passes_validate_witness :
  isInternal to_toString = false
  ∧ targetOf to_toString = VStr "toString"
  ∧ inherited_key "toString" = true
  ∧ own_prop (states inherited_target_machine) "toString" = None
  ∧ validate inherited_target_machine = Ret tt
  ∧ applyTransition 1 inherited_target_machine (at_state "a" ∅) go to_toString
    = Throw (TypeError "nextState.enter is not iterable").
Proof.
  split; [reflexivity |]. split; [reflexivity |]. split; [reflexivity |].
  split; [reflexivity |]. split; [reflexivity |].
  exact (proj2 (inherited_target_passes_validate 0 inherited_target_machine
                  (at_state "a" ∅) go to_toString "toString"
                  eq_refl eq_refl eq_refl eq_refl)
           [] (at_state "toString" ∅) eq_refl eq_refl).
Defined.

Section NeverThrows.

Context (machine : Machine).
Hypothesis Hvalid : validate machine = Ret tt.
Hypothesis Hplain : plain_targets machine.
Hypothesis Hquiet : quiet machine.

Implicit Types (curr next : StateObject) (ev : EventObject) (T : Transition).

Lemma quiet_applyReducers next ev rs :
  Forall quiet_reducer rs →
  ∃ n, applyReducers next ev rs = Ret n ∧ name n = name next.
Proof.
  intros H. revert next. induction H as [| r rs Hr _ IH]; intros next; simpl.
  - by exists next.
  - destruct (Hr (context next) ev) as [[c |] ->]; simpl.
    + destruct (IH (set_context next c)) as (n & -> & Hn). by exists n.
    + apply IH.
Qed.

Lemma quiet_checkGuards ctx ev T :
  Forall quiet_guard (guardsOf T) → ∃ b, checkGuards ctx ev T = Ret b.
Proof.
  rewrite checkGuards_every. induction 1 as [| g gs Hg _ IH]; simpl; [by eauto |].
  destruct (Hg ctx ev) as [[|] ->]; simpl; eauto.
Qed.

Lemma quiet_selectCandidate ctx ev candidates :
  Forall quiet_transition candidates →
  ∃ c, selectCandidate ctx ev candidates = Ret c
       ∧ ∀ T, c = Some T → T ∈ candidates.
Proof.
  induction 1 as [| T candidates [HT _] _ IH]; simpl.
  - exists None. by split.
  - destruct (quiet_checkGuards ctx ev T HT) as [[|] ->]; simpl.
    + exists (Some T). split; [done |]. intros ? [= <-]. left.
    + destruct IH as (c & -> & Hc). exists c. split; [done |].
      intros T' HT'. right. auto.
Qed.

Lemma own_node_quiet k node :
  own_prop (states machine) k = Some node → quiet_node node.
Proof.
  intros H%own_prop_elem_of.
  unfold quiet in Hquiet. rewrite Forall_forall in Hquiet.
  exact (Hquiet _ H).
Qed.

Lemma quiet_concat_exits node :
  quiet_node node → Forall quiet_reducer (concat (exit_reducers <$> exit node)).
Proof.
  intros (_ & _ & Hx). induction Hx as [| x xs Hx _ IH]; simpl; [constructor |].
  by apply Forall_app.
Qed.

Lemma quiet_concat_enters node :
  quiet_node node → Forall quiet_reducer (concat (enter_reducers <$> enter node)).
Proof.
  intros (_ & He & _). induction He as [| x xs Hx _ IH]; simpl; [constructor |].
  by apply Forall_app.
Qed.

(** In a validated machine a transition held by a state node leads to a
    state node. *)
Lemma checked_target_own k node T :
  own_prop (states machine) k = Some node →
  T ∈ node_transitions node →
  isInternal T = false →
  ∃ b nextState, targetOf T = VStr b
                 ∧ js_get (states machine) b = Own nextState.
Proof.
  intros Hnode HT Hint.
  destruct (targetOf_external T Hint) as [b Hb]. exists b.
  assert (Hchecked : targetOf T ∈ checked_targets node).
  { unfold checked_targets, node_transitions in *.
    apply elem_of_app in HT as [HT | HT]; apply elem_of_app; [left | right].
    - apply list_elem_of_fmap. by exists T.
    - apply list_elem_of_fmap. exists T. split; [done |].
      by apply list_elem_of_filter. }
  pose proof (validated_node machine k node Hvalid
                (own_prop_elem_of _ _ _ Hnode) _ Hchecked) as Hmiss.
  assert (Hnot : inherited_key (ToString (targetOf T)) = false).
  { unfold plain_targets in Hplain. rewrite Forall_forall in Hplain.
    apply Hplain. unfold all_checked_targets.
    apply list_elem_of_In, in_concat. exists (checked_targets node).
    split; [| by apply list_elem_of_In].
    apply list_elem_of_In, list_elem_of_fmap. exists node. split; [done |].
    apply list_elem_of_fmap. exists (k, node). split; [done |].
    by apply own_prop_elem_of. }
  unfold target_missing in Hmiss. rewrite Hb in *. simpl in *.
  unfold js_get in *. destruct (own_prop (states machine) b) as [nextState |];
    [by eauto |].
  by rewrite Hnot in Hmiss.
Qed.

Lemma settled_no_throw fuel ev node next e
    (K : StateObject → res (StateObject * option (list Effect))) :
  quiet_node node →
  (∀ n' T, name n' = name next → T ∈ default [] (immediates node) →
           applyTransition fuel machine n' ev T ≠ Throw e) →
  (∀ n', K n' ≠ Throw e) →
  (candidate ← immediateCandidate node (context next) ev;
   match candidate with
   | Some candidate => applyTransition fuel machine next ev candidate
   | None => K next
   end) ≠ Throw e.
Proof.
  intros Hnode Hrec HK. unfold immediateCandidate.
  destruct (immediates node) as [candidates |] eqn:Himm; simpl; [| apply HK].
  assert (Hq : Forall quiet_transition candidates).
  { destruct Hnode as (Hq & _). unfold node_transitions in Hq.
    rewrite Himm in Hq. simpl in Hq. by apply Forall_app in Hq as [Hq _]. }
  destruct (quiet_selectCandidate (context next) ev candidates Hq)
    as ([T |] & -> & HT); simpl; [| apply HK].
  apply Hrec; [done |]. by apply HT.
Qed.

Lemma applyTransition_no_throw fuel curr ev T e :
  js_get (states machine) (ToString (name curr)) ≠ Inherited →
  quiet_transition T →
  (if isInternal T
   then ∃ node, js_get (states machine) (ToString (name curr)) = Own node
   else ∃ b node, targetOf T = VStr b ∧ js_get (states machine) b = Own node) →
  applyTransition fuel machine curr ev T ≠ Throw e.
Proof.
  revert curr T. induction fuel as [| fuel IH]; intros curr T Hcurr HT Htarget;
    [done |].
  assert (Hrec : ∀ k node n' T',
            js_get (states machine) k = Own node →
            ToString (name n') = k →
            T' ∈ default [] (immediates node) →
            applyTransition fuel machine n' ev T' ≠ Throw e).
  { intros k node n' T' Hnode Hn' HT'.
    apply js_get_Own in Hnode.
    assert (Hin : T' ∈ node_transitions node).
    { unfold node_transitions. apply elem_of_app. by left. }
    apply IH.
    - rewrite Hn'. unfold js_get. by rewrite Hnode.
    - destruct (own_node_quiet k node Hnode) as (Hq & _).
      rewrite Forall_forall in Hq. by apply Hq.
    - destruct (isInternal T') eqn:Hint.
      + exists node. rewrite Hn'. unfold js_get. by rewrite Hnode.
      + destruct (checked_target_own k node T' Hnode Hin Hint)
          as (b & nextState & Hb & Hnext). by exists b, nextState. }
  destruct HT as [_ HTr].
  destruct (isInternal T) eqn:Hint.
  - destruct Htarget as [node Hnode].
    rewrite (applyTransition_internal fuel machine curr ev T node Hint Hnode).
    destruct (quiet_applyReducers curr ev (reducersOf T) HTr) as (n & -> & Hn).
    cbn [mbind res_bind].
    apply (settled_no_throw fuel ev node n e
             (fun n => Ret (settle node n, None))); [| | done].
    + apply js_get_Own in Hnode. by eapply own_node_quiet.
    + intros n' T' Hn' HT'. eapply Hrec; [exact Hnode | | done].
      by rewrite Hn', Hn.
  - destruct Htarget as (b & node & Hb & Hnode).
    assert (Hexits : ∃ exits,
              exitsToRun (js_get (states machine) (ToString (name curr)))
              = Some exits
              ∧ Forall quiet_reducer (concat (exit_reducers <$> exits))).
    { destruct (js_get (states machine) (ToString (name curr)))
        as [currState | |] eqn:Hc; [| done |].
      - exists (exit currState). split; [done |].
        apply js_get_Own in Hc. eapply quiet_concat_exits, own_node_quiet, Hc.
      - exists []. split; [done | constructor]. }
    destruct Hexits as (exits & Hexits & Hqx).
    rewrite (applyTransition_external fuel machine curr ev T b node exits
               Hint Hb Hexits Hnode).
    assert (Hqn : quiet_node node).
    { apply js_get_Own in Hnode. by eapply own_node_quiet. }
    assert (Hqs : Forall quiet_reducer (stepReducers exits T (enter node))).
    { unfold stepReducers. apply Forall_app. split; [done |].
      apply Forall_app. split; [done |]. by apply quiet_concat_enters. }
    destruct (quiet_applyReducers (set_name curr (VStr b)) ev _ Hqs)
      as (n & -> & Hn).
    cbn [mbind res_bind].
    apply (settled_no_throw fuel ev node n e
             (fun n => Ret (settle node n, Some (collectEffects ev (enter node)))));
      [done | | done].
    intros n' T' Hn' HT'. eapply Hrec; [exact Hnode | | done].
    by rewrite Hn', Hn.
Qed.

Lemma falsy_name_not_inherited v :
  truthy v = false → inherited_key (ToString v) = false.
Proof.
  destruct v as [| | [|] | n | s | l]; simpl; try done.
  - intros H. apply negb_false_iff, Z.eqb_eq in H as ->. reflexivity.
  - intros H. apply negb_false_iff, String.eqb_eq in H as ->. reflexivity.
Qed.

Lemma dispatch_no_throw fuel st ev e :
  inherited_key (ToString (prop ev "type")) = false →
  dispatch fuel machine st ev ≠ Throw e.
Proof.
  intros Hev. unfold dispatch.
  destruct (js_get (states machine) (ToString (name st))) as [node | |] eqn:Hnode.
  2, 3: unfold js_get; simpl; by rewrite Hev.
  destruct (js_get (transitions node) _) as [candidates | |] eqn:Hc; [| | done].
  2: { apply js_get_Inherited in Hc as [_ Hc]. congruence. }
  apply js_get_Own in Hc. pose proof Hnode as Hown. apply js_get_Own in Hown.
  assert (Hsub : ∀ T, T ∈ candidates → T ∈ node_transitions node).
  { intros T HT. unfold node_transitions. apply elem_of_app. right.
    apply list_elem_of_In, in_concat. exists candidates.
    split; [| by apply list_elem_of_In].
    apply list_elem_of_In, list_elem_of_fmap.
    exists (ToString (prop ev "type"), candidates). split; [done |].
    by apply own_prop_elem_of. }
  destruct (own_node_quiet _ node Hown) as (Hq & _).
  rewrite Forall_forall in Hq.
  assert (Hqc : Forall quiet_transition candidates).
  { apply Forall_forall. intros T HT. apply Hq. by apply Hsub. }
  destruct (quiet_selectCandidate (context st) ev candidates Hqc)
    as ([T |] & -> & HT); simpl; [| done].
  specialize (HT T eq_refl).
  apply applyTransition_no_throw.
  - by rewrite Hnode.
  - by apply Hq, Hsub.
  - destruct (isInternal T) eqn:Hint; [by exists node |].
    destruct (checked_target_own _ node T Hown (Hsub T HT) Hint)
      as (b & nextState & Hb & Hnext). by exists b, nextState.
Qed.

Lemma transition_no_throw fuel st E e :
  inherited_key (ToString (prop (toEventObject E) "type")) = false →
  transition fuel machine st E ≠ Throw e.
Proof.
  intros Hev. unfold transition.
  destruct (negb (truthy (name st)) && _) eqn:Hinit;
    [| by apply dispatch_no_throw].
  destruct (states machine) as [| [k node] rest] eqn:Hstates;
    [by apply dispatch_no_throw |].
  cbn [createImmediate assertString mbind res_bind].
  apply andb_prop in Hinit as [Hname _]. apply negb_true_iff in Hname.
  apply applyTransition_no_throw.
  - unfold js_get. rewrite (falsy_name_not_inherited _ Hname).
    by destruct (own_prop _ _).
  - split; constructor.
  - simpl. exists k, node. split; [done |].
    unfold js_get. rewrite Hstates. simpl. by rewrite String.eqb_refl.
Qed.

End NeverThrows.

(** X5: what [validate] buys.  In a machine that [validate] accepts, whose
    targets are not names that plain objects inherit and whose guards and
    reducers return, no step of [transition] throws, whatever the state it
    is given and whatever the event, provided the event type is not such a
    name either: every transition it takes, through any chain of
    immediates, finds the state node it leads to.  (It returns, unless the
    chain of immediates does not end.) *)
Theorem validated_machine_never_throws (fuel : nat) (machine : Machine)
    (state : StateObject) (event : EventArg) (e : Exn) :
  validate machine = Ret tt →
  plain_targets machine →
  quiet machine →
  inherited_key (ToString (prop (toEventObject event) "type")) = false →
  transition fuel machine state event ≠ Throw e.
Proof.
  intros Hvalid Hplain Hquiet Hev. by apply transition_no_throw.
Qed.

Lemma validated_machine_never_throws_witness :
  validate complex_machine = Ret tt
  ∧ plain_targets complex_machine
  ∧ quiet complex_machine
  ∧ inherited_key (ToString (prop (toEventObject (payload "goToSecond" 1)) "type"))
    = false
  ∧ transition 3 complex_machine (at_state "initial" ∅) (payload "goToSecond" 1)
    ≠ Throw (TypeError "Cannot read properties of undefined").
Proof.
  assert (Hplain : plain_targets complex_machine).
  { unfold plain_targets. simpl. repeat constructor. }
  assert (Hquiet : quiet complex_machine).
  { unfold quiet, quiet_node, quiet_transition, node_transitions. simpl.
    repeat first [ apply Forall_nil_2 | apply Forall_cons_2 | split
                 | (intros ? ?; eexists; reflexivity) ]. }
  split; [reflexivity |]. split; [exact Hplain |]. split; [exact Hquiet |].
  split; [reflexivity |].
  exact (validated_machine_never_throws 3 complex_machine (at_state "initial" ∅)
           (payload "goToSecond" 1) _ eq_refl Hplain Hquiet eq_refl).
Defined.

Section CreateMachine.

Implicit Types (machine : Machine) (prototype : option MachineState)
  (calls : Description) (name : string).

Lemma declareStates_spec machine prototype calls machine' prototype' :
  declareStates machine prototype calls = Ret (machine', prototype') →
  (∀ name, name ∉ calls.*1 ∨ name = "__proto__" →
           own_prop (states machine') name = own_prop (states machine) name)
  ∧ (∀ before name opts after,
       calls = before ++ (name, opts) :: after →
       name ∉ after.*1 →
       ∃ state, createState name opts = Ret state
                ∧ if String.eqb name "__proto__" then prototype' = Some state
                  else own_prop (states machine') name = Some state)
  ∧ ("__proto__" ∉ calls.*1 → prototype' = prototype).
Proof.
  revert machine prototype.
  induction calls as [| [n o] calls IH]; intros machine prototype; simpl.
  - intros [= <- <-]. split; [done |]. split; [| done].
    intros before name opts after Hcalls. by destruct before.
  - destruct (createState n o) as [s | |] eqn:Hs; simpl; try done.
    destruct (String.eqb n "__proto__") eqn:Hn.
    + apply String.eqb_eq in Hn as ->.
      intros H. apply IH in H as (Hout & Hin & Hkeep). split_and!.
      * intros name [Hname | ->]; apply Hout; [| by right].
        left. by apply not_elem_of_cons in Hname as [_ Hname].
      * intros before name opts after Hcalls Hafter.
        destruct before as [| c before]; simpl in Hcalls.
        -- simplify_eq. exists s. split; [done |]. simpl. by apply Hkeep.
        -- simplify_eq. by eapply Hin.
      * intros Hnot. exfalso. apply Hnot. left.
    + apply String.eqb_neq in Hn.
      intros H. apply IH in H as (Hout & Hin & Hkeep). simpl in *. split_and!.
      * intros name Hname.
        assert (Hne : n ≠ name).
        { destruct Hname as [Hname | ->]; [| done].
          apply not_elem_of_cons in Hname as [Hname _]. congruence. }
        rewrite Hout, own_prop_js_set; [by rewrite decide_False |].
        destruct Hname as [Hname | ->]; [| by right].
        left. by apply not_elem_of_cons in Hname as [_ Hname].
      * intros before name opts after Hcalls Hafter.
        destruct before as [| c before]; simpl in Hcalls.
        -- simplify_eq. exists s. split; [done |].
           apply String.eqb_neq in Hn. rewrite Hn.
           rewrite Hout by (by left). rewrite own_prop_js_set.
           by rewrite decide_True.
        -- simplify_eq. by eapply Hin.
      * intros Hnot. apply Hkeep. by apply not_elem_of_cons in Hnot as [_ Hnot].
Qed.


Lemma js_replace_head {A} (o : list (string * A)) k a k' a' :
  ∃ a'' tail, js_replace ((k, a) :: o) k' a' = (k, a'') :: tail.
Proof.
  simpl. destruct (String.eqb k k') eqn:Hk; [| by eauto].
  apply String.eqb_eq in Hk as ->. by eauto.
Qed.

Lemma js_set_head {A} (o : list (string * A)) k a k' a' :
  array_index k' = None →
  ∃ a'' tail, js_set ((k, a) :: o) k' a' = (k, a'') :: tail.
Proof.
  intros Hk'. unfold js_set.
  destruct (own_prop ((k, a) :: o) k'); [apply js_replace_head |].
  rewrite Hk'. simpl. by eauto.
Qed.

Lemma declareStates_head machine prototype calls machine' prototype' k a tail :
  declareStates machine prototype calls = Ret (machine', prototype') →
  Forall (fun n => array_index n = None) calls.*1 →
  states machine = (k, a) :: tail →
  ∃ a' tail', states machine' = (k, a') :: tail'.
Proof.
  revert machine prototype a tail.
  induction calls as [| [n o] calls IH]; intros machine prototype a tail; simpl.
  - intros [= <- _] _ ->. by eauto.
  - destruct (createState n o) as [s | |]; simpl; try done.
    intros H [Hn Hcalls]%Forall_cons Hstates.
    destruct (String.eqb n "__proto__"); [by eapply IH |].
    destruct (js_set_head tail k a n s Hn) as (a'' & tail'' & Hset).
    eapply IH; [exact H | done |]. simpl. rewrite Hstates. exact Hset.
Qed.

(** What [createMachine] has done when it returns a machine. *)
Lemma createMachine_compiled calls machine prototype :
  compiled (createMachine (Some calls)) = Some (machine, prototype) →
  declareStates (mkMachine []) None calls = Ret (machine, prototype)
  ∧ match prototype with
    | None => validate machine = Ret tt
    | Some node => validate_under node machine = Ret tt
    end.
Proof.
  unfold createMachine. simpl.
  destruct (declareStates (mkMachine []) None calls)
    as [[declared [node |]] | |]; try done.
  - destruct (validate_under node declared) as [[] | |] eqn:Hv; try done.
    simpl. by intros [= <- <-].
  - destruct (validate declared) as [[] | |] eqn:Hv; try done.
    simpl. by intros [= <- <-].
Qed.


End CreateMachine.

(** X6: when [createMachine] returns a machine, [machine.states] has an own
    entry for each name the description declared other than ["__proto__"],
    and for no other name; a name declared more than once holds the node of
    its last declaration.  A state declared under the name ["__proto__"]
    gets no entry: the node of its last declaration is the prototype of
    [machine.states], which keeps the prototype of plain objects when no
    state has that name.  And [validate] has accepted the machine, reading
    [machine.states] through that prototype. *)
Theorem createMachine_declared_states (calls : Description) (machine : Machine)
    (prototype : option MachineState) :
  compiled (createMachine (Some calls)) = Some (machine, prototype) →
  (∀ name, name ∉ calls.*1 ∨ name = "__proto__" →
           own_prop (states machine) name = None)
  ∧ (∀ before name opts after,
       calls = before ++ (name, opts) :: after →
       name ∉ after.*1 →
       ∃ state, createState name opts = Ret state
                ∧ if String.eqb name "__proto__" then prototype = Some state
                  else own_prop (states machine) name = Some state)
  ∧ ("__proto__" ∉ calls.*1 → prototype = None)
  ∧ match prototype with
    | None => validate machine = Ret tt
    | Some node => validate_under node machine = Ret tt
    end.
Proof.
  intros [Hd Hv]%createMachine_compiled.
  apply declareStates_spec in Hd as (Hout & Hin & Hkeep).
  split_and!; [| done | done | done].
  intros name Hname. by rewrite (Hout name Hname).
Qed.

Lemma createMachine_declared_states_witness :
  (compiled (createMachine (Some twice_description)) = Some (twice_machine, None)
   ∧ own_prop (states twice_machine) "c" = None
   ∧ ∃ state,
       createState "a" [PartTransition (External "back" "b" [] [])] = Ret state
       ∧ own_prop (states twice_machine) "a" = Some state)
  ∧ compiled (createMachine (Some proto_description))
    = Some (proto_machine, Some proto_node)
  ∧ own_prop (states proto_machine) "__proto__" = None
  ∧ ∃ state, createState "__proto__" [] = Ret state ∧ Some proto_node = Some state.
Proof.
  assert (H : compiled (createMachine (Some twice_description))
              = Some (twice_machine, None)) by reflexivity.
  assert (H' : compiled (createMachine (Some proto_description))
               = Some (proto_machine, Some proto_node)) by reflexivity.
  destruct (createMachine_declared_states twice_description twice_machine None H)
    as (Hout & Hin & _).
  destruct (createMachine_declared_states proto_description proto_machine
              (Some proto_node) H') as (Hout' & Hin' & _).
  split; [split; [exact H |]; split |].
  - apply Hout. left. simpl. intros Hc.
    repeat (apply elem_of_cons in Hc as [Hc | Hc]; [discriminate Hc |]).
    by apply elem_of_nil in Hc.
  - apply (Hin [("a", [PartTransition (External "go" "b" [] [])]); ("b", [])]
               "a" [PartTransition (External "back" "b" [] [])] [] eq_refl).
    simpl. apply not_elem_of_nil.
  - split; [exact H' |]. split; [apply Hout'; by right |].
    apply (Hin' [("a", [PartTransition (External "go" "b" [] [])])]
                "__proto__" [] [("b", [])] eq_refl).
    simpl. intros Hc.
    repeat (apply elem_of_cons in Hc as [Hc | Hc]; [discriminate Hc |]).
    by apply elem_of_nil in Hc.
Defined.



(** X8: when no declared name is an array index (a canonical number below
    [2^32 - 1], which [Object.keys] would list first) and the first state
    the description declares is not named ["__proto__"] (which would give it
    no entry), that state is the first key of [machine.states], also when a
    later state is named ["__proto__"].  When [machine.states] has kept the
    prototype of plain objects, the initial transition of the machine is
    then the immediate transition to that state, with no guard and no
    reducer. *)
Theorem initial_state_is_the_first_declared (fuel : nat) (first : string)
    (opts : list StatePart) (rest : Description) (machine : Machine)
    (prototype : option MachineState) (context : Context) :
  compiled (createMachine (Some ((first, opts) :: rest)))
  = Some (machine, prototype) →
  first ≠ "__proto__" →
  Forall (fun n => array_index n = None) (first :: rest.*1) →
  (∃ state tail, states machine = (first, state) :: tail)
  ∧ (prototype = None →
     transition fuel machine (mkStateObject VNull context false)
                (EventObj {[ "type" := VNull ]})
     = applyTransition fuel machine (mkStateObject VNull context false)
                       {[ "type" := VNull ]} (Immediate first [] [])).
Proof.
  intros [Hd _]%createMachine_compiled Hfirst Hnames.
  assert (Hhead : ∃ state tail, states machine = (first, state) :: tail).
  { simpl in Hd.
    destruct (createState first opts) as [s | |]; simpl in Hd; try done.
    apply String.eqb_neq in Hfirst. rewrite Hfirst in Hd.
    apply Forall_cons in Hnames as [Hindex Hrest].
    unfold js_set in Hd. simpl in Hd. rewrite Hindex in Hd. simpl in Hd.
    by eapply declareStates_head. }
  split; [exact Hhead |]. intros _.
  destruct Hhead as (state & tail & Hstates).
  unfold transition. rewrite Hstates. reflexivity.
Qed.

Lemma initial_state_is_the_first_declared_witness :
  compiled (createMachine (Some complex_description)) = Some (complex_machine, None)
  ∧ "initial" ≠ "__proto__"
  ∧ Forall (fun n => array_index n = None) complex_description.*1
  ∧ transition 1 complex_machine (mkStateObject VNull ∅ false)
               (EventObj {[ "type" := VNull ]})
    = applyTransition 1 complex_machine (mkStateObject VNull ∅ false)
                      {[ "type" := VNull ]} (Immediate "initial" [] []).
Proof.
  assert (H : compiled (createMachine (Some complex_description))
              = Some (complex_machine, None)) by reflexivity.
  assert (Hp : "initial" ≠ "__proto__") by discriminate.
  assert (Hn : Forall (fun n => array_index n = None) complex_description.*1).
  { simpl. repeat constructor. }
  split; [exact H |]. split; [exact Hp |]. split; [exact Hn |].
  exact (proj2 (initial_state_is_the_first_declared 1 "initial" _ _
                  complex_machine None ∅ H Hp Hn) eq_refl).
Defined.

Section KeyOrder.

Context {A : Type}.
Implicit Types (o : list (string * A)) (k : string) (a : A).







End KeyOrder.





Section Built.






End Built.



(* ===================================================================== *)
(** * Further properties of the engine and of hook lowering *)
(* ===================================================================== *)

Lemma transition_some_effects (fuel : nat) (machine : Machine)
    (state : StateObject) (E : EventArg) (next : StateObject)
    (effects : list Effect) :
  transition fuel machine state E = Ret (next, Some effects) →
  ∃ node,
    js_get (states machine) (ToString (name next)) = Own node
    ∧ effects = collectEffects (toEventObject E) (enter node).
Proof.
  intros H. unfold transition in H.
  assert (Hd : dispatch fuel machine state (toEventObject E)
               = Ret (next, Some effects) →
               ∃ node,
                 js_get (states machine) (ToString (name next)) = Own node
                 ∧ effects = collectEffects (toEventObject E) (enter node)).
  { unfold dispatch. intros Hd.
    destruct (js_get _ (ToString (prop (toEventObject E) "type")))
      as [candidates | |]; try done.
    destruct (selectCandidate _ _ candidates) as [[c |] | |];
      cbn [mbind res_bind] in Hd; try done.
    by eapply applyTransition_effects. }
  destruct (negb (truthy (name state)) && _); [| by apply Hd].
  destruct (states machine) as [| [k nd] rest] eqn:Hstates; [by apply Hd |].
  cbn [createImmediate assertString mbind res_bind] in H.
  rewrite <- Hstates. by eapply applyTransition_effects.
Qed.



Lemma transition_null_effects (fuel : nat) (machine : Machine)
    (state : StateObject) (E : EventArg) (next : StateObject) :
  external_immediates machine →
  transition fuel machine state E = Ret (next, None) →
  next = state
  ∨ ∃ node candidates T,
      js_get (states machine) (ToString (name state)) = Own node
      ∧ js_get (transitions node) (ToString (prop (toEventObject E) "type"))
        = Own candidates
      ∧ selectCandidate (context state) (toEventObject E) candidates
        = Ret (Some T)
      ∧ isInternal T = true
      ∧ applyReducers state (toEventObject E) (reducersOf T) = Ret next
      ∧ immediateCandidate node (context next) (toEventObject E) = Ret None.
Proof.
  intros Hext H. unfold transition in H.
  assert (Hd : dispatch fuel machine state (toEventObject E) = Ret (next, None) →
               next = state
               ∨ ∃ node candidates T,
                   js_get (states machine) (ToString (name state)) = Own node
                   ∧ js_get (transitions node)
                            (ToString (prop (toEventObject E) "type"))
                     = Own candidates
                   ∧ selectCandidate (context state) (toEventObject E) candidates
                     = Ret (Some T)
                   ∧ isInternal T = true
                   ∧ applyReducers state (toEventObject E) (reducersOf T)
                     = Ret next
                   ∧ immediateCandidate node (context next) (toEventObject E)
                     = Ret None).
  { unfold dispatch. intros Hd.
    destruct (js_get (states machine) (ToString (name state)))
      as [currState | |] eqn:Hcurr.
    2, 3: destruct (js_get _ (ToString (prop (toEventObject E) "type")))
            as [candidates | |] eqn:Hc;
          [by apply js_get_own_nonempty in Hc | done
          | injection Hd as <-; by left].
    destruct (js_get _ (ToString (prop (toEventObject E) "type")))
      as [candidates | |] eqn:Hcands; [| done | injection Hd as <-; by left].
    destruct (selectCandidate _ _ candidates) as [[T |] | |] eqn:Hsel;
      cbn [mbind res_bind] in Hd; try done; [| injection Hd as <-; by left].
    apply (applyTransition_null_effects _ _ _ _ _ _ Hext) in Hd
      as (Hint & node & n & Hnode & Hn & Hnone & ->).
    rewrite Hcurr in Hnode. injection Hnode as <-.
    rewrite settle_not_final by (by eapply js_get_own_nonempty).
    right. by exists currState, candidates, T. }
  destruct (negb (truthy (name state)) && _); [| by apply Hd].
  destruct (states machine) as [| [k nd] rest] eqn:Hstates; [by apply Hd |].
  cbn [createImmediate assertString mbind res_bind] in H.
  by apply (applyTransition_null_effects _ _ _ _ _ _ Hext) in H as [? _].
Qed.

Lemma transition_null_name (fuel : nat) (machine : Machine)
    (state : StateObject) (E : EventArg) (next : StateObject) :
  external_immediates machine →
  transition fuel machine state E = Ret (next, None) →
  name next = name state.
Proof.
  intros Hext H.
  destruct (transition_null_effects _ _ _ _ _ Hext H)
    as [-> | (node & candidates & T & _ & _ & _ & _ & Hn & _)]; [done |].
  by apply applyReducers_name_final in Hn as [-> _].
Qed.

(** X12: when [transition] hands back [null] for the effects (the caller
    keeps its running effects), in a machine whose immediates are products
    of [immediate], the state has kept its name, and one of two things
    happened.  Either nothing was taken and the state object is returned as
    it was; or the first transition of the state for the event whose guards
    pass is an internal one, the result is the state after the reducers of
    that transition, and no immediate of the state passes its guards on the
    reduced context. *)
Theorem null_effects_keep_the_state (fuel : nat) (machine : Machine)
    (state : StateObject) (E : EventArg) (next : StateObject) :
  external_immediates machine →
  transition fuel machine state E = Ret (next, None) →
  name next = name state
  ∧ (next = state
     ∨ ∃ node candidates T,
         js_get (states machine) (ToString (name state)) = Own node
         ∧ js_get (transitions node) (ToString (prop (toEventObject E) "type"))
           = Own candidates
         ∧ selectCandidate (context state) (toEventObject E) candidates
           = Ret (Some T)
         ∧ isInternal T = true
         ∧ applyReducers state (toEventObject E) (reducersOf T) = Ret next
         ∧ immediateCandidate node (context next) (toEventObject E) = Ret None).
Proof.
  intros Hext H.
  pose proof (transition_null_effects _ _ _ _ _ Hext H) as Hcases.
  split; [| exact Hcases].
  destruct Hcases as [-> | (node & candidates & T & _ & _ & _ & _ & Hn & _)];
    [done |].
  by apply applyReducers_name_final in Hn as [-> _].
Qed.

Lemma null_effects_keep_the_state_witness :
  external_immediates internal_then_immediate_machine
  ∧ transition 1 internal_then_immediate_machine (at_state "a" ∅) (EventName "stay")
    = Ret (at_state "a" (marks ["stayed"]), None)
  ∧ name (at_state "a" (marks ["stayed"])) = name (at_state "a" ∅)
  ∧ (at_state "a" (marks ["stayed"]) = at_state "a" ∅
     ∨ ∃ node candidates T,
         js_get (states internal_then_immediate_machine)
                (ToString (name (at_state "a" ∅))) = Own node
         ∧ js_get (transitions node)
                  (ToString (prop (toEventObject (EventName "stay")) "type"))
           = Own candidates
         ∧ selectCandidate (context (at_state "a" ∅))
                           (toEventObject (EventName "stay")) candidates
           = Ret (Some T)
         ∧ isInternal T = true
         ∧ applyReducers (at_state "a" ∅) (toEventObject (EventName "stay"))
                         (reducersOf T)
           = Ret (at_state "a" (marks ["stayed"]))
         ∧ immediateCandidate node (context (at_state "a" (marks ["stayed"])))
                              (toEventObject (EventName "stay"))
           = Ret None).
Proof.
  assert (Hext : external_immediates internal_then_immediate_machine).
  { unfold external_immediates. simpl. repeat constructor. }
  assert (H : transition 1 internal_then_immediate_machine (at_state "a" ∅)
                (EventName "stay")
              = Ret (at_state "a" (marks ["stayed"]), None)) by reflexivity.
  split; [exact Hext |]. split; [exact H |].
  exact (null_effects_keep_the_state 1 internal_then_immediate_machine
           (at_state "a" ∅) (EventName "stay") _ Hext H).
Defined.

(** X13: an immediate cycle is not detected.  If the first immediate of a
    state node is an unguarded immediate to the state itself, no transition
    into that state ever returns: whatever the exit, transition and enter
    hooks do, [applyTransition] calls itself again after each step. *)
Theorem unguarded_immediate_loop_never_settles (fuel : nat) (machine : Machine)
    (curr : StateObject) (ev : EventObject) (T : Transition) (b : string)
    (node : MachineState) (rs : list Reducer) (rest : list Transition)
    (result : StateObject * option (list Effect)) :
  js_get (states machine) b = Own node →
  immediates node = Some (Immediate b [] rs :: rest) →
  isInternal T = false →
  targetOf T = VStr b →
  applyTransition fuel machine curr ev T ≠ Ret result.
Proof.
  intros Hnode Himm. destruct result as [next effects]. revert curr T.
  induction fuel as [| fuel IH]; intros curr T Hint Htarget; [done |].
  intros H. apply applyTransition_step in H
    as (node' & n & Hnode' & Hn & [(c & Hc & Hrec) | (Hnone & _)]).
  - rewrite Hint, Htarget in Hnode'. simpl in Hnode'.
    rewrite Hnode in Hnode'. injection Hnode' as <-.
    unfold immediateCandidate in Hc. rewrite Himm in Hc. simpl in Hc.
    injection Hc as <-.
    exact (IH n (Immediate b [] rs) eq_refl eq_refl Hrec).
  - rewrite Hint, Htarget in Hnode'. simpl in Hnode'.
    rewrite Hnode in Hnode'. injection Hnode' as <-.
    unfold immediateCandidate in Hnone. rewrite Himm in Hnone. done.
Qed.

Lemma unguarded_immediate_loop_never_settles_witness :
  js_get (states spin_machine) "spin" = Own spin_node
  ∧ immediates spin_node = Some (Immediate "spin" [] [] :: [])
  ∧ isInternal (External "go" "spin" [] []) = false
  ∧ targetOf (External "go" "spin" [] []) = VStr "spin"
  ∧ validate spin_machine = Ret tt
  ∧ applyTransition 7 spin_machine (at_state "idle" ∅) go
      (External "go" "spin" [] [])
    ≠ Ret (at_state "spin" ∅, Some []).
Proof.
  split; [reflexivity |]. split; [reflexivity |]. split; [reflexivity |].
  split; [reflexivity |]. split; [reflexivity |].
  exact (unguarded_immediate_loop_never_settles 7 spin_machine (at_state "idle" ∅)
           go (External "go" "spin" [] []) "spin" spin_node [] []
           (at_state "spin" ∅, Some []) eq_refl eq_refl eq_refl eq_refl).
Defined.

Section OtherHooks.

Context (allowed : list HookType).

Implicit Types (opts : list HookOption).

Local Abbreviation kept opts := (filter (fun o => hook_of o ∈ allowed) opts).

Ltac read_kept :=
  intros Hin;
  let opts := fresh "opts" in
  let IH := fresh "IH" in
  intros opts; induction opts as [| [] opts IH];
  [ done
  | rewrite filter_cons; simpl; case_decide; simpl; done .. ].

Lemma guard_kept : h_guard ∈ allowed → ∀ opts, guard (kept opts) = guard opts.
Proof. read_kept. Qed.
Lemma reduce_kept : h_reduce ∈ allowed → ∀ opts, reduce (kept opts) = reduce opts.
Proof. read_kept. Qed.
Lemma assign_kept : h_assign ∈ allowed → ∀ opts, assign (kept opts) = assign opts.
Proof. read_kept. Qed.
Lemma action_kept : h_action ∈ allowed → ∀ opts, action (kept opts) = action opts.
Proof. read_kept. Qed.
Lemma invoke_kept : h_invoke ∈ allowed → ∀ opts, invoke (kept opts) = invoke opts.
Proof. read_kept. Qed.
Lemma effect_kept : h_effect ∈ allowed → ∀ opts, effect (kept opts) = effect opts.
Proof. read_kept. Qed.

Lemma add_kept opts merged hook :
  hook ∈ allowed → add (kept opts) merged hook = add opts merged hook.
Proof.
  intros Hin. destruct hook; simpl;
    rewrite ?guard_kept, ?reduce_kept, ?assign_kept, ?action_kept,
            ?invoke_kept, ?effect_kept; done.
Qed.

Lemma foldl_add_kept opts merged hooks :
  hooks ⊆ allowed →
  foldl (add (kept opts)) merged hooks = foldl (add opts) merged hooks.
Proof.
  revert merged. induction hooks as [| hook hooks IH]; intros merged Hsub;
    [done |].
  simpl. rewrite add_kept by (apply Hsub; left).
  apply IH. intros h Hh. apply Hsub. by right.
Qed.

End OtherHooks.

(** X14: [merge] reads only the hooks its caller allows.  An option of
    another kind changes nothing: [exit] ignores [guard], [invoke] and
    [effect]; [enter] ignores [guard]; the three transition builders ignore
    [invoke] and [effect]. *)
Theorem merge_ignores_other_hooks (opts : list HookOption)
    (allowed : list HookType) :
  merge (Some opts) allowed
  = merge (Some (filter (fun o => hook_of o ∈ allowed) opts)) allowed.
Proof.
  unfold merge. simpl. symmetry. by apply foldl_add_kept.
Qed.

Lemma actionToReduce_eq (a : Action) ctx ev :
  actionToReduce a ctx ev = (_ ← a ctx ev; Ret ACTION).
Proof. done. Qed.

(** X15: actions do not touch the state.  The reducers that [merge] makes
    of [action] hooks return the sentinel, so [applyReducers] leaves the
    state object as it is, each action is called with the same context, and
    the run ends with the first action that throws. *)
Theorem actions_leave_the_context (next : StateObject) (ev : EventObject)
    (actions : list Action) :
  (∀ n, applyReducers next ev (actionToReduce <$> actions) = Ret n → n = next)
  ∧ (Forall (fun a => a (context next) ev = Ret tt) actions →
     applyReducers next ev (actionToReduce <$> actions) = Ret next)
  ∧ (∀ before a after e,
       actions = before ++ a :: after →
       Forall (fun a' => a' (context next) ev = Ret tt) before →
       a (context next) ev = Throw e →
       applyReducers next ev (actionToReduce <$> actions) = Throw e).
Proof.
  assert (Hall : ∀ l, Forall (fun a => a (context next) ev = Ret tt) l →
                      applyReducers next ev (actionToReduce <$> l) = Ret next).
  { induction 1 as [| a l Ha _ IH]; [done |].
    rewrite fmap_cons. cbn [applyReducers]. rewrite actionToReduce_eq.
    by rewrite Ha. }
  split_and!.
  - induction actions as [| a actions IH].
    + by intros n [= <-].
    + intros n. rewrite fmap_cons. cbn [applyReducers].
      rewrite actionToReduce_eq.
      destruct (a (context next) ev) as [[] | |]; simpl; try done. apply IH.
  - apply Hall.
  - intros before a after e -> Hbefore Ha.
    rewrite fmap_app, applyReducers_app, (Hall before Hbefore).
    rewrite fmap_cons. cbn [mbind res_bind applyReducers].
    rewrite actionToReduce_eq. by rewrite Ha.
Qed.

Lemma actions_leave_the_context_witness :
  Forall (fun a : Action => a (context (at_state "a" ∅)) go = Ret tt)
         [log_action; log_action]
  ∧ applyReducers (at_state "a" ∅) go (actionToReduce <$> [log_action; log_action])
    = Ret (at_state "a" ∅)
  ∧ [log_action; boom; log_action] = [log_action] ++ boom :: [log_action]
  ∧ Forall (fun a : Action => a (context (at_state "a" ∅)) go = Ret tt) [log_action]
  ∧ boom (context (at_state "a" ∅)) go = Throw (Thrown (VStr "boom"))
  ∧ applyReducers (at_state "a" ∅) go
      (actionToReduce <$> [log_action; boom; log_action])
    = Throw (Thrown (VStr "boom")).
Proof.
  assert (H2 : Forall (fun a : Action => a (context (at_state "a" ∅)) go = Ret tt)
                      [log_action; log_action]) by (by repeat constructor).
  assert (H1 : Forall (fun a : Action => a (context (at_state "a" ∅)) go = Ret tt)
                      [log_action]) by (by repeat constructor).
  split; [exact H2 |]. split.
  - exact (proj1 (proj2 (actions_leave_the_context (at_state "a" ∅) go
                           [log_action; log_action])) H2).
  - split; [reflexivity |]. split; [exact H1 |]. split; [reflexivity |].
    exact (proj2 (proj2 (actions_leave_the_context (at_state "a" ∅) go
                           [log_action; boom; log_action]))
             [log_action] boom [log_action] _ eq_refl H1 eq_refl).
Defined.

(** X16: the guards of a transition are called in order, with the same
    context and event, up to the first one that does not return a truthy
    value.  If that guard returns a falsy value the transition is not
    taken, and if it throws the exception escapes; the guards after it are
    not called, whatever they would do.  With no guard, or when all return
    truthy values, the transition is taken. *)
Theorem guards_stop_at_the_first_failure (ctx : Context) (ev : EventObject)
    (T : Transition) :
  (Forall (fun g : Guard => g ctx ev = Ret true) (guardsOf T) →
   checkGuards ctx ev T = Ret true)
  ∧ (∀ before g after,
       guardsOf T = before ++ g :: after →
       Forall (fun g' : Guard => g' ctx ev = Ret true) before →
       g ctx ev ≠ Ret true →
       checkGuards ctx ev T = (b ← g ctx ev; Ret false)).
Proof.
  rewrite checkGuards_every. split.
  - induction 1 as [| g gs Hg _ IH]; simpl; [done |]. by rewrite Hg.
  - intros before g after -> Hbefore Hg.
    induction Hbefore as [| g' before Hg' _ IH]; simpl.
    + by destruct (g ctx ev) as [[|] | |].
    + by rewrite Hg'.
Qed.

Lemma guards_stop_at_the_first_failure_witness :
  Forall (fun g : Guard => g ∅ go = Ret true) (guardsOf (guarded_by [always; always]))
  ∧ checkGuards ∅ go (guarded_by [always; always]) = Ret true
  ∧ guardsOf (guarded_by [always; never; fun _ _ => Throw (Thrown (VStr "late"))])
    = [always] ++ never :: [fun _ _ => Throw (Thrown (VStr "late"))]
  ∧ Forall (fun g : Guard => g ∅ go = Ret true) [always]
  ∧ never ∅ go ≠ Ret true
  ∧ checkGuards ∅ go (guarded_by [always; never; fun _ _ => Throw (Thrown (VStr "late"))])
    = Ret false.
Proof.
  assert (H2 : Forall (fun g : Guard => g ∅ go = Ret true)
                      (guardsOf (guarded_by [always; always])))
    by (by repeat constructor).
  assert (H1 : Forall (fun g : Guard => g ∅ go = Ret true) [always])
    by (by repeat constructor).
  assert (Hn : never ∅ go ≠ Ret true) by discriminate.
  split; [exact H2 |]. split.
  - exact (proj1 (guards_stop_at_the_first_failure ∅ go (guarded_by [always; always]))
             H2).
  - split; [reflexivity |]. split; [exact H1 |]. split; [exact Hn |].
    exact (proj2 (guards_stop_at_the_first_failure ∅ go
                    (guarded_by [always; never; fun _ _ => Throw (Thrown (VStr "late"))]))
             [always] never [fun _ _ => Throw (Thrown (VStr "late"))] eq_refl H1 Hn).
Defined.

(* ===================================================================== *)
(** * Further properties of the effect runtime and of the service *)
(* ===================================================================== *)

Section Cleaning.

Implicit Types (w : World) (h : EventArg → M unit) (effect : loc).

Lemma same_effects_refl w : same_effects w w.
Proof. intros effect o Ho. by exists o. Qed.

Lemma same_effects_trans w1 w2 w3 :
  same_effects w1 w2 → same_effects w2 w3 → same_effects w1 w3.
Proof.
  intros H12 H23 effect o Ho.
  destruct (H12 effect o Ho) as (o2 & Ho2 & He2 & Hd2 & Hf2).
  destruct (H23 effect o2 Ho2) as (o3 & Ho3 & He3 & Hd3 & Hf3).
  exists o3. split_and!; [done | congruence | congruence | auto].
Qed.

Lemma same_effects_disposed w w' effect :
  same_effects w w' → is_disposed effect w = true → is_disposed effect w' = true.
Proof.
  intros Hs. unfold is_disposed.
  destruct (heap w !! effect) as [o |] eqn:Ho; [| done].
  destruct (Hs effect o Ho) as (o' & -> & _ & _ & Hf). exact Hf.
Qed.

Lemma same_effects_has_dispose w w' effect :
  same_effects w w' → has_dispose effect w → has_dispose effect w'.
Proof.
  intros Hs (o & Ho & Hd).
  destruct (Hs effect o Ho) as (o' & Ho' & _ & Hd' & _).
  exists o'. split; [done |]. by rewrite Hd'.
Qed.

Lemma same_effects_call_dispose effect n w :
  same_effects w (with_warnings n (with_disposed effect w)).
Proof.
  intros effect' o Ho. unfold with_warnings, with_disposed. simpl.
  destruct (heap w !! effect) as [o0 |] eqn:Ho0; [| by exists o].
  destruct (decide (effect = effect')) as [<- | Hne].
  - rewrite list_lookup_insert_eq by (by eapply lookup_lt_Some).
    simplify_eq. eexists. by split_and!.
  - rewrite list_lookup_insert_ne by done. by exists o.
Qed.

(** Cleanups cannot reach the service: their calls of [send] are
    swallowed. *)
Lemma cleanEffects_inv h l w w' res :
  cleanEffects h l w = (w', res) →
  service w' = service w
  ∧ same_effects w w'
  ∧ ∀ r, res = Ret r →
         r = []
         ∧ ∀ effect, effect ∈ l → has_dispose effect w →
                     is_disposed effect w' = true.
Proof.
  revert w. induction l as [| effect l IH]; intros w.
  - cbn [cleanEffects]. unfold mret, M_ret. intros [= <- <-].
    split; [done |]. split; [apply same_effects_refl |].
    intros r [= <-]. split; [done |]. intros effect Hin.
    by apply elem_of_nil in Hin.
  - cbn [cleanEffects]. unfold mbind at 1, M_bind at 1, get_world.
    cbn beta iota.
    destruct (heap w !! effect) as [o |] eqn:Ho.
    2: { unfold mbind, M_bind, mret, M_ret. cbn beta iota. intros H.
         destruct (IH w H) as (Hs & Hh & Hr). split; [done |]. split; [done |].
         intros r Hres. destruct (Hr r Hres) as [-> Hall]. split; [done |].
         intros effect' [-> | Hin]%elem_of_cons Hd; [| by apply Hall].
         destruct Hd as (o' & Ho' & _). congruence. }
    destruct (dispose o) as [d |] eqn:Hd.
    2: { unfold mbind, M_bind, mret, M_ret. cbn beta iota. intros H.
         destruct (IH w H) as (Hs & Hh & Hr). split; [done |]. split; [done |].
         intros r Hres. destruct (Hr r Hres) as [-> Hall]. split; [done |].
         intros effect' [-> | Hin]%elem_of_cons Hd'; [| by apply Hall].
         destruct Hd' as (o' & Ho' & [d' Hd']). congruence. }
    unfold mbind, M_bind.
    rewrite call_dispose_swallows by (by rewrite Ho).
    set (w1 := with_warnings (sends d) (with_disposed effect w)).
    assert (H1 : same_effects w w1) by apply same_effects_call_dispose.
    assert (Hdisp : is_disposed effect w1 = true).
    { unfold w1, is_disposed, with_warnings. simpl.
      fold (is_disposed effect (with_disposed effect w)).
      apply is_disposed_with_disposed. by rewrite Ho. }
    destruct (outcome d) as [[] | e |].
    + intros H. destruct (IH w1 H) as (Hs & Hh & Hr). split; [by rewrite Hs |].
      split; [by eapply same_effects_trans |].
      intros r Hres. destruct (Hr r Hres) as [-> Hall]. split; [done |].
      intros effect' [-> | Hin]%elem_of_cons Hd'.
      * by eapply same_effects_disposed.
      * apply Hall; [done |]. by eapply same_effects_has_dispose.
    + intros [= <- <-]. split; [done |]. split; [done |]. by intros r.
    + intros [= <- <-]. split; [done |]. split; [done |]. by intros r.
Qed.

End Cleaning.

(** X17: [cleanEffects] calls the stored cleanup of each effect in order.
    Whatever the cleanups do with the [send] they were given, the service
    (its state, its previous state, its lists of effects) is left as it
    was and no effect object is added or loses its cleanup; when all the
    cleanups return, the result is the empty array and every effect of the
    list that held a cleanup is marked disposed. *)
Theorem cleanEffects_disposes_the_running_effects (h : EventArg → M unit)
    (runningEffects : list loc) (w : World) :
  service (cleanEffects h runningEffects w).1 = service w
  ∧ same_effects w (cleanEffects h runningEffects w).1
  ∧ ∀ r, (cleanEffects h runningEffects w).2 = Ret r →
         r = []
         ∧ ∀ effect, effect ∈ runningEffects → has_dispose effect w →
                     is_disposed effect (cleanEffects h runningEffects w).1 = true.
Proof. apply (cleanEffects_inv h runningEffects w), surjective_pairing. Qed.

Lemma cleanEffects_disposes_the_running_effects_witness :
  (cleanEffects (send 1) [0%nat] ping_running).2 = Ret []
  ∧ 0%nat ∈ [0%nat]
  ∧ has_dispose 0 ping_running
  ∧ is_disposed 0 (cleanEffects (send 1) [0%nat] ping_running).1 = true.
Proof.
  assert (Hin : 0%nat ∈ [0%nat]) by left.
  assert (Hd : has_dispose 0 ping_running).
  { eexists. split; [reflexivity |]. by eexists. }
  split; [reflexivity |]. split; [exact Hin |]. split; [exact Hd |].
  exact (proj2 (proj2 (proj2 (cleanEffects_disposes_the_running_effects
                                (send 1) [0%nat] ping_running)) [] eq_refl)
           0%nat Hin Hd).
Defined.

(** X18: a stopped service stays stopped.  [stop] turns the service off
    before it runs the cleanups, which cannot turn it on again: whether or
    not a cleanup throws, the service is left with its state, without
    subscribers and without pending effects, and every later [send] returns
    at once and changes nothing. *)
Theorem stopped_service_ignores_send (fuel : nat) (w : World) :
  running (service (stop fuel w).1) = false
  ∧ state (service (stop fuel w).1) = state (service w)
  ∧ cbs (service (stop fuel w).1) = []
  ∧ pendingEffects (service (stop fuel w).1) = []
  ∧ ((stop fuel w).2 = Ret tt → runningEffects (service (stop fuel w).1) = [])
  ∧ ∀ fuel' E, send (S fuel') E (stop fuel w).1 = ((stop fuel w).1, Ret tt).
Proof.
  assert (H : running (service (stop fuel w).1) = false
              ∧ state (service (stop fuel w).1) = state (service w)
              ∧ cbs (service (stop fuel w).1) = []
              ∧ pendingEffects (service (stop fuel w).1) = []
              ∧ ((stop fuel w).2 = Ret tt →
                 runningEffects (service (stop fuel w).1) = [])).
  { unfold stop, mbind, M_bind, modify, get_world. cbn beta iota.
    set (w0 := set_service _ w).
    destruct (cleanEffects (send fuel) (runningEffects (service w0)) w0)
      as [w1 r] eqn:Hc.
    apply cleanEffects_inv in Hc as (Hs & _ & Hr).
    destruct r as [cleaned | e |]; simpl; rewrite ?Hs; try done.
    destruct (Hr cleaned eq_refl) as [-> _]. done. }
  destruct H as (Hrun & Hst & Hcbs & Hpend & Hr).
  split_and!; try done.
  intros fuel' E. cbn [send]. unfold mbind, M_bind, get_world. cbn beta iota.
  by rewrite Hrun.
Qed.

Lemma stopped_service_ignores_send_witness :
  (stop 1 ping_running).2 = Ret tt
  ∧ runningEffects (service (stop 1 ping_running).1) = []
  ∧ send 2 (EventName "go") (stop 1 ping_running).1
    = ((stop 1 ping_running).1, Ret tt).
Proof.
  split; [reflexivity |]. split.
  - exact (proj1 (proj2 (proj2 (proj2 (proj2
             (stopped_service_ignores_send 1 ping_running))))) eq_refl).
  - exact (proj2 (proj2 (proj2 (proj2 (proj2
             (stopped_service_ignores_send 1 ping_running))))) 1%nat
             (EventName "go")).
Defined.

Section Running.

Implicit Types (w : World) (h : EventArg → M unit) (st : StateObject).

Lemma runEffects_sublist h effects st w w' r :
  runEffects h effects st w = (w', Ret r) → sublist r effects.
Proof.
  revert w w' r. induction effects as [| effect effects IH]; intros w w' r.
  - cbn [runEffects]. unfold mret, M_ret. intros [= _ <-]. constructor.
  - cbn [runEffects]. unfold mbind at 1, M_bind at 1, get_world. cbn beta iota.
    destruct (heap w !! effect) as [o |]; [| done].
    unfold mbind at 1, M_bind at 1.
    destruct (runProg _ _ w) as [w1 [[| | d] | e |]]; try done.
    + intros H. apply sublist_cons. by eapply IH.
    + unfold mbind, M_bind, warning, modify. cbn beta iota.
      intros H. apply sublist_cons. by eapply IH.
    + unfold mbind at 1, M_bind at 1, store_dispose, modify. cbn beta iota.
      unfold mbind, M_bind.
      destruct (runEffects h effects st _) as [w2 [r2 | e |]] eqn:Hrec;
        try done.
      unfold mret, M_ret. intros [= _ <-]. apply sublist_skip. by eapply IH.
Qed.

Lemma runProg_quiet {R} h (p : Prog R) w :
  sends p = 0%nat → runProg h p w = (w, outcome p).
Proof. by destruct p. Qed.

End Running.

(** X19: when the inner [runEffects] of a service returns, the running
    effects of the service are among those that were pending when it
    started, in their order, whatever the effects did with [send]
    meanwhile. *)
Theorem service_runs_what_was_pending (h : EventArg → M unit) (w w' : World) :
  service_runEffects h w = (w', Ret tt) →
  sublist (runningEffects (service w')) (pendingEffects (service w)).
Proof.
  unfold service_runEffects. unfold mbind at 1, M_bind at 1, get_world.
  cbn beta iota. unfold mbind at 1, M_bind at 1.
  destruct (cleanEffects h (runningEffects (service w)) w) as [w1 r] eqn:Hc.
  apply cleanEffects_inv in Hc as (Hs & _ & _).
  destruct r as [cleaned | e |]; try done.
  unfold mbind at 1, M_bind at 1, set_runningEffects, modify. cbn beta iota.
  unfold mbind at 1, M_bind at 1. cbn beta iota.
  unfold mbind at 1, M_bind at 1. cbn [service set_service pendingEffects state].
  rewrite Hs.
  destruct (runEffects h (pendingEffects (service w)) (state (service w)) _)
    as [w2 [started | e |]] eqn:Hr; try done.
  intros [= <-]. simpl. by eapply runEffects_sublist.
Qed.

Lemma service_runs_what_was_pending_witness :
  service_runEffects (send 3) hop_pending = (hop_done, Ret tt)
  ∧ sublist (runningEffects (service hop_done)) (pendingEffects (service hop_pending))
  ∧ name (state (service hop_done)) = VStr "b"
  ∧ has_dispose 1 hop_done
  ∧ 1%nat ∉ runningEffects (service hop_done).
Proof.
  assert (H : service_runEffects (send 3) hop_pending = (hop_done, Ret tt))
    by reflexivity.
  split; [exact H |]. split.
  - exact (service_runs_what_was_pending (send 3) hop_pending hop_done H).
  - split; [reflexivity |]. split.
    + eexists. split; [reflexivity |]. by eexists.
    + apply not_elem_of_nil.
Defined.

Section QuietEffects.

Implicit Types (w : World) (h : EventArg → M unit) (st : StateObject)
  (effect : loc).

(** Storing a cleanup changes neither which effect an object holds nor the
    service. *)
Lemma effect_call_store_dispose st w effect d effect' :
  effect_call st (store_dispose effect d w).1 effect' = effect_call st w effect'.
Proof.
  unfold effect_call, store_dispose, modify, set_heap. simpl.
  destruct (heap w !! effect) as [o |] eqn:Ho; [| done].
  destruct (decide (effect = effect')) as [<- | Hne].
  - rewrite list_lookup_insert_eq by (by eapply lookup_lt_Some).
    by rewrite Ho.
  - by rewrite list_lookup_insert_ne.
Qed.

Lemma effect_call_warning st w msg effect' :
  effect_call st (warning msg w).1 effect' = effect_call st w effect'.
Proof. done. Qed.

Lemma runEffects_quiet h effects st w :
  Forall (returns_quietly st w) effects →
  ∃ w',
    runEffects h effects st w
    = (w', Ret (filter (fun effect => returns_cleanup st w effect = true) effects))
    ∧ service w' = service w
    ∧ warnings w'
      = warnings w
        ++ replicate
             (length (filter (fun effect => returns_promise st w effect = true)
                             effects))
             async_effect_warning
    ∧ ∀ effect', effect_call st w' effect' = effect_call st w effect'.
Proof.
  intros Hall. revert w Hall.
  induction effects as [| effect effects IH]; intros w Hall.
  - exists w. cbn [runEffects]. split; [done |]. split; [done |].
    split; [| done]. simpl. by rewrite app_nil_r.
  - apply Forall_cons in Hall as [(p & r & Hcall & Hsends & Hout) Hall].
    assert (Hc : returns_cleanup st w effect
                 = match r with Cleanup _ => true | _ => false end).
    { unfold returns_cleanup. rewrite Hcall. simpl. by rewrite Hout. }
    assert (Hp : returns_promise st w effect
                 = match r with PromiseLike => true | _ => false end).
    { unfold returns_promise. rewrite Hcall. simpl. by rewrite Hout. }
    cbn [runEffects]. unfold mbind at 1, M_bind at 1, get_world. cbn beta iota.
    rewrite !filter_cons.
    unfold effect_call in Hcall.
    destruct (heap w !! effect) as [o |] eqn:Ho; [| done].
    simpl in Hcall. injection Hcall as Hcall. rewrite Hcall.
    unfold mbind at 1, M_bind at 1. rewrite (runProg_quiet _ p w Hsends), Hout.
    destruct r as [| | d].
    + rewrite !decide_False by (by rewrite ?Hc, ?Hp). apply IH, Hall.
    + rewrite decide_False by (by rewrite Hc).
      rewrite decide_True by (by rewrite Hp).
      unfold mbind, M_bind. cbn beta iota.
      set (w1 := (warning async_effect_warning w).1).
      assert (Hall1 : Forall (returns_quietly st w1) effects).
      { eapply Forall_impl; [exact Hall |]. intros e (p' & r' & Hc' & Hs & Ho').
        by exists p', r'. }
      destruct (IH w1 Hall1) as (w' & Hrun & Hs & Hw & Hc').
      exists w'. change (warning async_effect_warning w) with (w1, @Ret unit tt).
      cbn beta iota. rewrite Hrun. split_and!; try done.
      rewrite Hw. simpl. by rewrite <- app_assoc.
    + rewrite decide_True by (by rewrite Hc).
      rewrite decide_False by (by rewrite Hp).
      unfold mbind at 1, M_bind at 1.
      set (w1 := (store_dispose effect d w).1).
      assert (Hcall1 : ∀ effect', effect_call st w1 effect' = effect_call st w effect').
      { intros effect'. apply effect_call_store_dispose. }
      assert (Hall1 : Forall (returns_quietly st w1) effects).
      { eapply Forall_impl; [exact Hall |]. intros e (p' & r' & Hc' & Hs & Ho').
        exists p', r'. by rewrite Hcall1. }
      destruct (IH w1 Hall1) as (w' & Hrun & Hs & Hw & Hc').
      exists w'.
      change (store_dispose effect d w) with (w1, @Ret unit tt).
      cbn beta iota. unfold mbind, M_bind. rewrite Hrun.
      unfold mret, M_ret.
      assert (Hf : ∀ l : list nat,
                filter (fun e => returns_cleanup st w1 e = true) l
                = filter (fun e => returns_cleanup st w e = true) l).
      { intros l. apply list_filter_iff. intros e. unfold returns_cleanup.
        by rewrite Hcall1. }
      assert (Hg : ∀ l : list nat,
                filter (fun e => returns_promise st w1 e = true) l
                = filter (fun e => returns_promise st w e = true) l).
      { intros l. apply list_filter_iff. intros e. unfold returns_promise.
        by rewrite Hcall1. }
      rewrite Hf. split_and!; try done.
      * rewrite Hw, Hg. done.
      * intros effect'. by rewrite Hc'.
Qed.

End QuietEffects.

(** X20: [runEffects] on effects that return without calling [send].  An
    effect that returns a cleanup function is retained, in order; one that
    returns nothing is dropped; one that returns a promise-like object is
    dropped with the warning that effects must not be asynchronous.  The
    service itself is not touched. *)
Theorem runEffects_keeps_the_effects_with_a_cleanup (h : EventArg → M unit)
    (effects : list loc) (st : StateObject) (w : World) :
  Forall (returns_quietly st w) effects →
  ∃ w',
    runEffects h effects st w
    = (w', Ret (filter (fun effect => returns_cleanup st w effect = true) effects))
    ∧ service w' = service w
    ∧ warnings w'
      = warnings w
        ++ replicate
             (length (filter (fun effect => returns_promise st w effect = true)
                             effects))
             async_effect_warning.
Proof.
  intros Hall.
  destruct (runEffects_quiet h effects st w Hall) as (w' & Hrun & Hs & Hw & _).
  by exists w'.
Qed.

Lemma runEffects_keeps_the_effects_with_a_cleanup_witness :
  Forall (returns_quietly (at_state "c" ∅) three_effects) [0; 1; 2]%nat
  ∧ ∃ w',
      runEffects (send 1) [0; 1; 2]%nat (at_state "c" ∅) three_effects
      = (w', Ret (filter (fun effect =>
                            returns_cleanup (at_state "c" ∅) three_effects effect
                            = true) [0; 1; 2]%nat))
      ∧ service w' = service three_effects
      ∧ warnings w'
        = warnings three_effects
          ++ replicate
               (length (filter (fun effect =>
                                  returns_promise (at_state "c" ∅) three_effects
                                                  effect = true) [0; 1; 2]%nat))
               async_effect_warning.
Proof.
  assert (H : Forall (returns_quietly (at_state "c" ∅) three_effects)
                     [0; 1; 2]%nat).
  { repeat constructor; eexists _, _; (split; [reflexivity |]); by split. }
  split; [exact H |].
  exact (runEffects_keeps_the_effects_with_a_cleanup (send 1) [0; 1; 2]%nat
           (at_state "c" ∅) three_effects H).
Defined.

Section Disposal.

Implicit Types (w : World) (h : EventArg → M unit) (effect : loc).

Lemma service_runEffects_disposes h w w' :
  (∀ effect ev, keeps_disposed effect (h ev)) →
  service_runEffects h w = (w', Ret tt) →
  ∀ effect, effect ∈ runningEffects (service w) → has_dispose effect w →
            is_disposed effect w' = true.
Proof.
  intros Hh H effect Hin Hd. revert H.
  unfold service_runEffects. unfold mbind at 1, M_bind at 1.
  unfold get_world at 1. cbn beta iota. unfold mbind at 1, M_bind at 1.
  destruct (cleanEffects h (runningEffects (service w)) w) as [w1 r] eqn:Hc.
  apply cleanEffects_inv in Hc as (_ & _ & Hr).
  destruct r as [cleaned | e |]; try done.
  destruct (Hr cleaned eq_refl) as [-> Hall].
  specialize (Hall effect Hin Hd).
  intros H.
  assert (Hk : keeps_disposed effect
                 (_ ← set_runningEffects [];
                  w ← get_world;
                  started ← runEffects h (pendingEffects (service w))
                                       (state (service w));
                  set_runningEffects started)).
  { apply keeps_bind; [apply keeps_set_service |]. intros _.
    apply keeps_get_world. intros w2.
    apply keeps_bind; [apply keeps_runEffects, Hh |]. intros started.
    apply keeps_set_service. }
  specialize (Hk w1 Hall). by rewrite H in Hk.
Qed.

Lemma has_dispose_alloc_effects effects w effect :
  has_dispose effect w → has_dispose effect (alloc_effects effects w).1.
Proof.
  intros (o & Ho & Hd). exists o. split; [| done].
  unfold alloc_effects, set_heap. simpl. by apply lookup_app_l_Some.
Qed.

End Disposal.

(** X21: leaving a state cleans up its effects.  When [send] takes an
    external transition and returns, every effect that was running and
    held a cleanup has been disposed, whatever the new effects and the
    subscribers did meanwhile. *)
Theorem external_transition_disposes_the_running_effects (fuel : nat)
    (E : EventArg) (w w' : World) (st : StateObject) (effects : list Effect) :
  running (service w) = true →
  transition fuel (machine (service w)) (state (service w)) E
  = Ret (st, Some effects) →
  send (S fuel) E w = (w', Ret tt) →
  ∀ effect, effect ∈ runningEffects (service w) → has_dispose effect w →
            is_disposed effect w' = true.
Proof.
  intros Hrun Ht H effect Hin Hd. revert H.
  cbn [send]. unfold mbind at 1, M_bind at 1, get_world. cbn beta iota.
  rewrite Hrun. cbn [negb]. rewrite Ht.
  unfold mbind at 1, M_bind at 1, set_prev, modify. cbn beta iota.
  unfold mbind at 1, M_bind at 1, set_state, modify. cbn beta iota.
  unfold mbind at 1, M_bind at 1.
  unfold mbind at 1, M_bind at 1.
  set (w2 := set_service _ (set_service _ w)).
  assert (Hin2 : effect ∈ runningEffects (service w2)) by done.
  assert (Hd2 : has_dispose effect w2) by done.
  clearbody w2.
  destruct (alloc_effects effects w2) as [w3 [pending | e |]] eqn:Ha; try done.
  assert (Hd3 : has_dispose effect w3).
  { pose proof (has_dispose_alloc_effects effects w2 effect Hd2) as H3.
    by rewrite Ha in H3. }
  assert (Hin3 : effect ∈ runningEffects (service w3)).
  { unfold alloc_effects in Ha. by injection Ha as <- _. }
  unfold mbind at 1, M_bind at 1, set_pendingEffects, modify. cbn beta iota.
  set (w4 := set_service _ w3).
  assert (Hin4 : effect ∈ runningEffects (service w4)) by done.
  assert (Hd4 : has_dispose effect w4) by done.
  clearbody w4.
  destruct (service_runEffects (send fuel) w4) as [w5 [[] | e |]] eqn:Hr;
    try done.
  pose proof (service_runEffects_disposes (send fuel) w4 w5
                (fun effect ev => keeps_send effect fuel ev) Hr effect Hin4 Hd4)
    as H5.
  unfold mbind, M_bind, get_world. cbn beta iota.
  intros H.
  pose proof (keeps_notify effect (send fuel) (cbs (service w5)) st
                (keeps_send effect fuel) w5 H5) as H6.
  by rewrite H in H6.
Qed.

Lemma external_transition_disposes_the_running_effects_witness :
  running (service hop_running) = true
  ∧ transition 2 (machine (service hop_running)) (state (service hop_running))
               (EventName "back")
    = Ret (at_state "a" ∅, Some [mkEffect hop {[ "type" := VStr "back" ]}])
  ∧ send 3 (EventName "back") hop_running = (hop_back_done, Ret tt)
  ∧ 0%nat ∈ runningEffects (service hop_running)
  ∧ has_dispose 0 hop_running
  ∧ is_disposed 0 hop_back_done = true.
Proof.
  assert (Ht : transition 2 (machine (service hop_running))
                 (state (service hop_running)) (EventName "back")
               = Ret (at_state "a" ∅, Some [mkEffect hop {[ "type" := VStr "back" ]}]))
    by reflexivity.
  assert (Hs : send 3 (EventName "back") hop_running = (hop_back_done, Ret tt))
    by reflexivity.
  assert (Hin : 0%nat ∈ runningEffects (service hop_running)) by left.
  assert (Hd : has_dispose 0 hop_running).
  { eexists. split; [reflexivity |]. by eexists. }
  split; [reflexivity |]. split; [exact Ht |]. split; [exact Hs |].
  split; [exact Hin |]. split; [exact Hd |].
  exact (external_transition_disposes_the_running_effects 2 (EventName "back")
           hop_running hop_back_done (at_state "a" ∅)
           [mkEffect hop {[ "type" := VStr "back" ]}] eq_refl Ht Hs 0%nat Hin Hd).
Defined.

(* ===================================================================== *)
(** * Properties of the reducer of the hook *)
(* ===================================================================== *)

Section Hook.

Implicit Types (machine : Machine) (curr next : ReducerState).

(** The initial transition does not depend on which falsy name the state
    object carries, unless a state is called by that name. *)
Lemma initial_transition_name fuel machine context v v' :
  states machine ≠ [] →
  truthy v = false → truthy v' = false →
  own_prop (states machine) (ToString v) = None →
  own_prop (states machine) (ToString v') = None →
  transition fuel machine (mkStateObject v context false)
             (EventObj {[ "type" := VNull ]})
  = transition fuel machine (mkStateObject v' context false)
               (EventObj {[ "type" := VNull ]}).
Proof.
  intros Hne Hv Hv' Hown Hown'. unfold transition. simpl. rewrite Hv, Hv'. simpl.
  assert (Hget : ∀ u, truthy u = false → own_prop (states machine) (ToString u) = None →
                      js_get (states machine) (ToString u) = Absent).
  { intros u Hu Ho. unfold js_get.
    by rewrite Ho, (falsy_name_not_inherited u Hu). }
  specialize (Hget v Hv Hown) as Hgv. specialize (Hget v' Hv' Hown') as Hgv'.
  destruct (states machine) as [| [k node] rest] eqn:Hstates; [done |].
  cbn [createImmediate assertString mbind res_bind].
  destruct fuel as [| fuel]; [done |].
  cbn [applyTransition isInternal targetOf name]. rewrite Hstates.
  by rewrite Hgv, Hgv'.
Qed.

End Hook.

(** X22: the hook and the service start alike.  [initial] (the hook) starts
    from a state object without a name, [createService] from one whose name
    is [null]; unless the machine has a state called ["null"] or
    ["undefined"], whose exit hooks the initial transition would run, the
    service starts from the state and the effects [initial] computes (in a
    machine with at least one state; with none, each keeps the state object
    it started from). *)
Theorem hook_and_service_start_alike (fuel : nat) (machine : Machine)
    (context : Context) (curr : ReducerState) :
  states machine ≠ [] →
  own_prop (states machine) "null" = None →
  own_prop (states machine) "undefined" = None →
  initial fuel context machine = Ret curr →
  createService fuel machine context
  = (pending ← alloc_effects (default [] (hook_effects curr));
     _ ← set_pendingEffects pending;
     service_runEffects (send fuel))
      (mkWorld (mkService machine (hook_state curr) None [] [] [] true) [] []).
Proof.
  intros Hne Hnull Hundef. unfold initial, createService.
  rewrite (initial_transition_name fuel machine context VUndefined VNull)
    by done.
  destruct (transition fuel machine (mkStateObject VNull context false) _)
    as [[state effects] | e |]; cbn [mbind res_bind]; try done.
  intros [= <-]. simpl. by destruct effects.
Qed.

Lemma hook_and_service_start_alike_witness :
  states complex_machine ≠ []
  ∧ own_prop (states complex_machine) "null" = None
  ∧ own_prop (states complex_machine) "undefined" = None
  ∧ initial 1 ∅ complex_machine
    = Ret (mkReducerState complex_machine (Some []) (at_state "initial" ∅))
  ∧ createService 1 complex_machine ∅
    = (pending ← alloc_effects [];
       _ ← set_pendingEffects pending;
       service_runEffects (send 1))
        (mkWorld (mkService complex_machine (at_state "initial" ∅) None [] [] [] true)
                 [] []).
Proof.
  assert (Hne : states complex_machine ≠ []) by discriminate.
  split; [exact Hne |].
  split; [reflexivity |]. split; [reflexivity |]. split; [reflexivity |].
  exact (hook_and_service_start_alike 1 complex_machine ∅
           (mkReducerState complex_machine (Some []) (at_state "initial" ∅))
           Hne eq_refl eq_refl eq_refl).
Defined.

(** X23: the effects the hook holds stay in step with its state.  In a
    machine with at least one state, whose immediates are products of
    [immediate], the reducer state that [initial] builds holds the effects
    of the enter hooks of the state it names, and every ["send"] action for
    that machine keeps it so: an external transition replaces state and
    effects together, and any other outcome keeps both the name of the
    state and the effects.  An action of another type returns the state
    unchanged. *)
Theorem hook_effects_stay_in_step (fuel : nat) (machine : Machine)
    (context : Context) :
  external_immediates machine →
  states machine ≠ [] →
  (∀ curr, initial fuel context machine = Ret curr →
           hook_machine curr = machine ∧ in_step curr)
  ∧ (∀ curr E next,
       hook_machine curr = machine →
       in_step curr →
       reducer fuel curr (mkReducerAction "send" E machine) = Ret next →
       hook_machine next = machine ∧ in_step next)
  ∧ (∀ curr type E,
       type ≠ "send" →
       reducer fuel curr (mkReducerAction type E machine) = Ret curr).
Proof.
  intros Hext Hstates. split_and!.
  - intros curr. unfold initial.
    destruct (transition fuel machine _ _) as [[state effects] | e |] eqn:Ht;
      cbn [mbind res_bind]; try done.
    intros [= <-]. split; [done |]. unfold in_step. simpl.
    destruct effects as [effects |].
    + apply transition_some_effects in Ht as (node & Hnode & ->).
      by exists node, (toEventObject (EventObj {[ "type" := VNull ]})).
    + exfalso. unfold transition in Ht. simpl in Ht.
      destruct (states machine) as [| [k node] rest] eqn:Hs; [done |].
      cbn [createImmediate assertString mbind res_bind] in Ht.
      by apply (applyTransition_null_effects _ _ _ _ _ _ Hext) in Ht as [? _].
  - intros curr E next Hm (node & ev & Hnode & Heff). unfold reducer. simpl.
    destruct (transition fuel machine (hook_state curr) E)
      as [[state effects] | e |] eqn:Ht; cbn [mbind res_bind]; try done.
    intros [= <-]. split; [done |]. unfold in_step. simpl. rewrite Hm in *.
    destruct effects as [effects |].
    + apply transition_some_effects in Ht as (node' & Hnode' & ->).
      by exists node', (toEventObject E).
    + apply (transition_null_name _ _ _ _ _ Hext) in Ht as ->.
      by exists node, ev.
  - intros curr type E Htype. unfold reducer. simpl.
    destruct (String.eqb type "send") eqn:Heq; [| done].
    by apply String.eqb_eq in Heq.
Qed.

Lemma hook_effects_stay_in_step_witness :
  external_immediates hop_machine
  ∧ states hop_machine ≠ []
  ∧ initial 1 ∅ hop_machine = Ret hook_in_a
  ∧ in_step hook_in_a
  ∧ reducer 1 hook_in_a (mkReducerAction "send" (EventName "next") hop_machine)
    = Ret hook_in_b
  ∧ in_step hook_in_b
  ∧ "stop" ≠ "send"
  ∧ reducer 1 hook_in_a (mkReducerAction "stop" (EventName "next") hop_machine)
    = Ret hook_in_a.
Proof.
  assert (Hext : external_immediates hop_machine).
  { unfold external_immediates. simpl. repeat constructor. }
  assert (Hne : states hop_machine ≠ []) by discriminate.
  assert (Hstop : "stop" ≠ "send") by discriminate.
  destruct (hook_effects_stay_in_step 1 hop_machine ∅ Hext Hne)
    as (Hinit & Hsend & Hother).
  destruct (Hinit hook_in_a eq_refl) as [Hm Ha].
  split; [exact Hext |]. split; [exact Hne |]. split; [reflexivity |].
  split; [exact Ha |]. split; [reflexivity |]. split.
  - exact (proj2 (Hsend hook_in_a (EventName "next") hook_in_b Hm Ha eq_refl)).
  - split; [exact Hstop |]. exact (Hother hook_in_a "stop" (EventName "next") Hstop).
Defined.
